(** * Exact Gaussian elimination of [matrix.py]: embedding and verification

    The Python module defines two classes, [Row] (a mutable list of numbers)
    and [Matrix] (a mutable list of [Row] objects), and three elimination
    algorithms on matrices: [det], [ref] and [rref].  The development below
    embeds the module in a small state-and-exception monad over an explicit
    object store, so that allocation, aliasing and in-place row replacement
    are visible, and then studies the algorithms through their effect on the
    contents of the working matrix.

    Numbers.  [Number = Union[float, int, Fraction]] in the source.  The
    main embedding fixes the exact case [Fraction], rendered as the
    canonical rationals [Qc] of the Standard Library: [+], [*], unary [-],
    [!= 0] are exact and [1 / x] raises [ZeroDivisionError] when [x] is
    zero.  Every result below that speaks of numbers is therefore a result
    about rows and matrices of Fractions.  On [int] and [float] entries
    Python's [1 / x] is a [float] and the arithmetic rounds: a second
    embedding, [Rounded], runs the same code over such numbers, with the
    binary64 floats of the kernel, and shows on concrete matrices where the
    exact results stop.

    Plan.  First the embedding, class by class and method by method, and
    its counterpart on [int] and [float] entries.  Then the vocabulary: the
    functions on lists of numbers that the methods and the loops compute,
    the forms of a matrix, and the predicates on stores.  Then the proofs:
    frame properties by the shape of the code, the specification of each
    method, the loops against their functional view, the echelon forms and
    the determinant on the functional view, and last the main results,
    stated on the embedded methods themselves. *)

From Stdlib Require Import QArith Qcanon ZArith Lia String.
From Stdlib Require Floats.PrimFloat Floats.SpecFloat Floats.FloatOps.
From stdpp Require Import base numbers list sorting gmap.

Local Open Scope Qc_scope.

(** ** Numbers *)

Global Instance Qc_inhabited : Inhabited Qc := populate 0.

(** Literals used in examples: the integer [z] and the fraction [a/b]. *)
Definition num (z : Z) : Qc := Q2Qc (inject_Z z).
Definition frac (a : Z) (b : positive) : Qc := Q2Qc (a # b).

(** ** Exceptions and results *)

(** The exceptions the module can raise.  The source raises [ValueError]
    with three different messages (empty matrix, rows of several lengths,
    non-square determinant) and one more in [Row.__add__]; Python itself
    raises [ZeroDivisionError], [IndexError], [KeyError] and the
    [ValueError] of [max] on an empty sequence.  On [int] and [float]
    entries two more arise: [OverflowError], and the [ValueError] of
    [Fraction] on a NaN ([NanToRatio]); nothing raises them on Fractions.
    [BadReference] stands for a dangling object reference, which Python
    cannot produce; it is raised by the store primitives only. *)
Inductive exn : Type :=
  | EmptyMatrix
  | RaggedRows (lengths : list nat)
  | NotSquare (dims : nat * nat)
  | LengthMismatch (len_self len_other : nat)
  | ZeroDivisionError
  | IndexError
  | KeyError
  | EmptySequence
  | OverflowError
  | NanToRatio
  | BadReference.

Inductive result (A : Type) : Type :=
  | Ok (a : A)
  | Err (e : exn).
Arguments Ok {A} a.
Arguments Err {A} e.

Global Instance exn_eq_dec : EqDecision exn.
Proof. solve_decision. Defined.

Global Instance result_eq_dec `{EqDecision A} : EqDecision (result A).
Proof. solve_decision. Defined.

(** ** The object store *)

Definition loc := nat.
Bind Scope nat_scope with loc.

(** A [Matrix] object: its attributes [__rows] and [__col_len]. *)
Record matrix_obj : Type := MatrixObj {
  m_rows : list loc;
  m_col_len : nat
}.

(** What [print] writes.  Rendering of numbers and matrices to text
    ([num_to_string], the layout of [Matrix.__str__]) is left abstract: an
    event carries the values that are rendered. *)
Inductive event : Type :=
  | PrintStr (s : string)
  | PrintMatrix (entries : list (list Qc))
  | PrintSwap (i k : nat)
  | PrintScale (i : nat) (factor : Qc)
  | PrintAdd (j i : nat) (factor : Qc).

(** The store: [Row] objects (each one its list [__nums]), [Matrix] objects,
    and the text printed so far. *)
Record world : Type := World {
  w_rows : list (list Qc);
  w_mats : list matrix_obj;
  w_out : list event
}.

Definition empty_world : world := World [] [] [].

(** ** The monad: state over [world], with exceptions *)

Definition M (A : Type) : Type := world → result A * world.

Global Instance M_ret : MRet M := λ A a w, (Ok a, w).
Global Instance M_bind : MBind M := λ A B f c w,
  match c w with
  | (Ok a, w') => f a w'
  | (Err e, w') => (Err e, w')
  end.

Definition raise {A} (e : exn) : M A := λ w, (Err e, w).
Definition lift {A} (r : result A) : M A := λ w, (r, w).
Definition when (b : bool) (c : M unit) : M unit := if b then c else mret ().

(** [for x in l: body x] without [break]. *)
Fixpoint for_ {A} (l : list A) (body : A → M unit) : M unit :=
  match l with
  | [] => mret ()
  | x :: l' => body x ;; for_ l' body
  end.

(** A loop that carries a local variable. *)
Fixpoint foldM {A S} (body : S → A → M S) (s : S) (l : list A) : M S :=
  match l with
  | [] => mret s
  | x :: l' => s' ← body s x; foldM body s' l'
  end.

Fixpoint traverse {A B} (f : A → M B) (l : list A) : M (list B) :=
  match l with
  | [] => mret []
  | x :: l' => y ← f x; ys ← traverse f l'; mret (y :: ys)
  end.

(** Store primitives. *)
Definition alloc_row (nums : list Qc) : M loc := λ w,
  (Ok (length (w_rows w)), World (w_rows w ++ [nums]) (w_mats w) (w_out w)).

Definition read_row (r : loc) : M (list Qc) := λ w,
  (from_option Ok (Err BadReference) (w_rows w !! r), w).

Definition write_row (r : loc) (nums : list Qc) : M unit := λ w,
  if decide (r < length (w_rows w))%nat
  then (Ok (), World (<[r := nums]> (w_rows w)) (w_mats w) (w_out w))
  else (Err BadReference, w).

Definition alloc_matrix (o : matrix_obj) : M loc := λ w,
  (Ok (length (w_mats w)), World (w_rows w) (w_mats w ++ [o]) (w_out w)).

Definition read_matrix (m : loc) : M matrix_obj := λ w,
  (from_option Ok (Err BadReference) (w_mats w !! m), w).

Definition write_matrix (m : loc) (o : matrix_obj) : M unit := λ w,
  if decide (m < length (w_mats w))%nat
  then (Ok (), World (w_rows w) (<[m := o]> (w_mats w)) (w_out w))
  else (Err BadReference, w).

Definition print (e : event) : M unit := λ w,
  (Ok (), World (w_rows w) (w_mats w) (w_out w ++ [e])).

(** ** Python lists *)

(** [l[i]] for an [int] index: negative indices count from the end. *)
Definition list_getitem {A} (l : list A) (i : Z) : result A :=
  let n := Z.of_nat (length l) in
  let j := if (i <? 0)%Z then (i + n)%Z else i in
  if ((j <? 0) || (n <=? j))%Z then Err IndexError
  else from_option Ok (Err IndexError) (l !! Z.to_nat j).

(** [l[i] = x]. *)
Definition list_setitem {A} (l : list A) (i : Z) (x : A) : result (list A) :=
  let n := Z.of_nat (length l) in
  let j := if (i <? 0)%Z then (i + n)%Z else i in
  if ((j <? 0) || (n <=? j))%Z then Err IndexError
  else Ok (<[Z.to_nat j := x]> l).

(** [l[lo:hi]] for non-negative bounds. *)
Definition list_slice {A} (l : list A) (lo hi : nat) : list A :=
  drop lo (take hi l).

(** [range(lo, hi)]. *)
Definition range (lo hi : nat) : list nat := seq lo (hi - lo).

(** [a / b] on Fractions: the exact quotient.  (On [int] and [float]
    operands the quotient is a rounded [float]: [Rounded.n_truediv].) *)
Definition num_truediv (a b : Qc) : M Qc :=
  if decide (b = 0) then raise ZeroDivisionError else mret (a / b).

(** ** class Row *)

(** [Row(x)]: [self.__nums = list(x)], a fresh list in a fresh object. *)
Definition Row_init (x : list Qc) : M loc := alloc_row x.

Definition Row_len (self : loc) : M nat :=
  nums ← read_row self; mret (length nums).

Definition Row_getitem (self : loc) (item : Z) : M Qc :=
  nums ← read_row self; lift (list_getitem nums item).

Definition Row_iter (self : loc) : M (list Qc) := read_row self.

Definition Row_neg (self : loc) : M loc :=
  nums ← read_row self; Row_init (Qcopp <$> nums).

Definition Row_add (self other : loc) : M loc :=
  len_other ← Row_len other;
  len_self ← Row_len self;
  if decide (len_other ≠ len_self) then raise (LengthMismatch len_self len_other)
  else
    xs ← read_row self;
    ys ← read_row other;
    Row_init (zip_with Qcplus xs ys).

Definition Row_sub (self other : loc) : M loc :=
  n ← Row_neg other; Row_add self n.

(** On Fractions no product raises.  (On an [int] and a [float] the
    conversion of the [int] may raise [OverflowError]: [Rounded.Row_mul].) *)
Definition Row_mul (self : loc) (other : Qc) : M loc :=
  nums ← read_row self; Row_init ((λ x, x * other) <$> nums).

Definition Row_truediv (self : loc) (other : Qc) : M loc :=
  k ← num_truediv 1 other; Row_mul self k.

Definition Row_copy (self : loc) : M loc :=
  nums ← read_row self; Row_init nums.

Definition Row_deepcopy (self : loc) : M loc :=
  nums ← read_row self; Row_init nums.

Definition Row_setitem (self : loc) (key : Z) (value : Qc) : M unit :=
  nums ← read_row self;
  nums' ← lift (list_setitem nums key value);
  write_row self nums'.

(** [pivot]: the loop returns at the first non-zero entry. *)
Fixpoint Row_pivot_loop (self : loc) (idx : list nat) : M Z :=
  match idx with
  | [] => mret (-1)%Z
  | i :: idx' =>
      x ← Row_getitem self (Z.of_nat i);
      if decide (x ≠ 0) then mret (Z.of_nat i) else Row_pivot_loop self idx'
  end.

Definition Row_pivot (self : loc) : M Z :=
  n ← Row_len self; Row_pivot_loop self (range 0 n).

Definition Row_is_zero (self : loc) : M bool :=
  nums ← read_row self; mret (forallb (λ x, bool_decide (x = 0)) nums).

(** ** class Matrix *)

(** [Matrix(x)].  [iter] materialises one element of [x]: raw row data is
    already a sequence, a [Row] object is iterated through [Row.__iter__].
    The rows are built and stored first, then the two checks run; the object
    is entered in the store once its attributes are set, since no reference
    to it escapes a failed [__init__]. *)
Definition Matrix_init {X} (iter : X → M (list Qc)) (x : list X) : M loc :=
  rows ← traverse (λ z, nums ← iter z; Row_init nums) x;
  if decide (length rows = 0%nat) then raise EmptyMatrix
  else
    lens ← traverse Row_len rows;
    let row_lengths : gset nat := list_to_set lens in
    if decide (1 < size row_lengths)%nat
    then raise (RaggedRows (merge_sort Nat.le (elements row_lengths)))
    else
      col_len ← lift (match elements row_lengths with
                      | c :: _ => Ok c
                      | [] => Err KeyError
                      end);
      alloc_matrix (MatrixObj rows col_len).

(** Construction from raw data. *)
Definition Matrix_new (x : list (list Qc)) : M loc := Matrix_init mret x.

Definition Matrix_len (self : loc) : M nat :=
  o ← read_matrix self; mret (length (m_rows o)).

Definition Matrix_getitem (self : loc) (item : Z) : M loc :=
  o ← read_matrix self; lift (list_getitem (m_rows o) item).

Definition Matrix_getslice (self : loc) (lo hi : nat) : M (list loc) :=
  o ← read_matrix self; mret (list_slice (m_rows o) lo hi).

Definition Matrix_setitem (self : loc) (key : Z) (value : loc) : M unit :=
  o ← read_matrix self;
  rows' ← lift (list_setitem (m_rows o) key value);
  write_matrix self (MatrixObj rows' (m_col_len o)).

Definition Matrix_dim (self : loc) : M (nat * nat) :=
  n ← Matrix_len self;
  r0 ← Matrix_getitem self 0;
  c ← Row_len r0;
  mret (n, c).

Definition Matrix_iter (self : loc) : M (list loc) :=
  o ← read_matrix self; mret (m_rows o).

(** [str(self)]: the first [max] ranges over all entries and raises on a
    matrix without entries.  On Fractions [num_to_string] never raises.  (On
    a [float] that is not finite it does: [Rounded.Matrix_str].) *)
Definition Matrix_str (self : loc) : M (list (list Qc)) :=
  rows ← Matrix_iter self;
  entries ← traverse Row_iter rows;
  if decide (concat entries = []) then raise EmptySequence else mret entries.

Definition print_matrix (self : loc) : M unit :=
  s ← Matrix_str self; print (PrintMatrix s).

Definition Matrix_copy (self : loc) : M loc :=
  rows ← Matrix_iter self; Matrix_init Row_iter rows.

Definition Matrix_deepcopy (self : loc) : M loc :=
  rows ← Matrix_iter self; Matrix_init Row_iter rows.

(** [self.__rows[i], self.__rows[j] = self.__rows[j], self.__rows[i]] *)
Definition Matrix_swap_rows (self : loc) (i j : Z) : M unit :=
  rj ← Matrix_getitem self j;
  ri ← Matrix_getitem self i;
  Matrix_setitem self i rj;;
  Matrix_setitem self j ri.

Definition Matrix_col (self : loc) (i : Z) : M (list Qc) :=
  n ← Matrix_len self;
  traverse (λ j : nat, r ← Matrix_getitem self (Z.of_nat j); Row_getitem r i) (range 0 n).

(** *** det *)

(** [for k in range(i, len(new)): if new[k][i] != 0: break] with its [else]
    branch: [Some k] after [break], [None] when the loop runs out. *)
Fixpoint det_scan (new : loc) (i : nat) (ks : list nat) : M (option nat) :=
  match ks with
  | [] => mret None
  | k :: ks' =>
      r ← Matrix_getitem new (Z.of_nat k);
      x ← Row_getitem r (Z.of_nat i);
      if decide (x ≠ 0) then mret (Some k) else det_scan new i ks'
  end.

(** [new[j][c] != 0 and not new[i].is_zero()] *)
Definition op_is_not_useless (new : loc) (i j : nat) (c : Z) : M bool :=
  rj ← Matrix_getitem new (Z.of_nat j);
  x ← Row_getitem rj c;
  if decide (x ≠ 0)
  then ri ← Matrix_getitem new (Z.of_nat i); z ← Row_is_zero ri; mret (negb z)
  else mret false.

(** Body of the loop over [j] in [det]. *)
Definition det_eliminate (new : loc) (verbose : Z) (i : nat) (pivot : Qc)
    (j : nat) : M unit :=
  useful ← op_is_not_useless new i j (Z.of_nat i);
  when ((1 <? verbose)%Z && useful)
    (rj ← Matrix_getitem new (Z.of_nat j);
     x ← Row_getitem rj (Z.of_nat i);
     f ← num_truediv (- x) pivot;
     print (PrintAdd j i f));;
  target ← Matrix_getitem new (Z.of_nat j);
  ri ← Matrix_getitem new (Z.of_nat i);
  nri ← Row_neg ri;
  rj ← Matrix_getitem new (Z.of_nat j);
  x ← Row_getitem rj (Z.of_nat i);
  t ← Row_mul nri x;
  t' ← Row_truediv t pivot;
  sum ← Row_add target t';
  Matrix_setitem new (Z.of_nat j) sum;;
  when ((1 <? verbose)%Z && useful) (print_matrix new).

(** Body of the loop over [i] in [det]; [neg] is the running sign. *)
Definition det_step (new : loc) (verbose : Z) (neg : Z) (i : nat) : M Z :=
  n ← Matrix_len new;
  found ← det_scan new i (range i n);
  match found with
  | None => mret neg
  | Some k =>
      neg' ← (if decide (k ≠ i)
              then Matrix_swap_rows new (Z.of_nat i) (Z.of_nat k);; mret (neg * -1)%Z
              else mret neg);
      when ((1 <? verbose)%Z && bool_decide (k ≠ i))
        (print (PrintSwap i k);; print_matrix new);;
      ri ← Matrix_getitem new (Z.of_nat i);
      pivot ← Row_getitem ri (Z.of_nat i);
      n' ← Matrix_len new;
      for_ (range (i + 1) n') (det_eliminate new verbose i pivot);;
      when (verbose =? 1)%Z (print_matrix new);;
      mret neg'
  end.

Definition det (self : loc) (verbose : Z) : M Qc :=
  new ← Matrix_deepcopy self;
  d ← Matrix_dim new;
  d' ← Matrix_dim new;
  if decide (d.2 ≠ d'.2)
  then dims ← Matrix_dim new; raise (NotSquare dims)
  else
    when (0 <? verbose)%Z (print (PrintStr "Initial: ");; print_matrix new);;
    n ← Matrix_len new;
    neg ← foldM (det_step new verbose) 1%Z (range 0 n);
    n' ← Matrix_len new;
    prod ← foldM (λ a c, r ← Matrix_getitem new (Z.of_nat c);
                          x ← Row_getitem r (Z.of_nat c);
                          mret (a * x))
                 1 (range 0 n');
    mret (num neg * prod).

(** *** ref *)

(** The sort key [(x[0], x[1])]: tuples compare lexicographically. *)
Definition key_le (a b : Z * nat) : Prop :=
  (a.1 < b.1)%Z ∨ (a.1 = b.1 ∧ a.2 ≤ b.2)%nat.

Global Instance key_le_dec : RelDecision key_le.
Proof. intros a b. unfold key_le. apply _. Defined.

(** Body of the loop over [j] in [ref]. *)
Definition ref_eliminate (new : loc) (verbose : Z) (i : nat) (pivot_ind : Z)
    (j : nat) : M unit :=
  useful ← op_is_not_useless new i j pivot_ind;
  when ((1 <? verbose)%Z && useful)
    (rj ← Matrix_getitem new (Z.of_nat j);
     x ← Row_getitem rj pivot_ind;
     print (PrintAdd j i (- x)));;
  target ← Matrix_getitem new (Z.of_nat j);
  ri ← Matrix_getitem new (Z.of_nat i);
  nri ← Row_neg ri;
  rj ← Matrix_getitem new (Z.of_nat j);
  x ← Row_getitem rj pivot_ind;
  t ← Row_mul nri x;
  sum ← Row_add target t;
  Matrix_setitem new (Z.of_nat j) sum;;
  when ((1 <? verbose)%Z && useful) (print_matrix new).

(** Body of the loop over [i] in [ref]. *)
Definition ref_step (new : loc) (verbose : Z) (i : nat) : M unit :=
  n ← Matrix_len new;
  rows ← Matrix_getslice new i n;
  n' ← Matrix_len new;
  keyed ← traverse (λ '(row, ind), p ← Row_pivot row; mret (p, ind))
               (zip rows (range i n'));
  let pivots := filter (λ x : Z * nat, x.1 ≠ (-1)%Z) (merge_sort key_le keyed) in
  match pivots with
  | [] => mret ()
  | (pivot_ind, pivot_row) :: _ =>
      if decide (pivot_ind = (-1)%Z) then mret ()
      else
        r ← Matrix_getitem new (Z.of_nat pivot_row);
        pivot ← Row_getitem r pivot_ind;
        Matrix_swap_rows new (Z.of_nat i) (Z.of_nat pivot_row);;
        when ((1 <? verbose)%Z && bool_decide (pivot_row ≠ i))
          (print (PrintSwap i pivot_row);; print_matrix new);;
        target ← Matrix_getitem new (Z.of_nat i);
        q ← Row_truediv target pivot;
        Matrix_setitem new (Z.of_nat i) q;;
        when ((1 <? verbose)%Z && bool_decide (pivot ≠ 1))
          (f ← num_truediv 1 pivot; print (PrintScale i f);; print_matrix new);;
        n'' ← Matrix_len new;
        for_ (range (i + 1) n'') (ref_eliminate new verbose i pivot_ind);;
        when (verbose =? 1)%Z (print_matrix new)
  end.

Definition ref (self : loc) (verbose : Z) : M loc :=
  new ← Matrix_deepcopy self;
  when (0 <? verbose)%Z (print (PrintStr "Initial: ");; print_matrix new);;
  n ← Matrix_len new;
  for_ (range 0 n) (ref_step new verbose);;
  mret new.

(** *** rref *)

(** Body of the loop over [j] in [rref]. *)
Definition rref_eliminate (new : loc) (verbose : Z) (i : nat) (pivot_pos : Z)
    (pivot : Qc) (j : nat) : M unit :=
  useful ← op_is_not_useless new i j pivot_pos;
  when ((1 <? verbose)%Z && useful)
    (rj ← Matrix_getitem new (Z.of_nat j);
     x ← Row_getitem rj pivot_pos;
     f ← num_truediv (- x) pivot;
     print (PrintAdd j i f));;
  target ← Matrix_getitem new (Z.of_nat j);
  ri ← Matrix_getitem new (Z.of_nat i);
  nri ← Row_neg ri;
  rj ← Matrix_getitem new (Z.of_nat j);
  x ← Row_getitem rj pivot_pos;
  t ← Row_mul nri x;
  t' ← Row_truediv t pivot;
  sum ← Row_add target t';
  Matrix_setitem new (Z.of_nat j) sum;;
  when ((1 <? verbose)%Z && useful) (print_matrix new).

(** Body of the loop over [i] in [rref]. *)
Definition rref_step (new : loc) (verbose : Z) (i : nat) : M unit :=
  ri ← Matrix_getitem new (Z.of_nat i);
  pivot_pos ← Row_pivot ri;
  if decide (pivot_pos = (-1)%Z) then mret ()
  else
    ri' ← Matrix_getitem new (Z.of_nat i);
    pivot ← Row_getitem ri' pivot_pos;
    for_ (range 0 i) (rref_eliminate new verbose i pivot_pos pivot);;
    when (verbose =? 1)%Z (print_matrix new).

Definition rref (self : loc) (verbose : Z) : M loc :=
  new ← ref self verbose;
  n ← Matrix_len new;
  for_ (range 1 n) (rref_step new verbose);;
  mret new.

(** ** Reading a matrix back from the store *)

(** The entries of the matrix object at [m], row by row. *)
Definition contents (w : world) (m : loc) : option (list (list Qc)) :=
  o ← w_mats w !! m; mapM (λ r, w_rows w !! r) (m_rows o).

(** * The module on [int] and [float] entries

    [Number] also admits Python's [int] and [float].  On such entries the
    code is the same but its arithmetic is not exact: [1 / x] is a binary64
    [float] even when [x] is an [int], so [Row.__truediv__] multiplies by a
    rounded reciprocal; an [int] too large for a [float] raises
    [OverflowError] when it meets one; and [num_to_string] refuses a [float]
    that is not finite.  [Rounded] embeds the classes and the three
    algorithms once more, method by method as above, over numbers that are
    an [int] or a [float].  Exceptions, results, object references and the
    list operations are shared with the exact embedding; the store and the
    monad are the same with [number] in the place of [Qc].  The embedding is
    executable and is used to run the algorithms on concrete matrices. *)
Module Rounded.
Import PrimFloat SpecFloat FloatOps.

(** ** Numbers *)

(** A Python [int] (unbounded) or a [float] (IEEE 754 binary64: the
    primitive floats of the kernel, with round-to-nearest-even). *)
Inductive number : Type :=
  | Int (z : Z)
  | Float (f : float).

#[local] Instance number_inhabited : Inhabited number := populate (Int 0).

#[local] Instance result_ret : MRet result := λ A a, Ok a.
#[local] Instance result_bind : MBind result := λ A B f r,
  match r with
  | Ok a => f a
  | Err e => Err e
  end.

(** [f x for x in l], evaluated from left to right up to the first
    exception. *)
Fixpoint map_result {A B} (f : A → result B) (l : list A) : result (list B) :=
  match l with
  | [] => Ok []
  | x :: l' => y ← f x; ys ← map_result f l'; mret (y :: ys)
  end.

(** [float(z)] for an [int]: the nearest [float], ties to even, and
    [OverflowError] when that is beyond the largest one. *)
Definition float_of_int (z : Z) : result float :=
  let f := SF2Prim (binary_normalize prec emax z 0 false) in
  if is_infinity f then Err OverflowError else Ok f.

(** The conversion Python applies to an operand of mixed arithmetic. *)
Definition to_float (x : number) : result float :=
  match x with
  | Int z => float_of_int z
  | Float f => Ok f
  end.

(** The integer [z], exactly, as an operand of the reference implementation
    of the floating-point operations (a sign, a mantissa of any size and an
    exponent). *)
Definition SF_of_Z (z : Z) : spec_float :=
  match z with
  | Z0 => S754_zero false
  | Zpos p => S754_finite false p 0
  | Zneg p => S754_finite true p 0
  end.

(** [a / b] on two [int]s: the exact quotient rounded once to the nearest
    [float]; [OverflowError] when that is beyond the largest one. *)
Definition int_truediv (a b : Z) : result float :=
  if decide (b = 0%Z) then Err ZeroDivisionError
  else
    let q := SF2Prim (SFdiv prec emax (SF_of_Z a) (SF_of_Z b)) in
    if is_infinity q then Err OverflowError else Ok q.

(** [-x] *)
Definition n_neg (x : number) : number :=
  match x with
  | Int z => Int (- z)
  | Float f => Float (- f)%float
  end.

(** [x + y]: exact on two [int]s, otherwise both operands are converted to
    [float], the left one first. *)
Definition n_add (x y : number) : result number :=
  match x, y with
  | Int a, Int b => Ok (Int (a + b))
  | _, _ => f ← to_float x; g ← to_float y; mret (Float (f + g)%float)
  end.

(** [x * y] *)
Definition n_mul (x y : number) : result number :=
  match x, y with
  | Int a, Int b => Ok (Int (a * b))
  | _, _ => f ← to_float x; g ← to_float y; mret (Float (f * g)%float)
  end.

(** [x / y]: true division, always a [float]; the operands are converted
    before the divisor is tested. *)
Definition n_truediv (x y : number) : result number :=
  match x, y with
  | Int a, Int b => q ← int_truediv a b; mret (Float q)
  | _, _ =>
      f ← to_float x; g ← to_float y;
      if (g =? 0)%float then Err ZeroDivisionError else Ok (Float (f / g)%float)
  end.

(** [f == k] for a [float] and an [int]: Python compares the exact
    values. *)
Definition float_eq_int (f : float) (k : Z) : bool :=
  match Prim2SF f with
  | S754_zero _ => bool_decide (k = 0%Z)
  | S754_finite s m e =>
      let v := if s then Z.neg m else Z.pos m in
      if (0 <=? e)%Z then bool_decide ((v * 2 ^ e)%Z = k)
      else bool_decide (v = (k * 2 ^ (- e))%Z)
  | _ => false
  end.

(** [x == y] *)
Definition n_eqb (x y : number) : bool :=
  match x, y with
  | Int a, Int b => bool_decide (a = b)
  | Int a, Float g => float_eq_int g a
  | Float f, Int b => float_eq_int f b
  | Float f, Float g => (f =? g)%float
  end.

(** [num_to_string(n)], that is [str(Fraction(n).limit_denominator())]:
    [Fraction] raises [ValueError] on a NaN and [OverflowError] on an
    infinity.  The text is not modelled; the number stands for it. *)
Definition num_to_string (n : number) : result number :=
  match n with
  | Int _ => Ok n
  | Float f =>
      if is_nan f then Err NanToRatio
      else if is_infinity f then Err OverflowError
      else Ok n
  end.

(** ** The object store *)

Inductive event : Type :=
  | PrintStr (s : string)
  | PrintMatrix (entries : list (list number))
  | PrintSwap (i k : nat)
  | PrintScale (i : nat) (factor : number)
  | PrintAdd (j i : nat) (factor : number).

Record world : Type := World {
  w_rows : list (list number);
  w_mats : list matrix_obj;
  w_out : list event
}.

Definition empty_world : world := World [] [] [].

(** ** The monad *)

Definition M (A : Type) : Type := world → result A * world.

#[local] Instance M_ret : MRet M := λ A a w, (Ok a, w).
#[local] Instance M_bind : MBind M := λ A B f c w,
  match c w with
  | (Ok a, w') => f a w'
  | (Err e, w') => (Err e, w')
  end.

Definition raise {A} (e : exn) : M A := λ w, (Err e, w).
Definition lift {A} (r : result A) : M A := λ w, (r, w).
Definition when (b : bool) (c : M unit) : M unit := if b then c else mret ().

Fixpoint for_ {A} (l : list A) (body : A → M unit) : M unit :=
  match l with
  | [] => mret ()
  | x :: l' => body x ;; for_ l' body
  end.

Fixpoint foldM {A S} (body : S → A → M S) (s : S) (l : list A) : M S :=
  match l with
  | [] => mret s
  | x :: l' => s' ← body s x; foldM body s' l'
  end.

Fixpoint traverse {A B} (f : A → M B) (l : list A) : M (list B) :=
  match l with
  | [] => mret []
  | x :: l' => y ← f x; ys ← traverse f l'; mret (y :: ys)
  end.

Definition alloc_row (nums : list number) : M loc := λ w,
  (Ok (length (w_rows w)), World (w_rows w ++ [nums]) (w_mats w) (w_out w)).

Definition read_row (r : loc) : M (list number) := λ w,
  (from_option Ok (Err BadReference) (w_rows w !! r), w).

Definition write_row (r : loc) (nums : list number) : M unit := λ w,
  if decide (r < length (w_rows w))%nat
  then (Ok (), World (<[r := nums]> (w_rows w)) (w_mats w) (w_out w))
  else (Err BadReference, w).

Definition alloc_matrix (o : matrix_obj) : M loc := λ w,
  (Ok (length (w_mats w)), World (w_rows w) (w_mats w ++ [o]) (w_out w)).

Definition read_matrix (m : loc) : M matrix_obj := λ w,
  (from_option Ok (Err BadReference) (w_mats w !! m), w).

Definition write_matrix (m : loc) (o : matrix_obj) : M unit := λ w,
  if decide (m < length (w_mats w))%nat
  then (Ok (), World (w_rows w) (<[m := o]> (w_mats w)) (w_out w))
  else (Err BadReference, w).

Definition print (e : event) : M unit := λ w,
  (Ok (), World (w_rows w) (w_mats w) (w_out w ++ [e])).

(** ** class Row *)

(** [Row(x)] for a generator [x]: the numbers are computed from left to
    right, and an exception among them leaves no object behind. *)
Definition Row_init (x : list number) : M loc := alloc_row x.

Definition Row_len (self : loc) : M nat :=
  nums ← read_row self; mret (length nums).

Definition Row_getitem (self : loc) (item : Z) : M number :=
  nums ← read_row self; lift (list_getitem nums item).

Definition Row_iter (self : loc) : M (list number) := read_row self.

Definition Row_neg (self : loc) : M loc :=
  nums ← read_row self; Row_init (n_neg <$> nums).

Definition Row_add (self other : loc) : M loc :=
  len_other ← Row_len other;
  len_self ← Row_len self;
  if decide (len_other ≠ len_self) then raise (LengthMismatch len_self len_other)
  else
    xs ← read_row self;
    ys ← read_row other;
    sums ← lift (map_result (λ xy, n_add xy.1 xy.2) (zip xs ys));
    Row_init sums.

Definition Row_sub (self other : loc) : M loc :=
  n ← Row_neg other; Row_add self n.

Definition Row_mul (self : loc) (other : number) : M loc :=
  nums ← read_row self;
  products ← lift (map_result (λ x, n_mul x other) nums);
  Row_init products.

(** [self * (1 / other)] *)
Definition Row_truediv (self : loc) (other : number) : M loc :=
  k ← lift (n_truediv (Int 1) other); Row_mul self k.

Definition Row_copy (self : loc) : M loc :=
  nums ← read_row self; Row_init nums.

Definition Row_deepcopy (self : loc) : M loc :=
  nums ← read_row self; Row_init nums.

Definition Row_setitem (self : loc) (key : Z) (value : number) : M unit :=
  nums ← read_row self;
  nums' ← lift (list_setitem nums key value);
  write_row self nums'.

Fixpoint Row_pivot_loop (self : loc) (idx : list nat) : M Z :=
  match idx with
  | [] => mret (-1)%Z
  | i :: idx' =>
      x ← Row_getitem self (Z.of_nat i);
      if negb (n_eqb x (Int 0)) then mret (Z.of_nat i) else Row_pivot_loop self idx'
  end.

Definition Row_pivot (self : loc) : M Z :=
  n ← Row_len self; Row_pivot_loop self (range 0 n).

Definition Row_is_zero (self : loc) : M bool :=
  nums ← read_row self; mret (forallb (λ x, n_eqb x (Int 0)) nums).

(** ** class Matrix *)

Definition Matrix_init {X} (iter : X → M (list number)) (x : list X) : M loc :=
  rows ← traverse (λ z, nums ← iter z; Row_init nums) x;
  if decide (length rows = 0%nat) then raise EmptyMatrix
  else
    lens ← traverse Row_len rows;
    let row_lengths : gset nat := list_to_set lens in
    if decide (1 < size row_lengths)%nat
    then raise (RaggedRows (merge_sort Nat.le (elements row_lengths)))
    else
      col_len ← lift (match elements row_lengths with
                      | c :: _ => Ok c
                      | [] => Err KeyError
                      end);
      alloc_matrix (MatrixObj rows col_len).

Definition Matrix_new (x : list (list number)) : M loc := Matrix_init mret x.

Definition Matrix_len (self : loc) : M nat :=
  o ← read_matrix self; mret (length (m_rows o)).

Definition Matrix_getitem (self : loc) (item : Z) : M loc :=
  o ← read_matrix self; lift (list_getitem (m_rows o) item).

Definition Matrix_getslice (self : loc) (lo hi : nat) : M (list loc) :=
  o ← read_matrix self; mret (list_slice (m_rows o) lo hi).

Definition Matrix_setitem (self : loc) (key : Z) (value : loc) : M unit :=
  o ← read_matrix self;
  rows' ← lift (list_setitem (m_rows o) key value);
  write_matrix self (MatrixObj rows' (m_col_len o)).

Definition Matrix_dim (self : loc) : M (nat * nat) :=
  n ← Matrix_len self;
  r0 ← Matrix_getitem self 0;
  c ← Row_len r0;
  mret (n, c).

Definition Matrix_iter (self : loc) : M (list loc) :=
  o ← read_matrix self; mret (m_rows o).

(** [str(self)]: the first [max] renders every entry in turn, so it raises
    at the first entry that [num_to_string] refuses, and on a matrix without
    entries it is [max] that raises. *)
Definition Matrix_str (self : loc) : M (list (list number)) :=
  rows ← Matrix_iter self;
  entries ← traverse Row_iter rows;
  lift (map_result num_to_string (concat entries));;
  if decide (length (concat entries) = 0%nat) then raise EmptySequence
  else mret entries.

Definition print_matrix (self : loc) : M unit :=
  s ← Matrix_str self; print (PrintMatrix s).

Definition Matrix_copy (self : loc) : M loc :=
  rows ← Matrix_iter self; Matrix_init Row_iter rows.

Definition Matrix_deepcopy (self : loc) : M loc :=
  rows ← Matrix_iter self; Matrix_init Row_iter rows.

Definition Matrix_swap_rows (self : loc) (i j : Z) : M unit :=
  rj ← Matrix_getitem self j;
  ri ← Matrix_getitem self i;
  Matrix_setitem self i rj;;
  Matrix_setitem self j ri.

Definition Matrix_col (self : loc) (i : Z) : M (list number) :=
  n ← Matrix_len self;
  traverse (λ j : nat, r ← Matrix_getitem self (Z.of_nat j); Row_getitem r i) (range 0 n).

(** *** det *)

Fixpoint det_scan (new : loc) (i : nat) (ks : list nat) : M (option nat) :=
  match ks with
  | [] => mret None
  | k :: ks' =>
      r ← Matrix_getitem new (Z.of_nat k);
      x ← Row_getitem r (Z.of_nat i);
      if negb (n_eqb x (Int 0)) then mret (Some k) else det_scan new i ks'
  end.

Definition op_is_not_useless (new : loc) (i j : nat) (c : Z) : M bool :=
  rj ← Matrix_getitem new (Z.of_nat j);
  x ← Row_getitem rj c;
  if negb (n_eqb x (Int 0))
  then ri ← Matrix_getitem new (Z.of_nat i); z ← Row_is_zero ri; mret (negb z)
  else mret false.

Definition det_eliminate (new : loc) (verbose : Z) (i : nat) (pivot : number)
    (j : nat) : M unit :=
  useful ← op_is_not_useless new i j (Z.of_nat i);
  when ((1 <? verbose)%Z && useful)
    (rj ← Matrix_getitem new (Z.of_nat j);
     x ← Row_getitem rj (Z.of_nat i);
     q ← lift (n_truediv (n_neg x) pivot);
     f ← lift (num_to_string q);
     print (PrintAdd j i f));;
  target ← Matrix_getitem new (Z.of_nat j);
  ri ← Matrix_getitem new (Z.of_nat i);
  nri ← Row_neg ri;
  rj ← Matrix_getitem new (Z.of_nat j);
  x ← Row_getitem rj (Z.of_nat i);
  t ← Row_mul nri x;
  t' ← Row_truediv t pivot;
  sum ← Row_add target t';
  Matrix_setitem new (Z.of_nat j) sum;;
  when ((1 <? verbose)%Z && useful) (print_matrix new).

Definition det_step (new : loc) (verbose : Z) (neg : Z) (i : nat) : M Z :=
  n ← Matrix_len new;
  found ← det_scan new i (range i n);
  match found with
  | None => mret neg
  | Some k =>
      neg' ← (if decide (k ≠ i)
              then Matrix_swap_rows new (Z.of_nat i) (Z.of_nat k);; mret (neg * -1)%Z
              else mret neg);
      when ((1 <? verbose)%Z && bool_decide (k ≠ i))
        (print (PrintSwap i k);; print_matrix new);;
      ri ← Matrix_getitem new (Z.of_nat i);
      pivot ← Row_getitem ri (Z.of_nat i);
      n' ← Matrix_len new;
      for_ (range (i + 1) n') (det_eliminate new verbose i pivot);;
      when (verbose =? 1)%Z (print_matrix new);;
      mret neg'
  end.

Definition det (self : loc) (verbose : Z) : M number :=
  new ← Matrix_deepcopy self;
  d ← Matrix_dim new;
  d' ← Matrix_dim new;
  if decide (d.2 ≠ d'.2)
  then dims ← Matrix_dim new; raise (NotSquare dims)
  else
    when (0 <? verbose)%Z (print (PrintStr "Initial: ");; print_matrix new);;
    n ← Matrix_len new;
    neg ← foldM (det_step new verbose) 1%Z (range 0 n);
    n' ← Matrix_len new;
    prod ← foldM (λ a c, r ← Matrix_getitem new (Z.of_nat c);
                          x ← Row_getitem r (Z.of_nat c);
                          lift (n_mul a x))
                 (Int 1) (range 0 n');
    lift (n_mul (Int neg) prod).

(** *** ref *)

Definition ref_eliminate (new : loc) (verbose : Z) (i : nat) (pivot_ind : Z)
    (j : nat) : M unit :=
  useful ← op_is_not_useless new i j pivot_ind;
  when ((1 <? verbose)%Z && useful)
    (rj ← Matrix_getitem new (Z.of_nat j);
     x ← Row_getitem rj pivot_ind;
     f ← lift (num_to_string (n_neg x));
     print (PrintAdd j i f));;
  target ← Matrix_getitem new (Z.of_nat j);
  ri ← Matrix_getitem new (Z.of_nat i);
  nri ← Row_neg ri;
  rj ← Matrix_getitem new (Z.of_nat j);
  x ← Row_getitem rj pivot_ind;
  t ← Row_mul nri x;
  sum ← Row_add target t;
  Matrix_setitem new (Z.of_nat j) sum;;
  when ((1 <? verbose)%Z && useful) (print_matrix new).

Definition ref_step (new : loc) (verbose : Z) (i : nat) : M unit :=
  n ← Matrix_len new;
  rows ← Matrix_getslice new i n;
  n' ← Matrix_len new;
  keyed ← traverse (λ '(row, ind), p ← Row_pivot row; mret (p, ind))
               (zip rows (range i n'));
  let pivots := filter (λ x : Z * nat, x.1 ≠ (-1)%Z) (merge_sort key_le keyed) in
  match pivots with
  | [] => mret ()
  | (pivot_ind, pivot_row) :: _ =>
      if decide (pivot_ind = (-1)%Z) then mret ()
      else
        r ← Matrix_getitem new (Z.of_nat pivot_row);
        pivot ← Row_getitem r pivot_ind;
        Matrix_swap_rows new (Z.of_nat i) (Z.of_nat pivot_row);;
        when ((1 <? verbose)%Z && bool_decide (pivot_row ≠ i))
          (print (PrintSwap i pivot_row);; print_matrix new);;
        target ← Matrix_getitem new (Z.of_nat i);
        q ← Row_truediv target pivot;
        Matrix_setitem new (Z.of_nat i) q;;
        when ((1 <? verbose)%Z && negb (n_eqb pivot (Int 1)))
          (k ← lift (n_truediv (Int 1) pivot);
           f ← lift (num_to_string k);
           print (PrintScale i f);; print_matrix new);;
        n'' ← Matrix_len new;
        for_ (range (i + 1) n'') (ref_eliminate new verbose i pivot_ind);;
        when (verbose =? 1)%Z (print_matrix new)
  end.

Definition ref (self : loc) (verbose : Z) : M loc :=
  new ← Matrix_deepcopy self;
  when (0 <? verbose)%Z (print (PrintStr "Initial: ");; print_matrix new);;
  n ← Matrix_len new;
  for_ (range 0 n) (ref_step new verbose);;
  mret new.

(** *** rref *)

Definition rref_eliminate (new : loc) (verbose : Z) (i : nat) (pivot_pos : Z)
    (pivot : number) (j : nat) : M unit :=
  useful ← op_is_not_useless new i j pivot_pos;
  when ((1 <? verbose)%Z && useful)
    (rj ← Matrix_getitem new (Z.of_nat j);
     x ← Row_getitem rj pivot_pos;
     q ← lift (n_truediv (n_neg x) pivot);
     f ← lift (num_to_string q);
     print (PrintAdd j i f));;
  target ← Matrix_getitem new (Z.of_nat j);
  ri ← Matrix_getitem new (Z.of_nat i);
  nri ← Row_neg ri;
  rj ← Matrix_getitem new (Z.of_nat j);
  x ← Row_getitem rj pivot_pos;
  t ← Row_mul nri x;
  t' ← Row_truediv t pivot;
  sum ← Row_add target t';
  Matrix_setitem new (Z.of_nat j) sum;;
  when ((1 <? verbose)%Z && useful) (print_matrix new).

Definition rref_step (new : loc) (verbose : Z) (i : nat) : M unit :=
  ri ← Matrix_getitem new (Z.of_nat i);
  pivot_pos ← Row_pivot ri;
  if decide (pivot_pos = (-1)%Z) then mret ()
  else
    ri' ← Matrix_getitem new (Z.of_nat i);
    pivot ← Row_getitem ri' pivot_pos;
    for_ (range 0 i) (rref_eliminate new verbose i pivot_pos pivot);;
    when (verbose =? 1)%Z (print_matrix new).

Definition rref (self : loc) (verbose : Z) : M loc :=
  new ← ref self verbose;
  n ← Matrix_len new;
  for_ (range 1 n) (rref_step new verbose);;
  mret new.

(** ** Reading a matrix back from the store *)

Definition contents (w : world) (m : loc) : option (list (list number)) :=
  o ← w_mats w !! m; mapM (λ r, w_rows w !! r) (m_rows o).

Definition store_of (x : list (list number)) : world := (Matrix_new x empty_world).2.

(** ** Rows and forms of a matrix

    As for the exact embedding, with Python's [==] on numbers: what
    [Row.pivot] and [Row.is_zero] return on a row that holds the numbers
    [xs], and the forms a matrix can be in. *)

Definition pivot (xs : list number) : Z :=
  match list_find (λ x, n_eqb x (Int 0) = false) xs with
  | Some (i, _) => Z.of_nat i
  | None => (-1)%Z
  end.

Definition is_zero (xs : list number) : bool :=
  forallb (λ x, n_eqb x (Int 0)) xs.

Definition entry (A : list (list number)) (i j : nat) : number := (A !!! i) !!! j.

Definition shape (n c : nat) (A : list (list number)) : Prop :=
  length A = n ∧ Forall (λ xs, length xs = c) A.

Definition valid (A : list (list number)) : Prop :=
  ∃ n c, shape (S n) c A.

Definition pivots_weakly_increasing (R : list (list number)) : Prop :=
  ∀ i j (pi pj : nat), (i < j < length R)%nat →
    pivot (R !!! i) = Z.of_nat pi → pivot (R !!! j) = Z.of_nat pj →
    (pi ≤ pj)%nat.

Definition zero_rows_at_bottom (R : list (list number)) : Prop :=
  ∀ i j, (i < length R)%nat → (j < length R)%nat →
    is_zero (R !!! i) = true → is_zero (R !!! j) = false → (j < i)%nat.

Definition leading_entries_one (R : list (list number)) : Prop :=
  ∀ i (p : nat), (i < length R)%nat →
    pivot (R !!! i) = Z.of_nat p → n_eqb (entry R i p) (Int 1) = true.

Definition row_echelon (R : list (list number)) : Prop :=
  pivots_weakly_increasing R ∧ zero_rows_at_bottom R ∧ leading_entries_one R.

Definition pivot_columns_clear (R : list (list number)) : Prop :=
  ∀ i k (p : nat), (i < length R)%nat → (k < length R)%nat → k ≠ i →
    pivot (R !!! i) = Z.of_nat p → n_eqb (entry R k p) (Int 0) = true.

(** [R == R'], entry for entry. *)
Definition same_entries (R R' : list (list number)) : bool :=
  bool_decide (length R = length R') &&
  forallb (λ rr, bool_decide (length rr.1 = length rr.2) &&
                 forallb (λ xy, n_eqb xy.1 xy.2) (zip rr.1 rr.2)) (zip R R').

(** ** Matrices used in examples *)

Definition A49 : list (list number) := [[Int 49; Int 1]].
Definition B49 : list (list number) := [[Int 49; Int 1]; [Int 1; Int 49]].
Definition D49 : list (list number) := [[Int 49; Int 1]; [Int 49; Int 1]].

End Rounded.

(** * Vocabulary

    The definitions used to state and prove the properties of the module:
    the functional view of rows, matrices and the three algorithms, the
    forms a matrix can be in, and the predicates on stores and on monadic
    code. *)

(** ** Rows and matrices as lists of numbers *)

(** What the [Row] methods compute on the numbers of a row. *)
Definition row_neg (xs : list Qc) : list Qc := Qcopp <$> xs.
Definition row_mul (xs : list Qc) (k : Qc) : list Qc := (λ x, x * k) <$> xs.
Definition row_add (xs ys : list Qc) : list Qc := zip_with Qcplus xs ys.

(** [pivot]: index of the first non-zero number, [-1] when there is none. *)
Definition pivot (xs : list Qc) : Z :=
  match list_find (λ x, x ≠ 0) xs with
  | Some (i, _) => Z.of_nat i
  | None => (-1)%Z
  end.

Definition is_zero (xs : list Qc) : bool :=
  forallb (λ x, bool_decide (x = 0)) xs.

(** The entry in row [i], column [j] (zero outside the matrix). *)
Definition entry (A : list (list Qc)) (i j : nat) : Qc := (A !!! i) !!! j.

(** [swap_rows]: the two assignments of the tuple assignment, in order. *)
Definition swap_rows (i j : nat) (A : list (list Qc)) : list (list Qc) :=
  <[j := A !!! i]> (<[i := A !!! j]> A).

(** The row [xj + (-xi) * t]. *)
Definition combine (t : Qc) (xi xj : list Qc) : list Qc :=
  row_add xj (row_mul (row_neg xi) t).

(** A matrix as the constructor accepts it: at least one row, and [c]
    numbers in every row. *)
Definition shape (n c : nat) (A : list (list Qc)) : Prop :=
  length A = n ∧ Forall (λ xs, length xs = c) A.

Definition valid (A : list (list Qc)) : Prop :=
  ∃ n c, shape (S n) c A.

(** The rows of [x] do not all have the same length. *)
Definition ragged (x : list (list Qc)) : Prop :=
  ∃ xs ys, xs ∈ x ∧ ys ∈ x ∧ length xs ≠ length ys.

(** The outcome of the two checks of [Matrix.__init__] on row data [B]:
    the exception raised, if any. *)
Definition init_check (B : list (list Qc)) : option exn :=
  if decide (length B = 0%nat) then Some EmptyMatrix
  else
    let row_lengths : gset nat := list_to_set (length <$> B) in
    if decide (1 < size row_lengths)%nat
    then Some (RaggedRows (merge_sort Nat.le (elements row_lengths)))
    else None.

(** ** The functional view of the algorithms *)

(** [new.__rows[j] += -new[i] * new[j][c]] *)
Definition eliminate (i c : nat) (A : list (list Qc)) (j : nat) : list (list Qc) :=
  <[j := row_add (A !!! j) (row_mul (row_neg (A !!! i)) (entry A j c))]> A.

(** [new.__rows[j] += -new[i] * new[j][c] / pivot] *)
Definition eliminate_div (i c : nat) (pivot : Qc) (A : list (list Qc)) (j : nat) :
    list (list Qc) :=
  <[j := row_add (A !!! j)
           (row_mul (row_mul (row_neg (A !!! i)) (entry A j c)) (1 / pivot))]> A.

(** The first [k] of [ks] with a non-zero entry in column [i]. *)
Definition first_nonzero (A : list (list Qc)) (i : nat) (ks : list nat) : option nat :=
  snd <$> list_find (λ k, entry A k i ≠ 0) ks.

(** One round of [det] on the working matrix and the sign. *)
Definition det_step_fun (st : list (list Qc) * Z) (i : nat) : list (list Qc) * Z :=
  match first_nonzero st.1 i (range i (length st.1)) with
  | None => st
  | Some k =>
      let A1 := if decide (k ≠ i) then swap_rows i k st.1 else st.1 in
      let neg1 := if decide (k ≠ i) then (st.2 * -1)%Z else st.2 in
      (foldl (eliminate_div i i (entry A1 i i)) A1 (range (i + 1) (length A1)), neg1)
  end.

Definition det_elim (A : list (list Qc)) : list (list Qc) * Z :=
  foldl det_step_fun (A, 1%Z) (range 0 (length A)).

Definition diag_product (U : list (list Qc)) : Qc :=
  foldl (λ a c, a * entry U c c) 1 (range 0 (length U)).

Definition det_fun (A : list (list Qc)) : Qc :=
  num (det_elim A).2 * diag_product (det_elim A).1.

(** The pivot [ref] selects among the rows from [i] on: least pivot column,
    then least row index; [None] when all of them are zero rows. *)
Definition keyed_pivots (A : list (list Qc)) (i : nat) : list (Z * nat) :=
  zip_with (λ row ind, (pivot row, ind))
           (list_slice A i (length A)) (range i (length A)).

Definition choose_pivot (A : list (list Qc)) (i : nat) : option (Z * nat) :=
  head (filter (λ x : Z * nat, x.1 ≠ (-1)%Z) (merge_sort key_le (keyed_pivots A i))).

(** One round of [ref]. *)
Definition ref_step_fun (A : list (list Qc)) (i : nat) : list (list Qc) :=
  match choose_pivot A i with
  | None => A
  | Some (pivot_ind, pivot_row) =>
      let c := Z.to_nat pivot_ind in
      let A1 := swap_rows i pivot_row A in
      let A2 := <[i := row_mul (A1 !!! i) (1 / entry A pivot_row c)]> A1 in
      foldl (eliminate i c) A2 (range (i + 1) (length A2))
  end.

Definition ref_fun (A : list (list Qc)) : list (list Qc) :=
  foldl ref_step_fun A (range 0 (length A)).

(** One round of the upward pass of [rref]. *)
Definition rref_step_fun (A : list (list Qc)) (i : nat) : list (list Qc) :=
  let p := pivot (A !!! i) in
  if decide (p = (-1)%Z) then A
  else foldl (eliminate_div i (Z.to_nat p) (entry A i (Z.to_nat p))) A (range 0 i).

Definition rref_fun (A : list (list Qc)) : list (list Qc) :=
  foldl rref_step_fun (ref_fun A) (range 1 (length (ref_fun A))).

(** ** Forms of a matrix *)

(** Pivot columns do not decrease down the non-zero rows. *)
Definition pivots_weakly_increasing (R : list (list Qc)) : Prop :=
  ∀ i j (pi pj : nat), (i < j < length R)%nat →
    pivot (R !!! i) = Z.of_nat pi → pivot (R !!! j) = Z.of_nat pj →
    (pi ≤ pj)%nat.

(** Every all-zero row is below every non-zero row. *)
Definition zero_rows_at_bottom (R : list (list Qc)) : Prop :=
  ∀ i j, (i < length R)%nat → (j < length R)%nat →
    is_zero (R !!! i) = true → is_zero (R !!! j) = false → (j < i)%nat.

(** The leading entry of every non-zero row is [1]. *)
Definition leading_entries_one (R : list (list Qc)) : Prop :=
  ∀ i (p : nat), (i < length R)%nat →
    pivot (R !!! i) = Z.of_nat p → entry R i p = 1.

Definition row_echelon (R : list (list Qc)) : Prop :=
  pivots_weakly_increasing R ∧ zero_rows_at_bottom R ∧ leading_entries_one R.

(** A pivot column is zero in every row but its own. *)
Definition pivot_columns_clear (R : list (list Qc)) : Prop :=
  ∀ i k (p : nat), (i < length R)%nat → (k < length R)%nat → k ≠ i →
    pivot (R !!! i) = Z.of_nat p → entry R k p = 0.

(** The first [q] numbers of the row are zero. *)
Definition lz (q : nat) (xs : list Qc) : Prop :=
  ∀ col, (col < q)%nat → xs !!! col = 0.

(** Rows [0 .. m-1] are final: a non-zero row has leading entry [1] and
    every later row is zero up to and including that column; below a zero
    row all rows are zero. *)
Definition echelon_upto (n m : nat) (R : list (list Qc)) : Prop :=
  ∀ i, (i < m)%nat → (i < n)%nat →
    (∀ p : nat, pivot (R !!! i) = Z.of_nat p →
       entry R i p = 1 ∧ ∀ j, (i < j < n)%nat → lz (S p) (R !!! j)) ∧
    (pivot (R !!! i) = (-1)%Z →
       ∀ j, (i < j < n)%nat → pivot (R !!! j) = (-1)%Z).

(** The pivot columns of rows [0 .. m-1] are zero above their row. *)
Definition cleared_upto (n m : nat) (R : list (list Qc)) : Prop :=
  ∀ i, (i < m)%nat → (i < n)%nat →
    ∀ p : nat, pivot (R !!! i) = Z.of_nat p →
      ∀ j, (j < i)%nat → entry R j p = 0.

(** The combination [Σ_k cs_k * A_k] of the rows of [A], at column [col]. *)
Definition lin (cs : list Qc) (A : list (list Qc)) (col : nat) : Qc :=
  foldr Qcplus 0 (zip_with (λ ck row, ck * row !!! col) cs A).

(** The rows of [A] are linearly dependent. *)
Definition dependent (A : list (list Qc)) : Prop :=
  ∃ cs, length cs = length A ∧
        (∃ k, (k < length cs)%nat ∧ cs !!! k ≠ 0) ∧
        ∀ col, lin cs A col = 0.

(** Columns [0 .. m-1] are zero below the diagonal. *)
Definition lower_zero_upto (n m : nat) (U : list (list Qc)) : Prop :=
  ∀ i j, (i < m)%nat → (i < j < n)%nat → entry U j i = 0.

(** ** Stores and monadic code *)

(** [wp c w Q]: running [c] from [w] ends in a result and a store that
    satisfy [Q].  Every computation of [M] is total, so this is total
    correctness. *)
Definition wp {A} (c : M A) (w : world) (Q : result A → world → Prop) : Prop :=
  Q (c w).1 (c w).2.

(** Postconditions for normal return and for a given exception. *)
Definition returns {A} (Q : A → world → Prop) : result A → world → Prop :=
  λ r w, match r with Ok a => Q a w | Err _ => False end.

Definition raises {A} (e : exn) (Q : world → Prop) : result A → world → Prop :=
  λ r w, r = Err e ∧ Q w.

(** The [Row] object at [r] holds the numbers [xs]. *)
Definition row_at (w : world) (r : loc) (xs : list Qc) : Prop :=
  w_rows w !! r = Some xs.

(** [w'] extends [w]: every [Row] object of [w] is in [w'] with the same
    numbers, the [Matrix] objects are the same, output was only appended. *)
Record grows (w w' : world) : Prop := {
  grows_rows : w_rows w `prefix_of` w_rows w';
  grows_mats : w_mats w' = w_mats w;
  grows_out : w_out w `prefix_of` w_out w'
}.

(** As [grows], except that the [Matrix] object at [new] may have been
    assigned to. *)
Record ext (new : loc) (w w' : world) : Prop := {
  ext_rows : w_rows w `prefix_of` w_rows w';
  ext_mats : ∀ m, m ≠ new → w_mats w' !! m = w_mats w !! m;
  ext_mats_len : length (w_mats w') = length (w_mats w);
  ext_out : w_out w `prefix_of` w_out w'
}.

(** [Allocs c]: whatever its outcome, [c] only creates [Row] objects and
    prints.  [Frames new c]: it may also assign to the [Matrix] object at
    [new].  Both hold without any precondition and are established by
    following the structure of the code. *)
Class Allocs {A} (c : M A) : Prop :=
  allocs : ∀ w, grows w (c w).2.

Class Frames {A} (new : loc) (c : M A) : Prop :=
  frames : ∀ w, ext new w (c w).2.

Global Hint Mode Allocs + ! : typeclass_instances.
Global Hint Mode Frames + + ! : typeclass_instances.

(** [Silent c]: whatever its outcome, [c] prints nothing. *)
Class Silent {A} (c : M A) : Prop :=
  silent : ∀ w, w_out (c w).2 = w_out w.
Global Hint Mode Silent + ! : typeclass_instances.

(** Every object of [w] is in [w'], in the same state. *)
Record preserved (w w' : world) : Prop := {
  preserved_rows : w_rows w `prefix_of` w_rows w';
  preserved_mats : ∀ m o, w_mats w !! m = Some o → w_mats w' !! m = Some o
}.

(** [c] builds a [Matrix] object that is new to the store, and may assign
    to that object only. *)
Definition creates (c : M loc) : Prop :=
  ∀ w r w', c w = (r, w') →
    preserved w w' ∧
    ∀ new, r = Ok new → new = length (w_mats w) ∧ (new < length (w_mats w'))%nat.

(** The store [w] with one more [Row] object, holding [nums]. *)
Definition with_row (w : world) (nums : list Qc) : world :=
  World (w_rows w ++ [nums]) (w_mats w) (w_out w).

(** ** Solutions of the homogeneous system *)

(** The product of a row with a column vector. *)
Definition dot (xs x : list Qc) : Qc := foldr Qcplus 0 (zip_with Qcmult xs x).

(** [x] solves the homogeneous system with matrix [A]: every row of [A]
    times [x] is zero. *)
Definition solves (A : list (list Qc)) (x : list Qc) : Prop :=
  ∀ i, (i < length A)%nat → dot (A !!! i) x = 0.

(** ** The determinant by cofactor expansion *)

(** The sum of [f k] over the indices [k] of [ks]. *)
Definition sum_over (ks : list nat) (f : nat → Qc) : Qc :=
  foldr (λ k s, f k + s) 0 ks.

(** [(-1)^r]. *)
Definition sign (r : nat) : Qc := if Nat.even r then 1 else -1.

(** The matrix without row [r] and without its first column. *)
Definition minor (r : nat) (A : list (list Qc)) : list (list Qc) :=
  tail <$> delete r A.

(** The determinant of an [n]×[n] matrix, by cofactor expansion along the
    first column. *)
Fixpoint laplace (n : nat) (A : list (list Qc)) : Qc :=
  match n with
  | 0%nat => 1
  | S m => sum_over (seq 0 (S m))
             (λ r, sign r * entry A r 0 * laplace m (minor r A))
  end.

(** ** Stores and matrices used in examples *)

Definition store_of (x : list (list Qc)) : world := (Matrix_new x empty_world).2.

Definition A22 : list (list Qc) := [[num 1; num 2]; [num 3; num 4]].
Definition A23 : list (list Qc) := [[num 1; num 2; num 3]; [num 4; num 5; num 6]].
Definition A32 : list (list Qc) := [[num 1; num 2]; [num 3; num 4]; [num 5; num 6]].
Definition P22 : list (list Qc) := [[num 0; num 1]; [num 1; num 0]].
Definition I22 : list (list Qc) := [[num 1; num 0]; [num 0; num 1]].
Definition Z22 : list (list Qc) := [[num 0; num 0]; [num 3; num 4]].
Definition D22 : list (list Qc) := [[num 1; num 2]; [num 1; num 2]].

(** * Reasoning about monadic code *)

Section wp_rules.
Context {A B : Type}.
Implicit Types (c : M A) (k : A → M B) (w : world).

Lemma wp_run c w Q : wp c w Q ↔ ∃ r w', c w = (r, w') ∧ Q r w'.
Proof.
  unfold wp. split.
  - intros H. exists (c w).1, (c w).2. split; [by destruct (c w)|done].
  - intros (r & w' & -> & H). done.
Qed.

Lemma wp_returns c w (Q : A → world → Prop) :
  wp c w (returns Q) ↔ ∃ a w', c w = (Ok a, w') ∧ Q a w'.
Proof.
  rewrite wp_run. split.
  - intros ([a|e] & w' & E & H); [eauto|done].
  - intros (a & w' & E & H). by exists (Ok a), w'.
Qed.

Lemma wp_mono c w (Q Q' : result A → world → Prop) :
  wp c w Q → (∀ r w', Q r w' → Q' r w') → wp c w Q'.
Proof. unfold wp. auto. Qed.

Lemma wp_bind c k w (Q : result B → world → Prop) :
  wp c w (λ r w', match r with
                  | Ok a => wp (k a) w' Q
                  | Err e => Q (Err e) w'
                  end) →
  wp (c ≫= k) w Q.
Proof.
  unfold wp, mbind, M_bind. by destruct (c w) as [[a|e] w'].
Qed.

(** The sequencing rule used throughout: the first command returns. *)
Lemma wp_step c k w (R : A → world → Prop) (Q : result B → world → Prop) :
  wp c w (returns R) →
  (∀ a w', R a w' → wp (k a) w' Q) →
  wp (c ≫= k) w Q.
Proof.
  intros Hc Hk. apply wp_bind. eapply wp_mono; [exact Hc|].
  intros [a|e] w'; simpl; [auto|done].
Qed.

(** The first command raises: so does the sequence. *)
Lemma wp_step_raises c k w e (R : world → Prop) (Q : result B → world → Prop) :
  wp c w (raises e R) →
  (∀ w', R w' → Q (Err e) w') →
  wp (c ≫= k) w Q.
Proof.
  intros Hc Hk. apply wp_bind. eapply wp_mono; [exact Hc|].
  intros r w' [-> HR]. auto.
Qed.

Lemma wp_ret (a : A) w (Q : result A → world → Prop) :
  Q (Ok a) w → wp (mret a) w Q.
Proof. done. Qed.

Lemma wp_raise e w (Q : result A → world → Prop) :
  Q (Err e) w → wp (raise e) w Q.
Proof. done. Qed.

Lemma wp_lift (r : result A) w (Q : result A → world → Prop) :
  Q r w → wp (lift r) w Q.
Proof. done. Qed.
End wp_rules.

Lemma wp_when (b : bool) (c : M unit) w (Q : result unit → world → Prop) :
  (b = true → wp c w Q) → (b = false → Q (Ok ()) w) → wp (when b c) w Q.
Proof. intros Ht Hf. destruct b; [by apply Ht|by apply Hf]. Qed.

(** ** Relations between stores *)

Global Instance grows_refl : Reflexive grows.
Proof. intros w. by split. Qed.

Global Instance grows_trans : Transitive grows.
Proof.
  intros w1 w2 w3 [] []. split; [by etrans| congruence | by etrans].
Qed.

Global Instance ext_refl new : Reflexive (ext new).
Proof. intros w. by split. Qed.

Global Instance ext_trans new : Transitive (ext new).
Proof.
  intros w1 w2 w3 [] []. split; [by etrans| | congruence | by etrans].
  intros m Hm. rewrite ext_mats1, ext_mats0; done.
Qed.

Lemma grows_ext new w w' : grows w w' → ext new w w'.
Proof. intros []. split; auto; intros; congruence. Qed.

Lemma row_at_prefix (l l' : list (list Qc)) r xs :
  l `prefix_of` l' → l !! r = Some xs → l' !! r = Some xs.
Proof. intros [k ->] H. by apply lookup_app_l_Some. Qed.

Lemma row_at_grows w w' r xs : grows w w' → row_at w r xs → row_at w' r xs.
Proof. intros []. by apply row_at_prefix. Qed.

Lemma row_at_ext new w w' r xs : ext new w w' → row_at w r xs → row_at w' r xs.
Proof. intros []. by apply row_at_prefix. Qed.

Lemma contents_Some w m A :
  contents w m = Some A ↔
  ∃ o, w_mats w !! m = Some o ∧ Forall2 (row_at w) (m_rows o) A.
Proof.
  unfold contents. split.
  - intros H. destruct (w_mats w !! m) as [o|] eqn:E; [|done].
    simpl in H. exists o. split; [done|]. by apply mapM_Some in H.
  - intros (o & -> & H). simpl. by apply mapM_Some.
Qed.

Lemma contents_grows w w' m A :
  grows w w' → contents w m = Some A → contents w' m = Some A.
Proof.
  intros Hg. rewrite !contents_Some. intros (o & Ho & HA).
  exists o. split; [by rewrite (grows_mats _ _ Hg)|].
  eapply Forall2_impl; [exact HA|]. intros r xs. by apply row_at_grows.
Qed.

Lemma contents_ext new w w' m A :
  ext new w w' → m ≠ new → contents w m = Some A → contents w' m = Some A.
Proof.
  intros He Hm. rewrite !contents_Some. intros (o & Ho & HA).
  exists o. split; [by rewrite (ext_mats _ _ _ He)|].
  eapply Forall2_impl; [exact HA|]. intros r xs. by apply (row_at_ext new).
Qed.

(** ** Frame properties, by the shape of the code *)

Global Instance ret_allocs {A} (a : A) : Allocs (mret a).
Proof. intros w. reflexivity. Qed.

Global Instance raise_allocs {A} e : Allocs (@raise A e).
Proof. intros w. reflexivity. Qed.

Global Instance lift_allocs {A} (r : result A) : Allocs (lift r).
Proof. intros w. reflexivity. Qed.

Global Instance bind_allocs {A B} (c : M A) (k : A → M B) :
  Allocs c → (∀ a, Allocs (k a)) → Allocs (c ≫= k).
Proof.
  intros Hc Hk w. specialize (Hc w). unfold mbind, M_bind.
  destruct (c w) as [[a|e] w']; simpl in *; [|done].
  etrans; [exact Hc|apply Hk].
Qed.

Global Instance bind_frames {A B} new (c : M A) (k : A → M B) :
  Frames new c → (∀ a, Frames new (k a)) → Frames new (c ≫= k).
Proof.
  intros Hc Hk w. specialize (Hc w). unfold mbind, M_bind.
  destruct (c w) as [[a|e] w']; simpl in *; [|done].
  etrans; [exact Hc|apply Hk].
Qed.

Global Instance if_dec_allocs {A P} (d : {P} + {¬ P}) (c1 c2 : M A) :
  Allocs c1 → Allocs c2 → Allocs (if d then c1 else c2).
Proof. by destruct d. Qed.

Global Instance if_dec_frames {A} new {P} (d : {P} + {¬ P}) (c1 c2 : M A) :
  Frames new c1 → Frames new c2 → Frames new (if d then c1 else c2).
Proof. by destruct d. Qed.

Global Instance traverse_allocs {A B} (f : A → M B) l :
  (∀ x, Allocs (f x)) → Allocs (traverse f l).
Proof. intros Hf. induction l; simpl; apply _. Qed.

Global Instance allocs_frames {A} new (c : M A) : Allocs c → Frames new c | 100.
Proof. intros Hc w. apply grows_ext, Hc. Qed.

Global Instance foldM_frames {A S} new (f : S → A → M S) s l :
  (∀ s x, Frames new (f s x)) → Frames new (foldM f s l).
Proof. intros Hf. revert s. induction l; intros s; simpl; apply _. Qed.

Global Instance when_frames new b c : Frames new c → Frames new (when b c).
Proof. destruct b; simpl; [done|]. intros _. apply _. Qed.

Global Instance when_allocs b c : Allocs c → Allocs (when b c).
Proof. destruct b; simpl; [done|]. intros _. apply _. Qed.

Global Instance for_frames {A} new (l : list A) body :
  (∀ x, Frames new (body x)) → Frames new (for_ l body).
Proof. intros Hb. induction l; simpl; apply _. Qed.

Global Instance alloc_row_allocs nums : Allocs (alloc_row nums).
Proof. intros w. split; simpl; [by apply prefix_app_r|done..]. Qed.

Global Instance read_row_allocs r : Allocs (read_row r).
Proof. intros w. reflexivity. Qed.

Global Instance read_matrix_allocs m : Allocs (read_matrix m).
Proof. intros w. reflexivity. Qed.

Global Instance print_allocs e : Allocs (print e).
Proof. intros w. split; simpl; [done..|by apply prefix_app_r]. Qed.

Global Instance write_matrix_frames new o : Frames new (write_matrix new o).
Proof.
  intros w. unfold write_matrix. case_decide; [|reflexivity].
  split; simpl; [done| |by rewrite length_insert|done].
  intros m Hm. by rewrite list_lookup_insert_ne.
Qed.

Global Instance num_truediv_allocs a b : Allocs (num_truediv a b).
Proof. unfold num_truediv. apply _. Qed.

(** Sequencing rules that hand the frame fact to the continuation. *)
Lemma wp_step_grows {A B} (c : M A) (k : A → M B) w
    (R : A → world → Prop) (Q : result B → world → Prop) `{!Allocs c} :
  wp c w (returns R) →
  (∀ a w', grows w w' → R a w' → wp (k a) w' Q) →
  wp (c ≫= k) w Q.
Proof.
  intros Hc Hk. eapply wp_step; [|exact (λ a w' H, Hk a w' (proj1 H) (proj2 H))].
  pose proof (allocs (c:=c) w) as Hg. unfold wp, returns in *.
  destruct (c w) as [[a|e] w']; simpl in *; done.
Qed.

Lemma wp_step_ext {A B} new (c : M A) (k : A → M B) w
    (R : A → world → Prop) (Q : result B → world → Prop) `{!Frames new c} :
  wp c w (returns R) →
  (∀ a w', ext new w w' → R a w' → wp (k a) w' Q) →
  wp (c ≫= k) w Q.
Proof.
  intros Hc Hk. eapply wp_step; [|exact (λ a w' H, Hk a w' (proj1 H) (proj2 H))].
  pose proof (frames (new:=new) (c:=c) w) as Hg. unfold wp, returns in *.
  destruct (c w) as [[a|e] w']; simpl in *; done.
Qed.

Lemma wp_grows {A} (c : M A) w (R : A → world → Prop) `{!Allocs c} :
  wp c w (returns R) → wp c w (returns (λ a w', grows w w' ∧ R a w')).
Proof.
  intros Hc. pose proof (allocs (c:=c) w) as Hg. unfold wp, returns in *.
  destruct (c w) as [[a|e] w']; simpl in *; done.
Qed.

(** A command that leaves the store alone and whose result is known. *)
Lemma wp_read {A B} (c : M A) (k : A → M B) w a (Q : result B → world → Prop) :
  c w = (Ok a, w) → wp (k a) w Q → wp (c ≫= k) w Q.
Proof. intros E H. apply wp_bind. unfold wp at 1. by rewrite E. Qed.

Lemma wp_read_raise {A B} (c : M A) (k : A → M B) w e
    (Q : result B → world → Prop) :
  c w = (Err e, w) → Q (Err e) w → wp (c ≫= k) w Q.
Proof. intros E H. apply wp_bind. unfold wp at 1. by rewrite E. Qed.

Lemma run_bind {A B} (c : M A) (k : A → M B) w a w' :
  c w = (Ok a, w') → (c ≫= k) w = k a w'.
Proof. intros E. unfold mbind, M_bind. by rewrite E. Qed.

Lemma run_bind_err {A B} (c : M A) (k : A → M B) w e w' :
  c w = (Err e, w') → (c ≫= k) w = (Err e, w').
Proof. intros E. unfold mbind, M_bind. by rewrite E. Qed.

(** ** Python indexing at indices that come from [range] *)

Lemma list_getitem_nat {A} (l : list A) (i : nat) :
  list_getitem l (Z.of_nat i) = from_option Ok (Err IndexError) (l !! i).
Proof.
  unfold list_getitem.
  destruct (Z.ltb_spec (Z.of_nat i) 0) as [?|_]; [lia|].
  rewrite Nat2Z.id.
  destruct (Z.ltb_spec (Z.of_nat i) 0) as [?|_]; [lia|]. simpl.
  destruct (Z.leb_spec (Z.of_nat (length l)) (Z.of_nat i)) as [H|H]; [|done].
  rewrite lookup_ge_None_2; [done|lia].
Qed.

Lemma list_getitem_lookup {A} (l : list A) (i : nat) x :
  l !! i = Some x → list_getitem l (Z.of_nat i) = Ok x.
Proof. intros H. by rewrite list_getitem_nat, H. Qed.

Lemma list_getitem_ge {A} (l : list A) (i : nat) :
  (length l ≤ i)%nat → list_getitem l (Z.of_nat i) = Err IndexError.
Proof. intros H. by rewrite list_getitem_nat, lookup_ge_None_2. Qed.

Lemma list_setitem_nat {A} (l : list A) (i : nat) x :
  (i < length l)%nat → list_setitem l (Z.of_nat i) x = Ok (<[i := x]> l).
Proof.
  intros H. unfold list_setitem.
  destruct (Z.ltb_spec (Z.of_nat i) 0) as [?|_]; [lia|].
  rewrite Nat2Z.id.
  destruct (Z.ltb_spec (Z.of_nat i) 0) as [?|_]; [lia|]. simpl.
  destruct (Z.leb_spec (Z.of_nat (length l)) (Z.of_nat i)) as [?|_]; [lia|done].
Qed.

(** ** class Row: frame properties and specifications *)

Global Instance Row_init_allocs x : Allocs (Row_init x).
Proof. unfold Row_init. apply _. Qed.
Global Instance Row_len_allocs r : Allocs (Row_len r).
Proof. unfold Row_len. apply _. Qed.
Global Instance Row_getitem_allocs r i : Allocs (Row_getitem r i).
Proof. unfold Row_getitem. apply _. Qed.
Global Instance Row_iter_allocs r : Allocs (Row_iter r).
Proof. unfold Row_iter. apply _. Qed.
Global Instance Row_neg_allocs r : Allocs (Row_neg r).
Proof. unfold Row_neg. apply _. Qed.
Global Instance Row_add_allocs r r' : Allocs (Row_add r r').
Proof. unfold Row_add. apply _. Qed.
Global Instance Row_sub_allocs r r' : Allocs (Row_sub r r').
Proof. unfold Row_sub. apply _. Qed.
Global Instance Row_mul_allocs r k : Allocs (Row_mul r k).
Proof. unfold Row_mul. apply _. Qed.
Global Instance Row_truediv_allocs r k : Allocs (Row_truediv r k).
Proof. unfold Row_truediv. apply _. Qed.
Global Instance Row_is_zero_allocs r : Allocs (Row_is_zero r).
Proof. unfold Row_is_zero. apply _. Qed.
Global Instance Row_pivot_loop_allocs r idx : Allocs (Row_pivot_loop r idx).
Proof. induction idx; simpl; apply _. Qed.
Global Instance Row_pivot_allocs r : Allocs (Row_pivot r).
Proof. unfold Row_pivot. apply _. Qed.

Section row_specs.
Context (w : world) (r : loc) (xs : list Qc).
Hypothesis Hr : row_at w r xs.

Lemma read_row_run : read_row r w = (Ok xs, w).
Proof using Hr. unfold read_row. by rewrite Hr. Qed.

Lemma Row_len_run : Row_len r w = (Ok (length xs), w).
Proof using Hr. unfold Row_len. by rewrite (run_bind _ _ _ _ _ read_row_run). Qed.

Lemma Row_iter_run : Row_iter r w = (Ok xs, w).
Proof using Hr. apply read_row_run. Qed.

Lemma Row_getitem_run i : Row_getitem r i w = (list_getitem xs i, w).
Proof using Hr. unfold Row_getitem. by rewrite (run_bind _ _ _ _ _ read_row_run). Qed.

Lemma Row_getitem_nat_run (i : nat) x :
  xs !! i = Some x → Row_getitem r (Z.of_nat i) w = (Ok x, w).
Proof using Hr. intros H. by rewrite Row_getitem_run, (list_getitem_lookup _ _ _ H). Qed.

Lemma Row_is_zero_run : Row_is_zero r w = (Ok (is_zero xs), w).
Proof using Hr. unfold Row_is_zero. by rewrite (run_bind _ _ _ _ _ read_row_run). Qed.

Lemma Row_pivot_loop_run k :
  Row_pivot_loop r (seq k (length xs - k)) w =
  (Ok (match list_find (λ x, x ≠ 0) (drop k xs) with
       | Some (i, _) => Z.of_nat (k + i)
       | None => (-1)%Z
       end), w).
Proof using Hr.
  remember (length xs - k)%nat as n eqn:Hn. revert k Hn.
  induction n as [|n IH]; intros k Hn; simpl.
  - rewrite drop_ge by lia. done.
  - destruct (lookup_lt_is_Some_2 xs k) as [x Hx]; [lia|].
    rewrite (run_bind _ _ _ _ _ (Row_getitem_nat_run _ _ Hx)).
    rewrite (drop_S _ _ _ Hx). simpl.
    case_decide as Hz.
    + by rewrite Nat.add_0_r.
    + rewrite IH by lia. destruct (list_find _ (drop (S k) xs)) as [[i y]|]; simpl; [|done].
      do 3 f_equal. lia.
Qed.

Lemma Row_pivot_run : Row_pivot r w = (Ok (pivot xs), w).
Proof using Hr.
  unfold Row_pivot. rewrite (run_bind _ _ _ _ _ Row_len_run).
  unfold range. rewrite Row_pivot_loop_run, drop_0. unfold pivot.
  by destruct (list_find _ xs) as [[i y]|].
Qed.

Lemma wp_Row_init nums :
  wp (Row_init nums) w (returns (λ r' w', row_at w' r' nums)).
Proof.
  unfold wp, Row_init, alloc_row, returns, row_at. simpl.
  by rewrite list_lookup_middle.
Qed.

Lemma wp_Row_neg :
  wp (Row_neg r) w (returns (λ r' w', row_at w' r' (row_neg xs))).
Proof using Hr.
  unfold Row_neg. eapply wp_read; [apply read_row_run|apply wp_Row_init].
Qed.

Lemma wp_Row_mul k :
  wp (Row_mul r k) w (returns (λ r' w', row_at w' r' (row_mul xs k))).
Proof using Hr.
  unfold Row_mul. eapply wp_read; [apply read_row_run|apply wp_Row_init].
Qed.

Lemma wp_Row_truediv k :
  k ≠ 0 →
  wp (Row_truediv r k) w (returns (λ r' w', row_at w' r' (row_mul xs (1 / k)))).
Proof using Hr.
  intros Hk. unfold Row_truediv. eapply wp_read; [|apply wp_Row_mul].
  unfold num_truediv. by rewrite decide_False.
Qed.

Lemma Row_truediv_zero_run : Row_truediv r 0 w = (Err ZeroDivisionError, w).
Proof. unfold Row_truediv. erewrite run_bind_err; [done|]. done. Qed.

Lemma num_truediv_run a b :
  num_truediv a b w =
  (if decide (b = 0) then Err ZeroDivisionError else Ok (a / b), w).
Proof. unfold num_truediv. by case_decide. Qed.
End row_specs.

Lemma wp_Row_add w r xs r' ys :
  row_at w r xs → row_at w r' ys → length xs = length ys →
  wp (Row_add r r') w (returns (λ s w', row_at w' s (row_add xs ys))).
Proof.
  intros Hr Hr' Hlen. unfold Row_add.
  eapply wp_read; [by apply Row_len_run|].
  eapply wp_read; [by apply Row_len_run|].
  rewrite decide_False by (intros H; apply H; done).
  eapply wp_read; [by apply read_row_run|].
  eapply wp_read; [by apply read_row_run|].
  apply wp_Row_init.
Qed.

Lemma Row_add_mismatch_run w r xs r' ys :
  row_at w r xs → row_at w r' ys → length xs ≠ length ys →
  Row_add r r' w = (Err (LengthMismatch (length xs) (length ys)), w).
Proof.
  intros Hr Hr' Hlen. unfold Row_add.
  rewrite (run_bind _ _ _ _ _ (Row_len_run _ _ _ Hr')).
  rewrite (run_bind _ _ _ _ _ (Row_len_run _ _ _ Hr)).
  by rewrite decide_True.
Qed.

(** ** class Matrix: frame properties *)

Ltac frames_step :=
  first
    [ progress intros
    | apply _
    | apply bind_allocs
    | apply bind_frames
    | apply when_allocs
    | apply when_frames
    | apply for_frames
    | apply foldM_frames
    | apply traverse_allocs
    | match goal with
      | |- Allocs (match ?x with _ => _ end) => destruct x
      | |- Frames _ (match ?x with _ => _ end) => destruct x
      | |- Allocs (let '(_, _) := ?x in _) => destruct x
      | |- Frames _ (traverse _ _) => apply allocs_frames
      end ].

Ltac solve_frames := repeat frames_step.

Global Instance Matrix_len_allocs m : Allocs (Matrix_len m).
Proof. unfold Matrix_len. solve_frames. Qed.
Global Instance Matrix_getitem_allocs m i : Allocs (Matrix_getitem m i).
Proof. unfold Matrix_getitem. solve_frames. Qed.
Global Instance Matrix_getslice_allocs m lo hi : Allocs (Matrix_getslice m lo hi).
Proof. unfold Matrix_getslice. solve_frames. Qed.
Global Instance Matrix_iter_allocs m : Allocs (Matrix_iter m).
Proof. unfold Matrix_iter. solve_frames. Qed.
Global Instance Matrix_dim_allocs m : Allocs (Matrix_dim m).
Proof. unfold Matrix_dim. solve_frames. Qed.
Global Instance Matrix_str_allocs m : Allocs (Matrix_str m).
Proof. unfold Matrix_str. solve_frames. Qed.
Global Instance print_matrix_allocs m : Allocs (print_matrix m).
Proof. unfold print_matrix. solve_frames. Qed.
Global Instance Matrix_col_allocs m i : Allocs (Matrix_col m i).
Proof. unfold Matrix_col. solve_frames. Qed.
Global Instance Matrix_setitem_frames m i r : Frames m (Matrix_setitem m i r).
Proof. unfold Matrix_setitem. solve_frames. Qed.
Global Instance Matrix_swap_rows_frames m i j : Frames m (Matrix_swap_rows m i j).
Proof. unfold Matrix_swap_rows. solve_frames. Qed.
Global Instance det_scan_allocs m i ks : Allocs (det_scan m i ks).
Proof. induction ks; simpl; solve_frames. Qed.
Global Instance op_is_not_useless_allocs m i j c : Allocs (op_is_not_useless m i j c).
Proof. unfold op_is_not_useless. solve_frames. Qed.
Global Instance det_eliminate_frames m v i p j : Frames m (det_eliminate m v i p j).
Proof. unfold det_eliminate. solve_frames. Qed.
Global Instance det_step_frames m v neg i : Frames m (det_step m v neg i).
Proof. unfold det_step. solve_frames. Qed.
Global Instance ref_eliminate_frames m v i p j : Frames m (ref_eliminate m v i p j).
Proof. unfold ref_eliminate. solve_frames. Qed.
Global Instance ref_step_frames m v i : Frames m (ref_step m v i).
Proof. unfold ref_step. solve_frames. Qed.
Global Instance rref_eliminate_frames m v i c p j : Frames m (rref_eliminate m v i c p j).
Proof. unfold rref_eliminate. solve_frames. Qed.
Global Instance rref_step_frames m v i : Frames m (rref_step m v i).
Proof. unfold rref_step. solve_frames. Qed.

(** ** The caller's objects are left alone *)

Lemma run_bind_inv {A B} (c : M A) (k : A → M B) w r w' :
  (c ≫= k) w = (r, w') →
  (∃ a w1, c w = (Ok a, w1) ∧ k a w1 = (r, w')) ∨
  (∃ e, c w = (Err e, w') ∧ r = Err e).
Proof.
  unfold mbind, M_bind. destruct (c w) as [[a|e] w1]; [by eauto|].
  intros [= <- <-]. eauto.
Qed.

Lemma allocs_run {A} (c : M A) `{!Allocs c} w r w' : c w = (r, w') → grows w w'.
Proof. intros E. pose proof (allocs (c:=c) w) as H. by rewrite E in H. Qed.

Lemma frames_run {A} new (c : M A) `{!Frames new c} w r w' :
  c w = (r, w') → ext new w w'.
Proof. intros E. pose proof (frames (new:=new) (c:=c) w) as H. by rewrite E in H. Qed.

Lemma grows_preserved w w' : grows w w' → preserved w w'.
Proof. intros []. split; [done|]. intros m o. by rewrite grows_mats0. Qed.

Lemma preserved_contents w w' m A :
  preserved w w' → contents w m = Some A → contents w' m = Some A.
Proof.
  intros [Hr Hm]. rewrite !contents_Some. intros (o & Ho & HA).
  exists o. split; [by apply Hm|].
  eapply Forall2_impl; [exact HA|]. intros r xs. by apply row_at_prefix.
Qed.

Lemma preserved_ext_fresh new w w1 w2 :
  preserved w w1 → new = length (w_mats w) → ext new w1 w2 → preserved w w2.
Proof.
  intros [Hr Hm] -> [Hr' Hm' _ _]. split; [by etrans|].
  intros m o Ho. rewrite Hm'; [by apply Hm|].
  apply lookup_lt_Some in Ho. lia.
Qed.

Lemma Matrix_init_creates {X} (iter : X → M (list Qc)) x :
  (∀ z, Allocs (iter z)) → creates (Matrix_init iter x).
Proof.
  intros Hiter w r w' E. unfold Matrix_init in E.
  apply run_bind_inv in E as [(rows & w1 & E1 & E)|(e & E1 & ->)];
    apply allocs_run in E1 as G1; try solve_frames;
    [|by split; [apply grows_preserved|]].
  case_decide; [injection E as <- <-; by split; [apply grows_preserved|]|].
  apply run_bind_inv in E as [(lens & w2 & E2 & E)|(e & E2 & ->)];
    apply allocs_run in E2 as G2; try solve_frames;
    [|by split; [apply grows_preserved; etrans|]].
  assert (grows w w2) as G by (by etrans).
  case_decide; [injection E as <- <-; by split; [apply grows_preserved|]|].
  apply run_bind_inv in E as [(cl & w3 & E3 & E)|(e & E3 & ->)];
    injection E3 as E3 <-; [|by split; [apply grows_preserved|]].
  injection E as <- <-. destruct G as [Gr Gm Go]. split.
  - split; simpl; [done|]. intros m o Ho. rewrite Gm. by apply lookup_app_l_Some.
  - intros new [= <-]. simpl. rewrite Gm, length_app. simpl. split; [done|lia].
Qed.

Lemma Matrix_deepcopy_creates self : creates (Matrix_deepcopy self).
Proof.
  intros w r w' E. unfold Matrix_deepcopy in E.
  apply run_bind_inv in E as [(rows & w1 & E1 & E)|(e & E1 & ->)];
    apply allocs_run in E1 as G1; try solve_frames.
  - apply Matrix_init_creates in E; [|apply _]. destruct E as [Hp Hn].
    destruct G1 as [G1r G1m G1o]. split.
    + destruct Hp as [Hr Hm]. split; [by etrans|].
      intros m o Ho. apply Hm. by rewrite G1m.
    + intros new Hnew. rewrite <-G1m. by apply Hn.
  - by split; [apply grows_preserved|].
Qed.

Lemma creates_bind (c : M loc) (k : loc → M loc) :
  creates c →
  (∀ new, Frames new (k new)) →
  (∀ new w x w', k new w = (Ok x, w') → x = new) →
  creates (c ≫= k).
Proof.
  intros Hc Hk Hret w r w' E.
  apply run_bind_inv in E as [(new & w1 & E1 & E)|(e & E1 & ->)].
  - apply Hc in E1 as [Hp Hn]. destruct (Hn new eq_refl) as [-> Hlt].
    apply (frames_run (length (w_mats w))) in E as He; [|done].
    split; [by eapply preserved_ext_fresh|].
    intros x ->. apply Hret in E as ->. split; [done|].
    by rewrite (ext_mats_len _ _ _ He).
  - apply Hc in E1 as [Hp _]. done.
Qed.

Ltac run_to_end E :=
  repeat (apply run_bind_inv in E as [(? & ? & _ & E)|(? & _ & ?)]; [|done]);
  by injection E.

Lemma ref_creates self verbose : creates (ref self verbose).
Proof.
  apply creates_bind; [apply Matrix_deepcopy_creates|solve_frames|].
  intros new w x w' E. run_to_end E.
Qed.

Lemma rref_creates self verbose : creates (rref self verbose).
Proof.
  apply creates_bind; [apply ref_creates|solve_frames|].
  intros new w x w' E. run_to_end E.
Qed.

Lemma det_preserved self verbose w : preserved w (det self verbose w).2.
Proof.
  destruct (det self verbose w) as [r w'] eqn:E. simpl. unfold det in E.
  apply run_bind_inv in E as [(new & w1 & E1 & E)|(e & E1 & ->)];
    apply Matrix_deepcopy_creates in E1 as [Hp Hn]; [|done].
  destruct (Hn new eq_refl) as [-> _].
  eapply preserved_ext_fresh; [done..|].
  eapply (frames_run _ _ _ _ _ E).
Qed.

(** ** class Matrix: specifications of the accessors *)

Section matrix_specs.
Context (w : world) (m : loc) (A : list (list Qc)).
Hypothesis Hm : contents w m = Some A.

Lemma Matrix_len_run : Matrix_len m w = (Ok (length A), w).
Proof using Hm.
  apply contents_Some in Hm as (o & Ho & HA).
  unfold Matrix_len. erewrite run_bind; [|unfold read_matrix; by rewrite Ho].
  by rewrite (Forall2_length _ _ _ HA).
Qed.

Lemma Matrix_iter_run :
  ∃ rs, Matrix_iter m w = (Ok rs, w) ∧ Forall2 (row_at w) rs A.
Proof using Hm.
  apply contents_Some in Hm as (o & Ho & HA). exists (m_rows o). split; [|done].
  unfold Matrix_iter. erewrite run_bind; [|unfold read_matrix; by rewrite Ho]. done.
Qed.

Lemma Matrix_getitem_run i xs :
  A !! i = Some xs →
  ∃ r, Matrix_getitem m (Z.of_nat i) w = (Ok r, w) ∧ row_at w r xs.
Proof using Hm.
  intros Hi. apply contents_Some in Hm as (o & Ho & HA).
  destruct (Forall2_lookup_r _ _ _ _ _ HA Hi) as (r & Hr & Hrow).
  exists r. split; [|done]. unfold Matrix_getitem.
  erewrite run_bind; [|unfold read_matrix; by rewrite Ho].
  unfold lift. by rewrite (list_getitem_lookup _ _ _ Hr).
Qed.

Lemma Matrix_getitem_ge_run i :
  (length A ≤ i)%nat → Matrix_getitem m (Z.of_nat i) w = (Err IndexError, w).
Proof using Hm.
  intros Hi. apply contents_Some in Hm as (o & Ho & HA).
  unfold Matrix_getitem.
  erewrite run_bind; [|unfold read_matrix; by rewrite Ho].
  unfold lift. rewrite list_getitem_ge; [done|].
  by rewrite (Forall2_length _ _ _ HA).
Qed.

Lemma Matrix_getslice_run lo hi :
  ∃ rs, Matrix_getslice m lo hi w = (Ok rs, w) ∧
        Forall2 (row_at w) rs (list_slice A lo hi).
Proof using Hm.
  apply contents_Some in Hm as (o & Ho & HA).
  exists (list_slice (m_rows o) lo hi). split.
  - unfold Matrix_getslice. erewrite run_bind; [|unfold read_matrix; by rewrite Ho].
    done.
  - unfold list_slice. by apply Forall2_drop, Forall2_take.
Qed.

Lemma Matrix_dim_run xs :
  A !! 0%nat = Some xs → Matrix_dim m w = (Ok (length A, length xs), w).
Proof using Hm.
  intros H0. unfold Matrix_dim.
  rewrite (run_bind _ _ _ _ _ Matrix_len_run).
  destruct (Matrix_getitem_run 0 xs H0) as (r & Er & Hr).
  change 0%Z with (Z.of_nat 0). rewrite (run_bind _ _ _ _ _ Er).
  by rewrite (run_bind _ _ _ _ _ (Row_len_run _ _ _ Hr)).
Qed.

Lemma traverse_Row_iter_run rs B :
  Forall2 (row_at w) rs B → traverse Row_iter rs w = (Ok B, w).
Proof.
  induction 1 as [|r xs rs B Hr _ IH]; simpl; [done|].
  rewrite (run_bind _ _ _ _ _ (Row_iter_run _ _ _ Hr)).
  by rewrite (run_bind _ _ _ _ _ IH).
Qed.

Lemma traverse_Row_len_run rs B :
  Forall2 (row_at w) rs B → traverse Row_len rs w = (Ok (length <$> B), w).
Proof.
  induction 1 as [|r xs rs B Hr _ IH]; simpl; [done|].
  rewrite (run_bind _ _ _ _ _ (Row_len_run _ _ _ Hr)).
  by rewrite (run_bind _ _ _ _ _ IH).
Qed.

Lemma Matrix_str_run :
  Matrix_str m w = (if decide (concat A = []) then Err EmptySequence else Ok A, w).
Proof using Hm.
  destruct Matrix_iter_run as (rs & Ers & Hrs).
  unfold Matrix_str. rewrite (run_bind _ _ _ _ _ Ers).
  rewrite (run_bind _ _ _ _ _ (traverse_Row_iter_run _ _ Hrs)).
  by case_decide.
Qed.

Lemma wp_print_matrix :
  concat A ≠ [] → wp (print_matrix m) w (returns (λ _ _, True)).
Proof using Hm.
  intros HA. unfold print_matrix. eapply wp_read.
  - rewrite Matrix_str_run. by rewrite decide_False.
  - done.
Qed.

Lemma print_matrix_empty_run :
  concat A = [] → print_matrix m w = (Err EmptySequence, w).
Proof using Hm.
  intros HA. unfold print_matrix. erewrite run_bind_err; [done|].
  rewrite Matrix_str_run. by rewrite decide_True.
Qed.

Lemma wp_Matrix_setitem i r xs :
  (i < length A)%nat → row_at w r xs →
  wp (Matrix_setitem m (Z.of_nat i) r) w
     (returns (λ _ w', contents w' m = Some (<[i := xs]> A))).
Proof using Hm.
  intros Hi Hr. apply contents_Some in Hm as (o & Ho & HA).
  pose proof (Forall2_length _ _ _ HA) as Hlen.
  unfold Matrix_setitem. eapply wp_read; [unfold read_matrix; by rewrite Ho|].
  eapply wp_read; [unfold lift; rewrite list_setitem_nat by lia; done|].
  unfold wp, write_matrix, returns. apply lookup_lt_Some in Ho as Hlt.
  rewrite decide_True by done. simpl.
  apply contents_Some. eexists. simpl. split.
  - by apply list_lookup_insert_eq.
  - simpl. by apply Forall2_insert.
Qed.
End matrix_specs.

Lemma wp_Matrix_swap_rows w m A i j :
  contents w m = Some A → (i < length A)%nat → (j < length A)%nat →
  wp (Matrix_swap_rows m (Z.of_nat i) (Z.of_nat j)) w
     (returns (λ _ w', contents w' m = Some (swap_rows i j A))).
Proof.
  intros Hm Hi Hj.
  destruct (lookup_lt_is_Some_2 A i Hi) as [xi Hxi].
  destruct (lookup_lt_is_Some_2 A j Hj) as [xj Hxj].
  destruct (Matrix_getitem_run _ _ _ Hm _ _ Hxi) as (ri & Eri & Hri).
  destruct (Matrix_getitem_run _ _ _ Hm _ _ Hxj) as (rj & Erj & Hrj).
  unfold Matrix_swap_rows.
  eapply wp_read; [exact Erj|]. eapply wp_read; [exact Eri|].
  eapply (wp_step_ext m); [apply _|by apply wp_Matrix_setitem|].
  intros [] w1 He Hm1.
  eapply wp_mono; [eapply wp_Matrix_setitem; [done| |by eapply row_at_ext]|].
  - by rewrite length_insert.
  - intros [[]|e] w2; simpl; [|done]. intros ->. unfold swap_rows.
    by rewrite (list_lookup_total_correct _ _ _ Hxi),
      (list_lookup_total_correct _ _ _ Hxj).
Qed.

(** ** Construction *)

Lemma wp_traverse_Row_init {X} (iter : X → M (list Qc))
    `{Hiter : !∀ z, Allocs (iter z)} (x : list X) (B : list (list Qc)) w :
  Forall2 (λ z xs, ∀ w', grows w w' → iter z w' = (Ok xs, w')) x B →
  wp (traverse (λ z, nums ← iter z; Row_init nums) x) w
     (returns (λ rows w', Forall2 (row_at w') rows B)).
Proof.
  intros H. revert B w H. induction x as [|z x IH]; intros B w H.
  - apply Forall2_nil_inv_l in H as ->. apply wp_ret. constructor.
  - apply Forall2_cons_inv_l in H as (xs & B' & Hz & H & ->). simpl.
    eapply wp_step_grows; [apply _| |].
    { eapply wp_read; [by apply Hz|]. apply wp_Row_init. }
    intros r w1 G1 Hr.
    eapply wp_step_grows; [apply _|apply IH|].
    { eapply Forall2_impl; [exact H|]. intros ?? Hi w' G. apply Hi. by etrans. }
    intros rows w2 G2 Hrows. apply wp_ret. simpl.
    constructor; [by eapply row_at_grows|done].
Qed.

Lemma wp_Matrix_init {X} (iter : X → M (list Qc))
    `{Hiter : !∀ z, Allocs (iter z)} (x : list X) (B : list (list Qc)) w :
  Forall2 (λ z xs, ∀ w', grows w w' → iter z w' = (Ok xs, w')) x B →
  wp (Matrix_init iter x) w
     (λ r w', match init_check B with
              | Some e => r = Err e
              | None => ∃ new, r = Ok new ∧ contents w' new = Some B
              end).
Proof.
  intros H. unfold Matrix_init, init_check.
  eapply wp_step; [by apply wp_traverse_Row_init|].
  intros rows w1 Hrows. cbv beta in Hrows.
  pose proof (Forall2_length _ _ _ Hrows) as Hlen.
  rewrite Hlen. case_decide; [by apply wp_raise|].
  eapply wp_read; [by apply traverse_Row_len_run|].
  case_decide as Hsz; [by apply wp_raise|].
  destruct B as [|b0 B]; [done|].
  destruct (elements _) as [|cl els] eqn:Hel.
  { apply elements_empty_inv in Hel. apply leibniz_equiv in Hel.
    exfalso. revert Hel. simpl. set_solver. }
  eapply wp_read; [done|].
  unfold wp, alloc_matrix. simpl. eexists. split; [done|].
  apply contents_Some. eexists. simpl. split; [by apply list_lookup_middle|done].
Qed.

Lemma wp_Matrix_new (x : list (list Qc)) w :
  wp (Matrix_new x) w
     (λ r w', match init_check x with
              | Some e => r = Err e
              | None => ∃ new, r = Ok new ∧ contents w' new = Some x
              end).
Proof.
  apply wp_Matrix_init; [apply _|]. by apply Forall_Forall2_diag, Forall_true.
Qed.

Lemma wp_Matrix_deepcopy self A w :
  contents w self = Some A →
  wp (Matrix_deepcopy self) w
     (λ r w', match init_check A with
              | Some e => r = Err e
              | None => ∃ new, r = Ok new ∧ contents w' new = Some A
              end).
Proof.
  intros Hm. destruct (Matrix_iter_run _ _ _ Hm) as (rs & Ers & Hrs).
  unfold Matrix_deepcopy. eapply wp_read; [exact Ers|].
  apply wp_Matrix_init; [apply _|].
  eapply Forall2_impl; [exact Hrs|]. intros r xs Hr w' G.
  apply Row_iter_run. by eapply row_at_grows.
Qed.

Lemma init_check_shape n c A : shape n c A → (0 < n)%nat → init_check A = None.
Proof.
  intros [Hn Hc] Hpos. unfold init_check. rewrite decide_False by lia.
  rewrite decide_False; [done|].
  assert (list_to_set (length <$> A) ⊆@{gset nat} {[c]}) as Hsub.
  { intros k. rewrite elem_of_list_to_set, list_elem_of_fmap.
    intros (xs & -> & Hxs). rewrite Forall_forall in Hc.
    apply elem_of_singleton. by apply Hc. }
  apply subseteq_size in Hsub. rewrite size_singleton in Hsub. lia.
Qed.

(** * Properties of the functional view *)

(** ** Shapes are kept *)

Lemma shape_lookup n c A i xs : shape n c A → A !! i = Some xs → length xs = c.
Proof. intros [_ H] Hi. by eapply Forall_lookup_1 in H. Qed.

Lemma shape_lookup_total n c A i : shape n c A → (i < n)%nat → length (A !!! i) = c.
Proof.
  intros HA Hi. destruct (lookup_lt_is_Some_2 A i) as [xs Hxs]; [by rewrite (proj1 HA)|].
  rewrite (list_lookup_total_correct _ _ _ Hxs). by eapply shape_lookup.
Qed.

Lemma shape_insert n c A i xs :
  shape n c A → length xs = c → shape n c (<[i := xs]> A).
Proof. intros [Hn HA] Hxs. split; [by rewrite length_insert|by apply Forall_insert]. Qed.

Lemma shape_concat n c A :
  shape n c A → (0 < n)%nat → (0 < c)%nat → concat A ≠ [].
Proof.
  intros [Hn HA] ??. destruct A as [|[|x xs] A]; simpl in *; [lia| |done].
  apply Forall_cons_1 in HA as [? _]. simpl in *. lia.
Qed.

Lemma length_row_neg xs : length (row_neg xs) = length xs.
Proof. apply length_fmap. Qed.

Lemma length_row_mul xs k : length (row_mul xs k) = length xs.
Proof. apply length_fmap. Qed.

Lemma length_row_add xs ys : length xs = length ys → length (row_add xs ys) = length xs.
Proof. intros H. unfold row_add. rewrite length_zip_with. lia. Qed.

Lemma shape_swap_rows n c A i j :
  shape n c A → (i < n)%nat → (j < n)%nat → shape n c (swap_rows i j A).
Proof.
  intros HA Hi Hj. unfold swap_rows.
  do 2 (apply shape_insert; [|by apply (shape_lookup_total n)]). done.
Qed.

Lemma shape_eliminate n c A i k j :
  shape n c A → (i < n)%nat → (j < n)%nat → shape n c (eliminate i k A j).
Proof.
  intros HA Hi Hj. apply shape_insert; [done|].
  rewrite length_row_add; rewrite ?length_row_mul, ?length_row_neg;
    by rewrite !(shape_lookup_total n c).
Qed.

Lemma shape_eliminate_div n c A i k p j :
  shape n c A → (i < n)%nat → (j < n)%nat → shape n c (eliminate_div i k p A j).
Proof.
  intros HA Hi Hj. apply shape_insert; [done|].
  rewrite length_row_add; rewrite ?length_row_mul, ?length_row_neg;
    by rewrite !(shape_lookup_total n c).
Qed.

Lemma shape_foldl {X} n c (f : list (list Qc) → X → list (list Qc)) l A :
  (∀ B x, x ∈ l → shape n c B → shape n c (f B x)) →
  shape n c A → shape n c (foldl f A l).
Proof.
  revert A. induction l as [|x l IH]; intros A Hf HA; simpl; [done|].
  apply IH; [|apply Hf; [left|done]]. intros B y Hy. apply Hf. by right.
Qed.

Lemma elem_of_range lo hi k : k ∈ range lo hi ↔ (lo ≤ k < hi)%nat.
Proof. unfold range. rewrite elem_of_seq. lia. Qed.

(** * The algorithms compute their functional view *)

Lemma Matrix_row_run w new A j :
  contents w new = Some A → (j < length A)%nat →
  ∃ r, Matrix_getitem new (Z.of_nat j) w = (Ok r, w) ∧ row_at w r (A !!! j).
Proof.
  intros Hm Hj. destruct (lookup_lt_is_Some_2 A j Hj) as [xs Hxs].
  rewrite (list_lookup_total_correct _ _ _ Hxs). by eapply Matrix_getitem_run.
Qed.

Lemma Row_entry_run w r n c A j k :
  shape n c A → (j < n)%nat → (k < c)%nat → row_at w r (A !!! j) →
  Row_getitem r (Z.of_nat k) w = (Ok (entry A j k), w).
Proof.
  intros HA Hj Hk Hr. eapply Row_getitem_nat_run; [done|].
  apply list_lookup_lookup_total_lt. by rewrite (shape_lookup_total n c).
Qed.

Lemma Row_entry_ge_run w r n c A j k :
  shape n c A → (j < n)%nat → (c ≤ k)%nat → row_at w r (A !!! j) →
  Row_getitem r (Z.of_nat k) w = (Err IndexError, w).
Proof.
  intros HA Hj Hk Hr. rewrite (Row_getitem_run _ _ _ Hr).
  rewrite list_getitem_ge; [done|]. by rewrite (shape_lookup_total n c).
Qed.

(** Transport of what is known about the store along a frame fact. *)
Ltac grow G :=
  cbv beta in *;
  repeat match goal with
  | H : row_at ?w _ _, G' : grows ?w _ |- _ =>
      constr_eq G G'; apply (row_at_grows _ _ _ _ G) in H
  | H : contents ?w _ = Some _, G' : grows ?w _ |- _ =>
      constr_eq G G'; apply (contents_grows _ _ _ _ G) in H
  | H : row_at ?w _ _, G' : ext _ ?w _ |- _ =>
      constr_eq G G'; apply (row_at_ext _ _ _ _ _ G) in H
  end.

Section eliminate_specs.
Context (new : loc) (verbose : Z) (n c : nat).

Lemma op_is_not_useless_run w A i j k :
  contents w new = Some A → shape n c A →
  (i < n)%nat → (j < n)%nat → (k < c)%nat →
  ∃ b, op_is_not_useless new i j (Z.of_nat k) w = (Ok b, w).
Proof.
  intros Hm HA Hi Hj Hk. pose proof (proj1 HA) as Hn.
  destruct (Matrix_row_run w new A j) as (rj & Erj & Hrj); [done|lia|].
  destruct (Matrix_row_run w new A i) as (ri & Eri & Hri); [done|lia|].
  unfold op_is_not_useless. rewrite (run_bind _ _ _ _ _ Erj).
  rewrite (run_bind _ _ _ _ _ (Row_entry_run _ _ _ _ _ _ _ HA Hj Hk Hrj)).
  case_decide; [|by eauto].
  rewrite (run_bind _ _ _ _ _ Eri).
  rewrite (run_bind _ _ _ _ _ (Row_is_zero_run _ _ _ Hri)). by eauto.
Qed.

Lemma wp_print_matrix_shape w A :
  contents w new = Some A → shape n c A → (0 < n)%nat → (0 < c)%nat →
  wp (print_matrix new) w (returns (λ _ w', contents w' new = Some A)).
Proof.
  intros Hm HA Hn Hc. eapply wp_mono.
  - apply wp_grows; [apply _|]. eapply wp_print_matrix; [done|].
    by eapply shape_concat.
  - intros [[]|e] w'; simpl; [intros [G _]|done]. by eapply contents_grows.
Qed.

Lemma wp_ref_eliminate w A i k j :
  contents w new = Some A → shape n c A →
  (i < n)%nat → (j < n)%nat → (k < c)%nat →
  wp (ref_eliminate new verbose i (Z.of_nat k) j) w
     (returns (λ _ w', contents w' new = Some (eliminate i k A j))).
Proof.
  intros Hm HA Hi Hj Hk. pose proof (proj1 HA) as Hn.
  destruct (op_is_not_useless_run w A i j k) as (b & Eb); [done..|].
  unfold ref_eliminate. eapply wp_read; [exact Eb|].
  eapply wp_step_grows with (R := λ _ _, True); [apply _| |].
  { apply wp_when; [|done]. intros _.
    destruct (Matrix_row_run w new A j) as (rj & Erj & Hrj); [done|lia|].
    eapply wp_read; [exact Erj|].
    eapply wp_read; [by eapply Row_entry_run|]. done. }
  intros [] w1 G1 _. grow G1.
  destruct (Matrix_row_run w1 new A j) as (rj & Erj & Hrj); [done|lia|].
  destruct (Matrix_row_run w1 new A i) as (ri & Eri & Hri); [done|lia|].
  eapply wp_read; [exact Erj|]. eapply wp_read; [exact Eri|].
  eapply wp_step_grows; [apply _|by apply wp_Row_neg|].
  intros nri w2 G2 Hnri. grow G2.
  destruct (Matrix_row_run w2 new A j) as (rj' & Erj' & Hrj'); [done|lia|].
  eapply wp_read; [exact Erj'|].
  eapply wp_read; [by eapply Row_entry_run|].
  eapply wp_step_grows; [apply _|exact (wp_Row_mul _ _ _ Hnri _)|].
  intros t w3 G3 Ht. grow G3.
  eapply wp_step_grows; [apply _|apply (wp_Row_add _ _ _ _ _ Hrj Ht)|].
  { rewrite length_row_mul, length_row_neg. by rewrite !(shape_lookup_total n c). }
  intros s w4 G4 Hs. grow G4.
  eapply (wp_step_ext new); [apply _|eapply wp_Matrix_setitem; [done|lia|done]|].
  intros [] w5 E5 Hm5. fold (eliminate i k A j) in Hm5.
  apply wp_when; [|done]. intros _.
  eapply wp_print_matrix_shape; [done|by apply shape_eliminate|lia..].
Qed.

Lemma wp_rref_eliminate w A i k p j :
  contents w new = Some A → shape n c A →
  (i < n)%nat → (j < n)%nat → (k < c)%nat → p ≠ 0 →
  wp (rref_eliminate new verbose i (Z.of_nat k) p j) w
     (returns (λ _ w', contents w' new = Some (eliminate_div i k p A j))).
Proof.
  intros Hm HA Hi Hj Hk Hp. pose proof (proj1 HA) as Hn.
  destruct (op_is_not_useless_run w A i j k) as (b & Eb); [done..|].
  unfold rref_eliminate. eapply wp_read; [exact Eb|].
  eapply wp_step_grows with (R := λ _ _, True); [apply _| |].
  { apply wp_when; [|done]. intros _.
    destruct (Matrix_row_run w new A j) as (rj & Erj & Hrj); [done|lia|].
    eapply wp_read; [exact Erj|].
    eapply wp_read; [by eapply Row_entry_run|].
    eapply wp_read; [unfold num_truediv; by rewrite decide_False|]. done. }
  intros [] w1 G1 _. grow G1.
  destruct (Matrix_row_run w1 new A j) as (rj & Erj & Hrj); [done|lia|].
  destruct (Matrix_row_run w1 new A i) as (ri & Eri & Hri); [done|lia|].
  eapply wp_read; [exact Erj|]. eapply wp_read; [exact Eri|].
  eapply wp_step_grows; [apply _|by apply wp_Row_neg|].
  intros nri w2 G2 Hnri. grow G2.
  destruct (Matrix_row_run w2 new A j) as (rj' & Erj' & Hrj'); [done|lia|].
  eapply wp_read; [exact Erj'|].
  eapply wp_read; [by eapply Row_entry_run|].
  eapply wp_step_grows; [apply _|exact (wp_Row_mul _ _ _ Hnri _)|].
  intros t w3 G3 Ht. grow G3.
  eapply wp_step_grows; [apply _|exact (wp_Row_truediv _ _ _ Ht _ Hp)|].
  intros t' w4 G4 Ht'. grow G4.
  eapply wp_step_grows; [apply _|apply (wp_Row_add _ _ _ _ _ Hrj Ht')|].
  { rewrite !length_row_mul, length_row_neg. by rewrite !(shape_lookup_total n c). }
  intros s w5 G5 Hs. grow G5.
  eapply (wp_step_ext new); [apply _|eapply wp_Matrix_setitem; [done|lia|done]|].
  intros [] w6 E6 Hm6. fold (eliminate_div i k p A j) in Hm6.
  apply wp_when; [|done]. intros _.
  eapply wp_print_matrix_shape; [done|by apply shape_eliminate_div|lia..].
Qed.

Lemma wp_det_eliminate w A i p j :
  contents w new = Some A → shape n c A →
  (i < n)%nat → (j < n)%nat → (i < c)%nat → p ≠ 0 →
  wp (det_eliminate new verbose i p j) w
     (returns (λ _ w', contents w' new = Some (eliminate_div i i p A j))).
Proof. apply wp_rref_eliminate. Qed.
End eliminate_specs.

(** ** Loops *)

Lemma wp_for_refines {X} new (body : X → M unit)
    (f : list (list Qc) → X → list (list Qc)) (P : list (list Qc) → Prop) l A w :
  contents w new = Some A → P A →
  (∀ B x w', x ∈ l → P B → contents w' new = Some B →
     P (f B x) ∧
     wp (body x) w' (returns (λ _ w'', contents w'' new = Some (f B x)))) →
  wp (for_ l body) w (returns (λ _ w', contents w' new = Some (foldl f A l))).
Proof.
  revert A w. induction l as [|x l IH]; intros A w Hm HP Hbody; simpl.
  - by apply wp_ret.
  - destruct (Hbody A x w) as [HP' Hx]; [left|done..|].
    eapply wp_step; [exact Hx|]. intros [] w' Hm'.
    apply IH; [done..|]. intros B y w'' Hy. apply Hbody. by right.
Qed.

Lemma wp_foldM_refines {X S} new (body : S → X → M S)
    (f : list (list Qc) * S → X → list (list Qc) * S)
    (P : list (list Qc) → Prop) l A s w :
  contents w new = Some A → P A →
  (∀ B t x w', x ∈ l → P B → contents w' new = Some B →
     P (f (B, t) x).1 ∧
     wp (body t x) w'
        (returns (λ t' w'', t' = (f (B, t) x).2 ∧
                            contents w'' new = Some (f (B, t) x).1))) →
  wp (foldM body s l) w
     (returns (λ s' w', s' = (foldl f (A, s) l).2 ∧
                        contents w' new = Some (foldl f (A, s) l).1)).
Proof.
  revert A s w. induction l as [|x l IH]; intros A s w Hm HP Hbody; simpl.
  - by apply wp_ret.
  - destruct (Hbody A s x w) as [HP' Hx]; [left|done..|].
    destruct (f (A, s) x) as [A' s'] eqn:Ef. simpl in *.
    eapply wp_step; [exact Hx|]. intros s'' w' [-> Hm'].
    apply IH; [done..|]. intros B t y w'' Hy. apply Hbody. by right.
Qed.

Lemma foldM_app {X S} (body : S → X → M S) s l1 l2 w :
  foldM body s (l1 ++ l2) w = (foldM body s l1 ≫= λ s', foldM body s' l2) w.
Proof.
  revert s w. induction l1 as [|x l1 IH]; intros s w; simpl; [done|].
  unfold mbind, M_bind. destruct (body s x w) as [[s'|e] w']; [|done].
  apply IH.
Qed.

(** ** Facts about the functional view *)

Lemma lookup_total_swap_rows_l A i j :
  (i < length A)%nat → (j < length A)%nat → swap_rows i j A !!! i = A !!! j.
Proof.
  intros Hi Hj. unfold swap_rows. destruct (decide (i = j)) as [->|Hne].
  - rewrite list_lookup_total_insert_eq; [done|by rewrite length_insert].
  - rewrite list_lookup_total_insert_ne by done.
    by rewrite list_lookup_total_insert_eq.
Qed.

Lemma lookup_total_swap_rows_r A i j :
  (i < length A)%nat → (j < length A)%nat → swap_rows i j A !!! j = A !!! i.
Proof.
  intros Hi Hj. unfold swap_rows.
  rewrite list_lookup_total_insert_eq; [done|by rewrite length_insert].
Qed.

Lemma lookup_total_swap_rows_ne A i j k :
  k ≠ i → k ≠ j → swap_rows i j A !!! k = A !!! k.
Proof.
  intros Hi Hj. unfold swap_rows. by rewrite !list_lookup_total_insert_ne.
Qed.

Lemma length_swap_rows A i j : length (swap_rows i j A) = length A.
Proof. unfold swap_rows. by rewrite !length_insert. Qed.

Lemma swap_rows_same A i : swap_rows i i A = A.
Proof.
  unfold swap_rows. destruct (decide (i < length A)%nat).
  - rewrite list_insert_insert_eq. apply list_insert_id.
    by apply list_lookup_lookup_total_lt.
  - rewrite !list_insert_ge; [done|lia..|]. rewrite list_insert_ge; lia.
Qed.

Lemma first_nonzero_cons A i k ks :
  first_nonzero A i (k :: ks) =
  if decide (entry A k i ≠ 0) then Some k else first_nonzero A i ks.
Proof.
  unfold first_nonzero. simpl. case_decide; [done|].
  by destruct (list_find _ ks) as [[? ?]|].
Qed.

Lemma first_nonzero_Some A i ks k :
  first_nonzero A i ks = Some k →
  k ∈ ks ∧ entry A k i ≠ 0.
Proof.
  unfold first_nonzero. destruct (list_find _ ks) as [[j k']|] eqn:E; [|done].
  intros [= <-]. apply list_find_Some in E as (Hj & HP & _).
  split; [by eapply list_elem_of_lookup_2|done].
Qed.

Lemma first_nonzero_None A i ks k :
  first_nonzero A i ks = None → k ∈ ks → entry A k i = 0.
Proof.
  unfold first_nonzero. destruct (list_find _ ks) as [[j k']|] eqn:E; [done|].
  intros _ Hk. rewrite list_find_None, Forall_forall in E.
  specialize (E k Hk). by destruct (decide (entry A k i = 0)).
Qed.

(** ** det *)

Section det_specs.
Context (new : loc) (verbose : Z) (n c : nat).

Lemma det_scan_run w A i ks :
  contents w new = Some A → shape n c A → (i < c)%nat →
  Forall (λ k, k < n)%nat ks →
  det_scan new i ks w = (Ok (first_nonzero A i ks), w).
Proof.
  intros Hm HA Hi Hks. pose proof (proj1 HA) as Hn.
  induction Hks as [|k ks Hk _ IH]; [done|].
  destruct (Matrix_row_run w new A k) as (r & Er & Hr); [done|lia|].
  simpl. rewrite (run_bind _ _ _ _ _ Er).
  rewrite (run_bind _ _ _ _ _ (Row_entry_run _ _ _ _ _ _ _ HA Hk Hi Hr)).
  rewrite first_nonzero_cons. by case_decide.
Qed.

(** Past the last column the scan fails at its first row. *)
Lemma det_scan_ge_run w A i k ks :
  contents w new = Some A → shape n c A → (c ≤ i)%nat → (k < n)%nat →
  det_scan new i (k :: ks) w = (Err IndexError, w).
Proof.
  intros Hm HA Hi Hk. pose proof (proj1 HA) as Hn.
  destruct (Matrix_row_run w new A k) as (r & Er & Hr); [done|lia|].
  simpl. rewrite (run_bind _ _ _ _ _ Er).
  by rewrite (run_bind_err _ _ _ _ _ (Row_entry_ge_run _ _ _ _ _ _ _ HA Hk Hi Hr)).
Qed.

Lemma shape_det_step_fun A neg i :
  shape n c A → (i < n)%nat → shape n c (det_step_fun (A, neg) i).1.
Proof.
  intros HA Hi. unfold det_step_fun. simpl.
  destruct (first_nonzero _ _ _) as [k|] eqn:Ek; [|done]. simpl.
  apply first_nonzero_Some in Ek as [Hk _]. apply elem_of_range in Hk.
  rewrite (proj1 HA) in Hk.
  assert (shape n c (if decide (k ≠ i) then swap_rows i k A else A)) as HA1.
  { case_decide; [apply shape_swap_rows; [done|lia..]|done]. }
  apply shape_foldl; [|done]. intros B j Hj HB.
  apply elem_of_range in Hj. rewrite (proj1 HA1) in Hj.
  apply shape_eliminate_div; [done|lia..].
Qed.

Lemma wp_det_step w A neg i :
  contents w new = Some A → shape n c A → (i < n)%nat → (i < c)%nat →
  wp (det_step new verbose neg i) w
     (returns (λ neg' w', neg' = (det_step_fun (A, neg) i).2 ∧
                          contents w' new = Some (det_step_fun (A, neg) i).1)).
Proof.
  intros Hm HA Hi Hic. pose proof (proj1 HA) as Hn.
  unfold det_step, det_step_fun. simpl.
  eapply wp_read; [by apply Matrix_len_run|].
  eapply wp_read.
  { eapply det_scan_run; [done..|]. apply Forall_forall. intros k Hk.
    apply elem_of_range in Hk. lia. }
  destruct (first_nonzero _ _ _) as [k|] eqn:Ek; [|by apply wp_ret].
  apply first_nonzero_Some in Ek as [Hk Hnz]. apply elem_of_range in Hk.
  set (A1 := if decide (k ≠ i) then swap_rows i k A else A).
  set (neg1 := if decide (k ≠ i) then (neg * -1)%Z else neg).
  assert (shape n c A1) as HA1.
  { unfold A1. case_decide; [apply shape_swap_rows; [done|lia..]|done]. }
  assert (entry A1 i i ≠ 0) as Hpivot.
  { unfold A1, entry. case_decide as Hki.
    - rewrite lookup_total_swap_rows_l by lia. done.
    - by subst k. }
  eapply (wp_step_ext new) with (R := λ neg' w', neg' = neg1 ∧ contents w' new = Some A1);
    [apply _| |].
  { unfold A1, neg1. case_decide; [|by apply wp_ret].
    eapply wp_step; [eapply wp_Matrix_swap_rows; [done|lia..]|].
    intros [] w1 Hm1. by apply wp_ret. }
  intros ? w1 E1 [-> Hm1].
  eapply wp_step with (R := λ _ w', contents w' new = Some A1).
  { apply wp_when; [|done]. intros _.
    eapply wp_step_grows with (R := λ _ _, True); [apply _|done|].
    intros [] w2 G2 _. grow G2.
    eapply wp_print_matrix_shape; [done..|lia|lia]. }
  intros [] w2 Hm2.
  destruct (Matrix_row_run w2 new A1 i) as (ri & Eri & Hri);
    [done|by rewrite (proj1 HA1)|].
  eapply wp_read; [exact Eri|].
  eapply wp_read; [by eapply Row_entry_run|].
  fold (entry A1 i i).
  eapply wp_read; [by apply Matrix_len_run|].
  eapply wp_step.
  { eapply (wp_for_refines new _ (eliminate_div i i (entry A1 i i)) (shape n c));
      [done..|].
    intros B j w' Hj HB Hm'. apply elem_of_range in Hj. rewrite (proj1 HA1) in Hj.
    split; [apply shape_eliminate_div; [done|lia..]|].
    apply (wp_det_eliminate _ _ n c); [done..|lia|done|done]. }
  intros [] w3 Hm3.
  eapply wp_step.
  { apply wp_when; intros _.
    - eapply (wp_print_matrix_shape new n c); [done| |lia..].
      apply shape_foldl; [|done]. intros B j Hj HB.
      apply elem_of_range in Hj. rewrite (proj1 HA1) in Hj.
      apply shape_eliminate_div; [done|lia..].
    - exact Hm3. }
  intros [] w4 Hm4. by apply wp_ret.
Qed.
End det_specs.

Lemma wp_foldM_app {X S} (body : S → X → M S) s l1 l2 w Q :
  wp (foldM body s l1 ≫= λ s', foldM body s' l2) w Q →
  wp (foldM body s (l1 ++ l2)) w Q.
Proof. unfold wp. by rewrite foldM_app. Qed.

Lemma range_split lo mid hi :
  (lo ≤ mid < hi)%nat → range lo hi = range lo mid ++ mid :: range (mid + 1) hi.
Proof.
  intros H. unfold range.
  replace (hi - lo)%nat with ((mid - lo) + S (hi - (mid + 1)))%nat by lia.
  rewrite seq_app. simpl. do 2 f_equal; [lia|f_equal; lia].
Qed.

Section det_top.
Context (verbose : Z) (n c : nat).

Lemma diag_loop_run w new U a l :
  contents w new = Some U → shape n c U →
  Forall (λ k, k < n ∧ k < c)%nat l →
  foldM (λ a k, r ← Matrix_getitem new (Z.of_nat k);
                x ← Row_getitem r (Z.of_nat k);
                mret (a * x)) a l w =
  (Ok (foldl (λ a k, a * entry U k k) a l), w).
Proof.
  intros Hm HU Hl. revert a. induction Hl as [|k l [Hk Hkc] _ IH]; intros a; [done|].
  destruct (Matrix_row_run w new U k) as (r & Er & Hr); [done|by rewrite (proj1 HU)|].
  simpl. erewrite run_bind; [apply IH|].
  rewrite (run_bind _ _ _ _ _ Er).
  by rewrite (run_bind _ _ _ _ _ (Row_entry_run _ _ _ _ _ _ _ HU Hk Hkc Hr)).
Qed.

Lemma shape_det_elim_prefix A neg l :
  shape n c A → Forall (λ k, k < n)%nat l →
  shape n c (foldl det_step_fun (A, neg) l).1.
Proof.
  intros HA Hl. revert A neg HA.
  induction Hl as [|k l Hk _ IH]; intros A neg HA; [done|]. simpl.
  destruct (det_step_fun (A, neg) k) as [A' neg'] eqn:E.
  apply IH. change A' with (A', neg').1. rewrite <-E.
  by apply shape_det_step_fun.
Qed.

(** The rounds [i < m] of the outer loop of [det], for [m] within the
    matrix. *)
Lemma wp_det_rounds w new A m :
  contents w new = Some A → shape n c A → (m ≤ n)%nat → (m ≤ c)%nat →
  wp (foldM (det_step new verbose) 1%Z (range 0 m)) w
     (returns (λ neg w',
        neg = (foldl det_step_fun (A, 1%Z) (range 0 m)).2 ∧
        contents w' new = Some (foldl det_step_fun (A, 1%Z) (range 0 m)).1)).
Proof.
  intros Hm HA Hmn Hmc.
  apply (wp_foldM_refines new _ det_step_fun (shape n c)); [done..|].
  intros B t i w' Hi HB Hm'. apply elem_of_range in Hi.
  split; [apply shape_det_step_fun; [done|lia]|].
  apply (wp_det_step _ _ n c); [done..|lia|lia].
Qed.

(** [det] on a matrix with at least as many columns as rows. *)
Lemma wp_det_wide w self A :
  contents w self = Some A → shape n c A → (0 < n)%nat → (n ≤ c)%nat →
  wp (det self verbose) w (returns (λ d _, d = det_fun A)).
Proof.
  intros Hself HA Hn Hnc. unfold det.
  eapply wp_step with (R := λ new w', contents w' new = Some A).
  { eapply wp_mono; [by apply wp_Matrix_deepcopy|].
    intros r w'. rewrite (init_check_shape _ _ _ HA) by lia.
    by intros (new & -> & ?). }
  intros new w1 Hm. pose proof (proj1 HA) as Hlen.
  destruct A as [|xs A']; [simpl in Hlen; lia|].
  assert (length xs = c) as Hxs by (by eapply (shape_lookup _ _ _ 0)).
  eapply wp_read; [by eapply Matrix_dim_run|].
  eapply wp_read; [by eapply Matrix_dim_run|].
  rewrite decide_False by (by intros H; apply H).
  eapply wp_step with (R := λ _ w', contents w' new = Some (xs :: A')).
  { apply wp_when; intros _; [|done].
    eapply wp_step_grows with (R := λ _ _, True); [apply _|done|].
    intros [] w2 G2 _. grow G2.
    eapply (wp_print_matrix_shape new n c); [done..|lia|lia]. }
  intros [] w2 Hm2.
  eapply wp_read; [by apply Matrix_len_run|].
  rewrite Hlen.
  eapply wp_step; [apply wp_det_rounds; [done..|lia|lia]|].
  intros neg w3 [-> Hm3].
  assert (shape n c (foldl det_step_fun (xs :: A', 1%Z) (range 0 n)).1) as HU.
  { apply shape_det_elim_prefix; [done|]. apply Forall_forall.
    intros k Hk. by apply elem_of_range in Hk as [_ ?]. }
  eapply wp_read; [by apply Matrix_len_run|].
  eapply wp_read.
  { eapply diag_loop_run; [done..|]. apply Forall_forall.
    intros k Hk. apply elem_of_range in Hk. rewrite (proj1 HU) in Hk. lia. }
  apply wp_ret. simpl. unfold det_fun, det_elim, diag_product.
  by rewrite Hlen.
Qed.

(** With more rows than columns, round [c] indexes a row past its end. *)
Lemma wp_det_tall w self A :
  contents w self = Some A → shape n c A → (c < n)%nat →
  ((0 < verbose)%Z → (0 < c)%nat) →
  wp (det self verbose) w (raises IndexError (λ _, True)).
Proof.
  intros Hself HA Hcn Hv. unfold det.
  eapply wp_step with (R := λ new w', contents w' new = Some A).
  { eapply wp_mono; [by apply wp_Matrix_deepcopy|].
    intros r w'. rewrite (init_check_shape _ _ _ HA) by lia.
    by intros (new & -> & ?). }
  intros new w1 Hm. pose proof (proj1 HA) as Hlen.
  destruct A as [|xs A']; [simpl in Hlen; lia|].
  assert (length xs = c) as Hxs by (by eapply (shape_lookup _ _ _ 0)).
  eapply wp_read; [by eapply Matrix_dim_run|].
  eapply wp_read; [by eapply Matrix_dim_run|].
  rewrite decide_False by (by intros H; apply H).
  eapply wp_step with (R := λ _ w', contents w' new = Some (xs :: A')).
  { apply wp_when; intros Hb; [|done].
    eapply wp_step_grows with (R := λ _ _, True); [apply _|done|].
    intros [] w2 G2 _. grow G2.
    eapply (wp_print_matrix_shape new n c); [done..|lia|lia]. }
  intros [] w2 Hm2.
  eapply wp_read; [by apply Matrix_len_run|].
  rewrite Hlen, (range_split 0 c n) by lia.
  eapply wp_step_raises with (R := λ _, True); [|done].
  apply wp_foldM_app.
  eapply wp_step; [apply wp_det_rounds; [done..|lia|lia]|].
  intros neg w3 [-> Hm3]. simpl.
  eapply wp_step_raises with (R := λ _, True); [|done].
  assert (shape n c (foldl det_step_fun (xs :: A', 1%Z) (range 0 c)).1) as HU.
  { apply shape_det_elim_prefix; [done|]. apply Forall_forall.
    intros k Hk. apply elem_of_range in Hk. lia. }
  unfold det_step.
  eapply wp_read; [by apply Matrix_len_run|].
  rewrite (proj1 HU), (range_split c c n) by lia.
  replace (range c c) with (@nil nat) by (unfold range; by rewrite Nat.sub_diag).
  eapply wp_read_raise; [|done].
  eapply det_scan_ge_run; [done..|lia].
Qed.

(** Printing the initial matrix fails when there is nothing to print. *)
Lemma wp_det_no_columns w self A :
  contents w self = Some A → shape n 0 A → (0 < n)%nat → (0 < verbose)%Z →
  wp (det self verbose) w (raises EmptySequence (λ _, True)).
Proof.
  intros Hself HA Hn Hv. unfold det.
  eapply wp_step with (R := λ new w', contents w' new = Some A).
  { eapply wp_mono; [by apply wp_Matrix_deepcopy|].
    intros r w'. rewrite (init_check_shape _ _ _ HA) by lia.
    by intros (new & -> & ?). }
  intros new w1 Hm. pose proof (proj1 HA) as Hlen.
  destruct A as [|xs A']; [simpl in Hlen; lia|].
  eapply wp_read; [by eapply Matrix_dim_run|].
  eapply wp_read; [by eapply Matrix_dim_run|].
  rewrite decide_False by (by intros H; apply H).
  eapply wp_step_raises with (R := λ _, True); [|done].
  destruct (Z.ltb_spec 0 verbose) as [_|?]; [|lia]. simpl.
  eapply wp_step_grows with (R := λ _ _, True); [apply _|done|].
  intros [] w2 G2 _. grow G2.
  unfold wp. rewrite (print_matrix_empty_run _ _ _ Hm); [done|].
  destruct HA as [_ HA]. clear -HA.
  induction HA as [|ys B Hys _ IH]; [done|]. simpl.
  apply length_zero_iff_nil in Hys as ->. done.
Qed.
End det_top.

(** ** Pivots *)

Lemma pivot_none xs : pivot xs = (-1)%Z ↔ Forall (λ x, x = 0) xs.
Proof.
  unfold pivot. destruct (list_find _ xs) as [[p x]|] eqn:E.
  - split; [lia|]. intros Hall. apply list_find_Some in E as (Hp & Hx & _).
    rewrite Forall_forall in Hall. destruct Hx. apply Hall.
    by eapply list_elem_of_lookup_2.
  - split; [|done]. intros _. apply list_find_None in E.
    eapply Forall_impl; [exact E|]. intros x Hx. simpl in Hx.
    by destruct (decide (x = 0)).
Qed.

Lemma pivot_some xs p :
  pivot xs = Z.of_nat p ↔
  (p < length xs)%nat ∧ xs !!! p ≠ 0 ∧ ∀ j, (j < p)%nat → xs !!! j = 0.
Proof.
  unfold pivot. destruct (list_find _ xs) as [[q x]|] eqn:E.
  - apply list_find_Some in E as (Hq & Hx & Hlt). split.
    + intros ?. assert (q = p) as -> by lia.
      split; [by eapply lookup_lt_Some|].
      split; [by rewrite (list_lookup_total_correct _ _ _ Hq)|].
      intros j Hj.
      destruct (lookup_lt_is_Some_2 xs j) as [y Hy];
        [apply lookup_lt_Some in Hq; lia|].
      rewrite (list_lookup_total_correct _ _ _ Hy).
      specialize (Hlt j y Hy Hj). by destruct (decide (y = 0)).
    + intros (Hp & Hnz & Hz). f_equal.
      destruct (Nat.lt_trichotomy q p) as [Hlt'|[->|Hgt]]; [|done|].
      * specialize (Hz q Hlt').
        by rewrite (list_lookup_total_correct _ _ _ Hq) in Hz.
      * destruct (lookup_lt_is_Some_2 xs p Hp) as [y Hy].
        rewrite (list_lookup_total_correct _ _ _ Hy) in Hnz.
        by destruct (Hlt p y Hy Hgt).
  - split; [lia|]. intros (Hp & Hnz & _). apply list_find_None in E.
    destruct (lookup_lt_is_Some_2 xs p Hp) as [y Hy].
    rewrite (list_lookup_total_correct _ _ _ Hy) in Hnz.
    rewrite Forall_forall in E. destruct (E y); [|done].
    by eapply list_elem_of_lookup_2.
Qed.

Lemma pivot_cases xs : pivot xs = (-1)%Z ∨ ∃ p : nat, pivot xs = Z.of_nat p.
Proof.
  unfold pivot. destruct (list_find _ xs) as [[p x]|]; [right|left]; eauto.
Qed.

Lemma is_zero_pivot xs : is_zero xs = true ↔ pivot xs = (-1)%Z.
Proof.
  rewrite pivot_none. unfold is_zero. rewrite forallb_forall, Forall_forall.
  split; intros H x Hx.
  - apply list_elem_of_In in Hx. specialize (H x Hx).
    by apply bool_decide_eq_true in H.
  - apply list_elem_of_In in Hx. specialize (H x Hx).
    by apply bool_decide_eq_true.
Qed.

(** The order on sort keys. *)
Global Instance key_le_refl : Reflexive key_le.
Proof. intros [p r]. unfold key_le. simpl. lia. Qed.

Global Instance key_le_trans : Transitive key_le.
Proof. intros [p r] [p' r'] [p'' r'']. unfold key_le. simpl. lia. Qed.

Global Instance key_le_total : Total key_le.
Proof. intros [p r] [p' r']. unfold key_le. simpl. lia. Qed.

Lemma head_filter_sorted {X} (R : relation X) `{!Reflexive R} (P : X → Prop)
    `{!∀ x, Decision (P x)} l x :
  StronglySorted R l → head (filter P l) = Some x →
  P x ∧ x ∈ l ∧ ∀ y, y ∈ l → P y → R x y.
Proof.
  induction 1 as [|a l Hl IH Ha]; [done|].
  rewrite filter_cons. case_decide as HPa; simpl.
  - intros [= <-]. split; [done|]. split; [left|].
    intros y Hy _. apply elem_of_cons in Hy as [->|Hy]; [done|].
    rewrite Forall_forall in Ha. by apply Ha.
  - intros Hx. destruct (IH Hx) as (HPx & Hxl & Hmin).
    split; [done|]. split; [by right|].
    intros y Hy HPy. apply elem_of_cons in Hy as [->|Hy]; [done|]. by apply Hmin.
Qed.

Lemma keyed_pivots_eq A i :
  keyed_pivots A i = (λ r, (pivot (A !!! r), r)) <$> range i (length A).
Proof.
  unfold keyed_pivots, list_slice, range. rewrite firstn_all.
  apply list_eq. intros j.
  rewrite lookup_zip_with, lookup_drop, list_lookup_fmap.
  destruct (decide (j < length A - i)%nat) as [Hj|Hj].
  - rewrite lookup_seq_lt by done.
    destruct (lookup_lt_is_Some_2 A (i + j)) as [xs Hxs]; [lia|].
    rewrite Hxs. simpl. by rewrite (list_lookup_total_correct _ _ _ Hxs).
  - rewrite lookup_seq_ge by lia. rewrite lookup_ge_None_2 by lia. done.
Qed.

Lemma elem_of_keyed_pivots A i p r :
  (p, r) ∈ keyed_pivots A i ↔ (i ≤ r < length A)%nat ∧ p = pivot (A !!! r).
Proof.
  rewrite keyed_pivots_eq, list_elem_of_fmap. setoid_rewrite elem_of_range.
  split.
  - intros (r' & [= -> ->] & Hr). done.
  - intros [Hr ->]. by exists r.
Qed.

Lemma choose_pivot_Some A i p r :
  choose_pivot A i = Some (p, r) →
  (i ≤ r < length A)%nat ∧ p = pivot (A !!! r) ∧ p ≠ (-1)%Z ∧
  ∀ k, (i ≤ k < length A)%nat → pivot (A !!! k) ≠ (-1)%Z →
       key_le (p, r) (pivot (A !!! k), k).
Proof.
  intros H. apply (head_filter_sorted key_le) in H as (Hp & Hin & Hmin);
    [|apply StronglySorted_merge_sort; apply _].
  rewrite merge_sort_Permutation in Hin.
  apply elem_of_keyed_pivots in Hin as [Hr ->].
  do 3 (split; [done|]). intros k Hk Hnz. apply Hmin; [|done].
  rewrite merge_sort_Permutation. by apply elem_of_keyed_pivots.
Qed.

Lemma choose_pivot_None A i k :
  choose_pivot A i = None → (i ≤ k < length A)%nat → pivot (A !!! k) = (-1)%Z.
Proof.
  unfold choose_pivot. intros H Hk.
  destruct (filter _ _) as [|? ?] eqn:E; [|done].
  destruct (decide (pivot (A !!! k) = (-1)%Z)) as [|Hne]; [done|].
  eapply (filter_nil_not_elem_of _ _ (pivot (A !!! k), k)) in E; [|done].
  destruct E. rewrite merge_sort_Permutation. by apply elem_of_keyed_pivots.
Qed.

(** ** ref *)

Section ref_specs.
Context (new : loc) (verbose : Z) (n c : nat).

Lemma keyed_run w rs B l :
  Forall2 (row_at w) rs B →
  traverse (λ '(row, ind), p ← Row_pivot row; mret (p, ind)) (zip rs l) w =
  (Ok (zip_with (λ row (ind : nat), (pivot row, ind)) B l), w).
Proof.
  intros H. revert l. induction H as [|r xs rs B Hr _ IH]; intros [|k l]; try done.
  simpl. erewrite run_bind; [|by rewrite (run_bind _ _ _ _ _ (Row_pivot_run _ _ _ Hr))].
  by rewrite (run_bind _ _ _ _ _ (IH l)).
Qed.

Lemma choose_pivot_column A i p r :
  shape n c A → choose_pivot A i = Some (p, r) →
  ∃ k, p = Z.of_nat k ∧ (k < c)%nat ∧ (i ≤ r < n)%nat ∧ entry A r k ≠ 0.
Proof.
  intros HA H. apply choose_pivot_Some in H as (Hr & Hp & Hne & _).
  rewrite (proj1 HA) in Hr.
  destruct (pivot_cases (A !!! r)) as [?|[k Hk]]; [congruence|].
  exists k. split; [congruence|]. apply pivot_some in Hk as (Hkc & Hnz & _).
  rewrite (shape_lookup_total n c) in Hkc by (done || lia). done.
Qed.

Lemma shape_ref_step_fun A i :
  shape n c A → (i < n)%nat → shape n c (ref_step_fun A i).
Proof.
  intros HA Hi. unfold ref_step_fun.
  destruct (choose_pivot A i) as [[p r]|] eqn:E; [|done].
  destruct (choose_pivot_column _ _ _ _ HA E) as (k & -> & Hk & Hr & Hnz).
  assert (shape n c (swap_rows i r A)) as H1 by (apply shape_swap_rows; [done|lia..]).
  assert (shape n c (<[i := row_mul (swap_rows i r A !!! i)
            (1 / entry A r (Z.to_nat (Z.of_nat k)))]> (swap_rows i r A))) as H2.
  { apply shape_insert; [done|]. by rewrite length_row_mul, (shape_lookup_total n c). }
  apply shape_foldl; [|done]. intros B j Hj HB.
  apply elem_of_range in Hj. rewrite (proj1 H2) in Hj.
  apply shape_eliminate; [done|lia..].
Qed.

Lemma wp_ref_step w A i :
  contents w new = Some A → shape n c A → (i < n)%nat →
  wp (ref_step new verbose i) w
     (returns (λ _ w', contents w' new = Some (ref_step_fun A i))).
Proof.
  intros Hm HA Hi. pose proof (proj1 HA) as Hn.
  unfold ref_step, ref_step_fun.
  eapply wp_read; [by apply Matrix_len_run|].
  destruct (Matrix_getslice_run _ _ _ Hm i (length A)) as (rs & Ers & Hrs).
  eapply wp_read; [exact Ers|].
  eapply wp_read; [by apply Matrix_len_run|].
  eapply wp_read; [by apply keyed_run|].
  fold (keyed_pivots A i). unfold choose_pivot.
  destruct (filter _ (merge_sort key_le (keyed_pivots A i)))
    as [|[p r] rest] eqn:E; [by apply wp_ret|].
  simpl.
  assert (choose_pivot A i = Some (p, r)) as Hch by (unfold choose_pivot; by rewrite E).
  destruct (choose_pivot_column _ _ _ _ HA Hch) as (k & -> & Hk & Hr & Hnz).
  rewrite decide_False by lia. rewrite Nat2Z.id.
  set (A1 := swap_rows i r A).
  set (A2 := <[i := row_mul (A1 !!! i) (1 / entry A r k)]> A1).
  assert (shape n c A1) as HA1 by (apply shape_swap_rows; [done|lia..]).
  assert (shape n c A2) as HA2.
  { apply shape_insert; [done|]. by rewrite length_row_mul, (shape_lookup_total n c). }
  destruct (Matrix_row_run w new A r) as (rr & Err & Hrr); [done|lia|].
  eapply wp_read; [exact Err|].
  eapply wp_read; [eapply (Row_entry_run _ _ n c A r k); [done|lia|done..]|].
  eapply (wp_step_ext new); [apply _|eapply wp_Matrix_swap_rows; [done|lia..]|].
  intros [] w1 E1 Hm1. fold A1 in Hm1.
  eapply wp_step with (R := λ _ w', contents w' new = Some A1).
  { apply wp_when; intros _; [|done].
    eapply wp_step_grows with (R := λ _ _, True); [apply _|done|].
    intros [] w2 G2 _. grow G2.
    eapply (wp_print_matrix_shape new n c); [done..|lia|lia]. }
  intros [] w2 Hm2.
  destruct (Matrix_row_run w2 new A1 i) as (ri & Eri & Hri);
    [done|by rewrite (proj1 HA1)|].
  eapply wp_read; [exact Eri|].
  eapply wp_step_grows; [apply _|exact (wp_Row_truediv _ _ _ Hri _ Hnz)|].
  intros q w3 G3 Hq. grow G3.
  eapply (wp_step_ext new);
    [apply _|eapply wp_Matrix_setitem; [done|by rewrite (proj1 HA1)|done]|].
  intros [] w4 E4 Hm4. fold A2 in Hm4.
  eapply wp_step with (R := λ _ w', contents w' new = Some A2).
  { apply wp_when; intros _; [|done].
    eapply wp_read; [unfold num_truediv; by rewrite decide_False|].
    eapply wp_step_grows with (R := λ _ _, True); [apply _|done|].
    intros [] w5 G5 _. grow G5.
    eapply (wp_print_matrix_shape new n c); [done..|lia|lia]. }
  intros [] w5 Hm5.
  eapply wp_read; [by apply Matrix_len_run|].
  eapply wp_step.
  { eapply (wp_for_refines new _ (eliminate i k) (shape n c)); [done..|].
    intros B j w' Hj HB Hm'. apply elem_of_range in Hj. rewrite (proj1 HA2) in Hj.
    split; [apply shape_eliminate; [done|lia..]|].
    apply (wp_ref_eliminate _ _ n c); [done..|lia|done]. }
  intros [] w6 Hm6.
  apply wp_when; intros _; [|done].
  eapply (wp_print_matrix_shape new n c); [done| |lia..].
  apply shape_foldl; [|done]. intros B j Hj HB.
  apply elem_of_range in Hj. rewrite (proj1 HA2) in Hj.
  apply shape_eliminate; [done|lia..].
Qed.
End ref_specs.

Section ref_top.
Context (verbose : Z) (n c : nat).

Lemma shape_foldl_range (f : list (list Qc) → nat → list (list Qc)) A lo hi :
  (∀ B i, (i < n)%nat → shape n c B → shape n c (f B i)) →
  (hi ≤ n)%nat → shape n c A → shape n c (foldl f A (range lo hi)).
Proof.
  intros Hf Hhi HA. apply shape_foldl; [|done].
  intros B i Hi HB. apply elem_of_range in Hi. apply Hf; [lia|done].
Qed.

Lemma shape_ref_fun A : shape n c A → shape n c (ref_fun A).
Proof.
  intros HA. unfold ref_fun. rewrite (proj1 HA).
  apply shape_foldl_range; [|done..]. intros B i Hi HB. by apply shape_ref_step_fun.
Qed.

Lemma wp_ref w self A :
  contents w self = Some A → shape n c A → (0 < n)%nat →
  ((0 < verbose)%Z → (0 < c)%nat) →
  wp (ref self verbose) w
     (returns (λ new w', contents w' new = Some (ref_fun A))).
Proof.
  intros Hself HA Hn Hv. unfold ref.
  eapply wp_step with (R := λ new w', contents w' new = Some A).
  { eapply wp_mono; [by apply wp_Matrix_deepcopy|].
    intros r w'. rewrite (init_check_shape _ _ _ HA) by lia.
    by intros (new & -> & ?). }
  intros new w1 Hm.
  eapply wp_step with (R := λ _ w', contents w' new = Some A).
  { apply wp_when; intros Hb; [|done].
    eapply wp_step_grows with (R := λ _ _, True); [apply _|done|].
    intros [] w2 G2 _. grow G2.
    eapply (wp_print_matrix_shape new n c); [done..|lia]. }
  intros [] w2 Hm2.
  eapply wp_read; [by apply Matrix_len_run|].
  eapply wp_step.
  { eapply (wp_for_refines new _ ref_step_fun (shape n c)); [done..|].
    intros B i w' Hi HB Hm'. apply elem_of_range in Hi. rewrite (proj1 HA) in Hi.
    split; [apply shape_ref_step_fun; [done|lia]|].
    apply (wp_ref_step _ _ n c); [done..|lia]. }
  intros [] w3 Hm3. by apply wp_ret.
Qed.

Lemma wp_ref_no_columns w self A :
  contents w self = Some A → shape n 0 A → (0 < n)%nat → (0 < verbose)%Z →
  wp (ref self verbose) w (raises EmptySequence (λ _, True)).
Proof.
  intros Hself HA Hn Hv. unfold ref.
  eapply wp_step with (R := λ new w', contents w' new = Some A).
  { eapply wp_mono; [by apply wp_Matrix_deepcopy|].
    intros r w'. rewrite (init_check_shape _ _ _ HA) by lia.
    by intros (new & -> & ?). }
  intros new w1 Hm.
  eapply wp_step_raises with (R := λ _, True); [|done].
  destruct (Z.ltb_spec 0 verbose) as [_|?]; [|lia]. simpl.
  eapply wp_step_grows with (R := λ _ _, True); [apply _|done|].
  intros [] w2 G2 _. grow G2.
  unfold wp. rewrite (print_matrix_empty_run _ _ _ Hm); [done|].
  destruct HA as [_ HA]. clear -HA.
  induction HA as [|ys B Hys _ IH]; [done|]. simpl.
  apply length_zero_iff_nil in Hys as ->. done.
Qed.
End ref_top.

(** ** rref *)

Section rref_specs.
Context (verbose : Z) (n c : nat).

Lemma pivot_column A i :
  shape n c A → (i < n)%nat → pivot (A !!! i) ≠ (-1)%Z →
  ∃ k, pivot (A !!! i) = Z.of_nat k ∧ (k < c)%nat ∧ entry A i k ≠ 0.
Proof.
  intros HA Hi Hne. destruct (pivot_cases (A !!! i)) as [?|[k Hk]]; [done|].
  exists k. split; [done|]. apply pivot_some in Hk as (Hkc & Hnz & _).
  by rewrite (shape_lookup_total n c) in Hkc.
Qed.

Lemma shape_rref_step_fun A i :
  shape n c A → (i < n)%nat → shape n c (rref_step_fun A i).
Proof.
  intros HA Hi. unfold rref_step_fun. case_decide; [done|].
  apply shape_foldl_range; [|lia|done]. intros B j Hj HB.
  by apply shape_eliminate_div.
Qed.

Lemma wp_rref_step w new A i :
  contents w new = Some A → shape n c A → (i < n)%nat →
  wp (rref_step new verbose i) w
     (returns (λ _ w', contents w' new = Some (rref_step_fun A i))).
Proof.
  intros Hm HA Hi. pose proof (proj1 HA) as Hn.
  unfold rref_step, rref_step_fun.
  destruct (Matrix_row_run w new A i) as (ri & Eri & Hri); [done|lia|].
  eapply wp_read; [exact Eri|].
  eapply wp_read; [by apply Row_pivot_run|].
  case_decide as Hp; [by apply wp_ret|].
  destruct (pivot_column A i HA Hi Hp) as (k & Ek & Hk & Hnz). rewrite Ek, Nat2Z.id.
  eapply wp_read; [exact Eri|].
  eapply wp_read; [eapply (Row_entry_run _ _ n c A i k); done|].
  eapply wp_step.
  { eapply (wp_for_refines new _ (eliminate_div i k (entry A i k)) (shape n c));
      [done..|].
    intros B j w' Hj HB Hm'. apply elem_of_range in Hj.
    split; [apply shape_eliminate_div; [done|lia..]|].
    apply (wp_rref_eliminate _ _ n c); [done..|lia|done|done]. }
  intros [] w1 Hm1.
  apply wp_when; intros _; [|done].
  eapply (wp_print_matrix_shape new n c); [done| |lia..].
  apply shape_foldl_range; [|lia|done]. intros B j Hj HB.
  by apply shape_eliminate_div.
Qed.

Lemma shape_rref_fun A : shape n c A → shape n c (rref_fun A).
Proof.
  intros HA. unfold rref_fun. pose proof (shape_ref_fun n c A HA) as HR.
  rewrite (proj1 HR).
  apply shape_foldl_range; [|done..]. intros B i Hi HB. by apply shape_rref_step_fun.
Qed.

Lemma wp_rref w self A :
  contents w self = Some A → shape n c A → (0 < n)%nat →
  ((0 < verbose)%Z → (0 < c)%nat) →
  wp (rref self verbose) w
     (returns (λ new w', contents w' new = Some (rref_fun A))).
Proof.
  intros Hself HA Hn Hv. unfold rref.
  eapply wp_step; [by apply (wp_ref verbose n c)|].
  intros new w1 Hm. cbv beta in Hm. pose proof (shape_ref_fun n c A HA) as HR.
  eapply wp_read; [by apply Matrix_len_run|].
  eapply wp_step.
  { eapply (wp_for_refines new _ rref_step_fun (shape n c)); [done..|].
    intros B i w' Hi HB Hm'. apply elem_of_range in Hi. rewrite (proj1 HR) in Hi.
    split; [apply shape_rref_step_fun; [done|lia]|].
    apply wp_rref_step; [done..|lia]. }
  intros [] w2 Hm2. by apply wp_ret.
Qed.

Lemma wp_rref_no_columns w self A :
  contents w self = Some A → shape n 0 A → (0 < n)%nat → (0 < verbose)%Z →
  wp (rref self verbose) w (raises EmptySequence (λ _, True)).
Proof.
  intros Hself HA Hn Hv. unfold rref.
  eapply wp_step_raises; [by eapply (wp_ref_no_columns verbose n)|done].
Qed.
End rref_specs.


(** * Echelon forms and the determinant, on the functional view *)

(** ** Entries of combined rows *)

Lemma lookup_total_ge_zero (xs : list Qc) j : (length xs ≤ j)%nat → xs !!! j = 0.
Proof. intros H. by rewrite list_lookup_total_alt, lookup_ge_None_2. Qed.

Lemma lookup_total_row_neg xs j : row_neg xs !!! j = - (xs !!! j).
Proof.
  unfold row_neg. destruct (decide (j < length xs)%nat).
  - by apply list_lookup_total_fmap.
  - rewrite !lookup_total_ge_zero; rewrite ?length_fmap; [ring|lia..].
Qed.

Lemma lookup_total_row_mul xs k j : row_mul xs k !!! j = xs !!! j * k.
Proof.
  unfold row_mul. destruct (decide (j < length xs)%nat).
  - by rewrite (list_lookup_total_fmap (λ x, x * k)).
  - rewrite !lookup_total_ge_zero; rewrite ?length_fmap; [ring|lia..].
Qed.

Lemma lookup_total_row_add xs ys j :
  length xs = length ys → row_add xs ys !!! j = xs !!! j + ys !!! j.
Proof.
  intros Hlen. unfold row_add. destruct (decide (j < length xs)%nat) as [Hj|Hj].
  - destruct (lookup_lt_is_Some_2 xs j Hj) as [x Hx].
    destruct (lookup_lt_is_Some_2 ys j) as [y Hy]; [lia|].
    rewrite (list_lookup_total_correct _ _ _ Hx), (list_lookup_total_correct _ _ _ Hy).
    apply list_lookup_total_correct. by rewrite lookup_zip_with, Hx, Hy.
  - rewrite !lookup_total_ge_zero; rewrite ?length_zip_with; [ring|lia..].
Qed.

Lemma lookup_total_combine t xi xj col :
  length xi = length xj →
  combine t xi xj !!! col = xj !!! col + - (xi !!! col) * t.
Proof.
  intros Hlen. unfold combine.
  rewrite lookup_total_row_add by (by rewrite length_row_mul, length_row_neg).
  by rewrite lookup_total_row_mul, lookup_total_row_neg.
Qed.

Lemma length_combine t xi xj :
  length xi = length xj → length (combine t xi xj) = length xj.
Proof.
  intros Hlen. unfold combine.
  by rewrite length_row_add; rewrite ?length_row_mul, ?length_row_neg.
Qed.

Lemma eliminate_combine i c A j :
  eliminate i c A j = <[j := combine (entry A j c) (A !!! i) (A !!! j)]> A.
Proof. done. Qed.

Lemma row_mul_mul xs a b : row_mul (row_mul xs a) b = row_mul xs (a * b).
Proof.
  unfold row_mul. rewrite <-list_fmap_compose. apply list_fmap_ext.
  intros _ x _. simpl. ring.
Qed.

Lemma eliminate_div_combine i c p A j :
  eliminate_div i c p A j =
  <[j := combine (entry A j c * (1 / p)) (A !!! i) (A !!! j)]> A.
Proof. unfold eliminate_div, combine. by rewrite row_mul_mul. Qed.

(** A row is unchanged by adding a zero multiple of another. *)
Lemma combine_zero xi xj : length xi = length xj → combine 0 xi xj = xj.
Proof.
  intros Hlen. apply list_eq_same_length with (length xj);
    [done|by apply length_combine|].
  intros col x y Hcol Hx Hy.
  apply list_lookup_total_correct in Hx, Hy.
  rewrite lookup_total_combine in Hx by done. subst. ring.
Qed.

Lemma row_mul_one xs : row_mul xs (1 / 1) = xs.
Proof.
  unfold row_mul. rewrite <-(list_fmap_id xs) at 2. apply list_fmap_ext.
  intros _ x _. simpl. field. done.
Qed.

Lemma Qc_inv_nonzero (x : Qc) : x ≠ 0 → 1 / x ≠ 0.
Proof.
  intros Hx H. assert (1 / x * x = 1) as H1 by (by field).
  rewrite H, Qcmult_0_l in H1. discriminate H1.
Qed.

(** ** A loop that rewrites rows [js] from a fixed row [i] *)

Lemma foldl_rows (g : list Qc → list Qc → list Qc) i js (A : list (list Qc)) :
  NoDup js → i ∉ js → Forall (λ j, j < length A)%nat js →
  length (foldl (λ B j, <[j := g (B !!! i) (B !!! j)]> B) A js) = length A ∧
  ∀ k, foldl (λ B j, <[j := g (B !!! i) (B !!! j)]> B) A js !!! k =
       if decide (k ∈ js) then g (A !!! i) (A !!! k) else A !!! k.
Proof.
  intros Hnd. revert A. induction Hnd as [|j js Hj Hnd IH]; intros A Hi Hjs.
  - split; [done|]. intros k. rewrite decide_False; [done|]. apply not_elem_of_nil.
  - apply not_elem_of_cons in Hi as [Hij Hi].
    apply Forall_cons_1 in Hjs as [Hjlt Hjs]. simpl.
    destruct (IH (<[j := g (A !!! i) (A !!! j)]> A)) as [Hlen Hrows];
      [done|by rewrite length_insert|].
    rewrite length_insert in Hlen. split; [done|]. intros k. rewrite Hrows.
    rewrite (list_lookup_total_insert_ne _ j i) by done.
    destruct (decide (k = j)) as [->|Hkj].
    + rewrite decide_False by done. rewrite decide_True by left.
      by rewrite list_lookup_total_insert_eq.
    + rewrite (list_lookup_total_insert_ne _ j k) by done.
      destruct (decide (k ∈ js)) as [Hk|Hk].
      * rewrite decide_True by (by right). done.
      * rewrite decide_False; [done|]. by intros [?|?]%elem_of_cons.
Qed.

Lemma foldl_id {X Y} (f : X → Y → X) a l :
  (∀ y, y ∈ l → f a y = a) → foldl f a l = a.
Proof.
  induction l as [|y l IH]; intros H; simpl; [done|].
  rewrite H by left. apply IH. intros z Hz. apply H. by right.
Qed.

Lemma NoDup_range lo hi : NoDup (range lo hi).
Proof. apply NoDup_seq. Qed.

Lemma range_snoc lo hi : (lo ≤ hi)%nat → range lo (S hi) = range lo hi ++ [hi].
Proof.
  intros H. unfold range. replace (S hi - lo)%nat with (S (hi - lo)) by lia.
  rewrite seq_S. do 2 f_equal. lia.
Qed.

(** ** Leading zeros *)

Lemma lz_mono q q' xs : (q ≤ q')%nat → lz q' xs → lz q xs.
Proof. intros Hq H col Hcol. apply H. lia. Qed.

Lemma lz_row_mul q xs k : lz q xs → lz q (row_mul xs k).
Proof. intros H col Hcol. rewrite lookup_total_row_mul, H by done. ring. Qed.

Lemma lz_combine q t xi xj :
  length xi = length xj → lz q xi → lz q xj → lz q (combine t xi xj).
Proof.
  intros Hlen Hi Hj col Hcol.
  rewrite lookup_total_combine, Hi, Hj by done. ring.
Qed.

Lemma pivot_none_lookup xs col : pivot xs = (-1)%Z → xs !!! col = 0.
Proof.
  intros H%pivot_none. destruct (decide (col < length xs)%nat) as [Hc|Hc].
  - destruct (lookup_lt_is_Some_2 xs col Hc) as [x Hx].
    rewrite (list_lookup_total_correct _ _ _ Hx).
    by eapply Forall_lookup_1 in H.
  - apply lookup_total_ge_zero. lia.
Qed.

Lemma pivot_none_lz q xs : pivot xs = (-1)%Z → lz q xs.
Proof. intros H col _. by apply pivot_none_lookup. Qed.

Lemma pivot_some_lz xs p : pivot xs = Z.of_nat p → lz p xs.
Proof. by intros (_ & _ & H)%pivot_some. Qed.

Lemma pivot_lz_lt xs p q : pivot xs = Z.of_nat p → lz q xs → (q ≤ p)%nat.
Proof.
  intros (_ & Hnz & _)%pivot_some Hq.
  destruct (decide (q ≤ p)%nat); [done|]. destruct Hnz. apply Hq. lia.
Qed.

(** The pivot of a row depends on the row up to and including it. *)
Lemma pivot_agree xs ys p :
  length xs = length ys → pivot xs = Z.of_nat p →
  (∀ col, (col ≤ p)%nat → ys !!! col = xs !!! col) →
  pivot ys = Z.of_nat p.
Proof.
  intros Hlen (Hp & Hnz & Hz)%pivot_some Hagree. apply pivot_some.
  split; [lia|]. split; [by rewrite Hagree|].
  intros j Hj. rewrite Hagree by lia. by apply Hz.
Qed.

Lemma pivot_row_mul xs k p :
  k ≠ 0 → pivot xs = Z.of_nat p → pivot (row_mul xs k) = Z.of_nat p.
Proof.
  intros Hk (Hp & Hnz & Hz)%pivot_some. apply pivot_some.
  split; [by rewrite length_row_mul|]. split.
  - rewrite lookup_total_row_mul. intros H. apply Qcmult_integral in H as [?|?]; done.
  - intros j Hj. rewrite lookup_total_row_mul, Hz by done. ring.
Qed.

(** ** Row echelon form *)

Section echelon.
Context (n c : nat).

Lemma ref_step_fun_None R m :
  choose_pivot R m = None → ref_step_fun R m = R.
Proof. intros H. unfold ref_step_fun. by rewrite H. Qed.

(** The rows after a round of [ref] that found a pivot. *)
Lemma ref_step_fun_rows R m k r :
  shape n c R → (m < n)%nat → choose_pivot R m = Some (Z.of_nat k, r) →
  let ym := row_mul (R !!! r) (1 / entry R r k) in
  (∀ j, (j < m)%nat → ref_step_fun R m !!! j = R !!! j) ∧
  ref_step_fun R m !!! m = ym ∧
  (∀ j, (m < j < n)%nat →
     ∃ j', (m ≤ j' < n)%nat ∧
           ref_step_fun R m !!! j = combine (entry R j' k) ym (R !!! j')) ∧
  (r = m → ∀ j, (m < j < n)%nat →
     ref_step_fun R m !!! j = combine (entry R j k) ym (R !!! j)).
Proof.
  intros HR Hm Hch ym. pose proof (proj1 HR) as Hn.
  destruct (choose_pivot_column n c _ _ _ _ HR Hch) as (k' & Hk' & Hk & Hr & Hnz).
  apply Nat2Z.inj in Hk' as <-.
  unfold ref_step_fun. rewrite Hch, Nat2Z.id.
  set (A1 := swap_rows m r R).
  set (A2 := <[m := row_mul (A1 !!! m) (1 / entry R r k)]> A1).
  assert (length A2 = n) as HA2 by (unfold A2, A1; by rewrite length_insert, length_swap_rows).
  assert (A2 !!! m = ym) as Hym.
  { unfold A2. rewrite list_lookup_total_insert_eq
      by (unfold A1; rewrite length_swap_rows; lia).
    unfold A1. by rewrite lookup_total_swap_rows_l by lia. }
  assert (∀ j, j ≠ m → A2 !!! j = if decide (j = r) then R !!! m else R !!! j) as Hrest.
  { intros j Hj. unfold A2. rewrite list_lookup_total_insert_ne by done. unfold A1.
    case_decide as Hjr.
    - subst j. by rewrite lookup_total_swap_rows_r by lia.
    - by rewrite lookup_total_swap_rows_ne. }
  change (eliminate m k) with
    (λ (B : list (list Qc)) j,
       <[j := (λ xi xj, combine (xj !!! k) xi xj) (B !!! m) (B !!! j)]> B).
  edestruct (foldl_rows (λ xi xj, combine (xj !!! k) xi xj) m
               (range (m + 1) (length A2)) A2) as [_ Hrows].
  { apply NoDup_range. }
  { rewrite elem_of_range. lia. }
  { apply Forall_forall. intros j Hj%elem_of_range. lia. }
  rewrite HA2 in Hrows |- *.
  split; [|split; [|split]].
  - intros j Hj. rewrite Hrows, decide_False by (rewrite elem_of_range; lia).
    rewrite Hrest by lia. by rewrite decide_False by lia.
  - by rewrite Hrows, decide_False by (rewrite elem_of_range; lia).
  - intros j Hj. rewrite Hrows, decide_True by (rewrite elem_of_range; lia).
    rewrite Hym, Hrest by lia. case_decide.
    + exists m. split; [lia|done].
    + exists j. split; [lia|done].
  - intros -> j Hj. rewrite Hrows, decide_True by (rewrite elem_of_range; lia).
    rewrite Hym, Hrest by lia. by rewrite decide_False by lia.
Qed.

(** Every row from [m] on is zero before the chosen pivot column. *)
Lemma choose_pivot_lz R m k r j :
  choose_pivot R m = Some (Z.of_nat k, r) → (m ≤ j < length R)%nat →
  lz k (R !!! j).
Proof.
  intros (_ & _ & _ & Hmin)%choose_pivot_Some Hj.
  destruct (pivot_cases (R !!! j)) as [Hz|[p Hp]]; [by apply pivot_none_lz|].
  eapply lz_mono; [|by apply pivot_some_lz].
  destruct (Hmin j Hj) as [?|[? _]]; simpl in *; lia.
Qed.

Lemma echelon_upto_step R m :
  shape n c R → (m < n)%nat →
  echelon_upto n m R → echelon_upto n (S m) (ref_step_fun R m).
Proof.
  intros HR Hm Hech. pose proof (proj1 HR) as Hn.
  destruct (choose_pivot R m) as [[p r]|] eqn:Hch.
  - destruct (choose_pivot_column n c _ _ _ _ HR Hch) as (k & -> & Hk & Hr & Hnz).
    destruct (ref_step_fun_rows R m k r HR Hm Hch) as (Hlow & Hmid & Hhigh & _).
    set (s := 1 / entry R r k) in *. set (ym := row_mul (R !!! r) s) in *.
    assert (s ≠ 0) as Hs by (by apply Qc_inv_nonzero).
    assert (pivot (R !!! r) = Z.of_nat k) as Hpr
      by (by destruct (choose_pivot_Some _ _ _ _ Hch) as (_ & ? & _)).
    assert (pivot ym = Z.of_nat k) as Hpym by (by apply pivot_row_mul).
    assert (ym !!! k = 1) as Hone.
    { unfold ym. rewrite lookup_total_row_mul. unfold s.
      fold (entry R r k). field. done. }
    assert (length ym = c) as Hlym
      by (unfold ym; rewrite length_row_mul; apply (shape_lookup_total n); [done|lia]).
    assert (∀ j q, (m < j < n)%nat → lz q ym →
              (∀ j', (m ≤ j' < n)%nat → lz q (R !!! j')) →
              lz q (ref_step_fun R m !!! j)) as Hlz.
    { intros j q Hj Hq1 Hq2. destruct (Hhigh j Hj) as (j' & Hj' & ->).
      apply lz_combine; [|done|by apply Hq2].
      rewrite Hlym. symmetry. apply (shape_lookup_total n); [done|lia]. }
    intros i Hi Hin. destruct (decide (i = m)) as [->|Hne].
    + rewrite Hmid. split; [|intros H; rewrite Hpym in H; lia].
      intros p Hp. rewrite Hpym in Hp. apply Nat2Z.inj in Hp as <-.
      split; [unfold entry; by rewrite Hmid|].
      intros j Hj. destruct (Hhigh j Hj) as (j' & Hj' & ->).
      assert (lz k (R !!! j')) as Hj'z
        by (eapply choose_pivot_lz; [done|lia]).
      intros col Hcol. rewrite lookup_total_combine
        by (rewrite Hlym; symmetry; apply (shape_lookup_total n); [done|lia]).
      destruct (decide (col = k)) as [->|Hck].
      * rewrite Hone. unfold entry. ring.
      * rewrite Hj'z by lia. rewrite (pivot_some_lz _ _ Hpym) by lia. ring.
    + assert (i < m)%nat as Him by lia.
      destruct (Hech i Him Hin) as [H1 H2]. rewrite Hlow by done. split.
      * intros p Hp. destruct (H1 p Hp) as [He Hbelow].
        split; [unfold entry in *; by rewrite Hlow|].
        intros j Hj. destruct (decide (j < m)%nat) as [Hjm|Hjm];
          [rewrite Hlow by done; apply Hbelow; lia|].
        assert (lz (S p) ym) as Hymz by (apply lz_row_mul, Hbelow; lia).
        destruct (decide (j = m)) as [->|Hjne]; [by rewrite Hmid|].
        apply Hlz; [lia|done|]. intros j' Hj'. apply Hbelow. lia.
      * intros Hz. specialize (H2 Hz r). rewrite H2 in Hpr by lia. lia.
  - rewrite (ref_step_fun_None _ _ Hch).
    intros i Hi Hin. destruct (decide (i = m)) as [->|Hne].
    + pose proof (choose_pivot_None _ _ m Hch) as Hz. split.
      * intros p Hp. rewrite Hz in Hp by lia. lia.
      * intros _ j Hj. apply (choose_pivot_None _ _ j Hch). lia.
    + apply Hech; [lia|done].
Qed.

Lemma echelon_upto_ref_rounds A m :
  shape n c A → (m ≤ n)%nat →
  shape n c (foldl ref_step_fun A (range 0 m)) ∧
  echelon_upto n m (foldl ref_step_fun A (range 0 m)).
Proof.
  intros HA. induction m as [|m IH]; intros Hm.
  - split; [done|]. intros i Hi. lia.
  - destruct IH as [Hs He]; [lia|].
    rewrite range_snoc, foldl_app by lia. simpl. split.
    + apply shape_ref_step_fun; [done|lia].
    + apply echelon_upto_step; [done|lia|done].
Qed.

Lemma echelon_ref_fun A : shape n c A → echelon_upto n n (ref_fun A).
Proof.
  intros HA. unfold ref_fun. rewrite (proj1 HA).
  by apply echelon_upto_ref_rounds.
Qed.
End echelon.

(** ** Reduced row echelon form *)

Section reduced.
Context (n c : nat).

Lemma rref_step_fun_none R m :
  pivot (R !!! m) = (-1)%Z → rref_step_fun R m = R.
Proof. intros H. unfold rref_step_fun. by rewrite decide_True. Qed.

Lemma rref_step_fun_rows R m k :
  shape n c R → (m < n)%nat → pivot (R !!! m) = Z.of_nat k →
  (∀ j, (j < m)%nat →
     rref_step_fun R m !!! j =
     combine (entry R j k * (1 / entry R m k)) (R !!! m) (R !!! j)) ∧
  (∀ j, (m ≤ j)%nat → rref_step_fun R m !!! j = R !!! j).
Proof.
  intros HR Hm Hp. pose proof (proj1 HR) as Hn.
  unfold rref_step_fun. rewrite Hp, decide_False by lia. rewrite Nat2Z.id.
  change (eliminate_div m k (entry R m k)) with
    (λ (B : list (list Qc)) j,
       <[j := (λ xi xj, row_add xj (row_mul (row_mul (row_neg xi) (xj !!! k))
                                      (1 / entry R m k))) (B !!! m) (B !!! j)]> B).
  edestruct (foldl_rows
    (λ xi xj, row_add xj (row_mul (row_mul (row_neg xi) (xj !!! k))
                            (1 / entry R m k))) m (range 0 m) R) as [_ Hrows].
  { apply NoDup_range. }
  { rewrite elem_of_range. lia. }
  { apply Forall_forall. intros j Hj%elem_of_range. lia. }
  split.
  - intros j Hj. rewrite Hrows, decide_True by (rewrite elem_of_range; lia).
    unfold combine. by rewrite row_mul_mul.
  - intros j Hj. by rewrite Hrows, decide_False by (rewrite elem_of_range; lia).
Qed.

Lemma rref_step_fun_keeps R m :
  shape n c R → (m < n)%nat → echelon_upto n n R → cleared_upto n m R →
  echelon_upto n n (rref_step_fun R m) ∧ cleared_upto n (S m) (rref_step_fun R m).
Proof.
  intros HR Hm Hech Hcl. pose proof (proj1 HR) as Hn.
  destruct (pivot_cases (R !!! m)) as [Hz|[k Hk]].
  { rewrite (rref_step_fun_none _ _ Hz). split; [done|].
    intros i Hi Hin p Hp j Hj. destruct (decide (i = m)) as [->|Hne].
    - rewrite Hz in Hp. lia.
    - eapply Hcl; [| |done|done]; lia. }
  destruct (rref_step_fun_rows R m k HR Hm Hk) as [Hlow Hhigh].
  set (R' := rref_step_fun R m) in *.
  assert (∀ j, (j < n)%nat → length (R !!! j) = c) as Hlen
    by (intros j Hj; by apply (shape_lookup_total n)).
  (* a row above [m] has a pivot, and row [m] is zero up to it *)
  assert (∀ j, (j < m)%nat → ∃ p : nat, pivot (R !!! j) = Z.of_nat p ∧
             lz (S p) (R !!! m)) as Habove.
  { intros j Hj. destruct (Hech j) as [H1 H2]; [lia..|].
    destruct (pivot_cases (R !!! j)) as [Hzj|[p Hp]].
    - rewrite (H2 Hzj m) in Hk by lia. lia.
    - exists p. split; [done|]. apply (H1 p Hp). lia. }
  (* rows above [m] keep their entries up to their pivot *)
  assert (∀ j p col, (j < m)%nat → pivot (R !!! j) = Z.of_nat p → (col ≤ p)%nat →
             (R' !!! j) !!! col = (R !!! j) !!! col) as Hagree.
  { intros j p col Hj Hp Hcol. rewrite Hlow by done.
    rewrite lookup_total_combine by (rewrite !Hlen; [done|lia..]).
    destruct (Habove j Hj) as (p' & Hp' & Hzm).
    assert (p' = p) as -> by (rewrite Hp in Hp'; lia).
    rewrite Hzm by lia. ring. }
  assert (∀ i, (i < n)%nat → pivot (R' !!! i) = pivot (R !!! i)) as Hpiv.
  { intros i Hi. destruct (decide (i < m)%nat) as [Him|Him];
      [|by rewrite Hhigh by lia].
    destruct (Habove i Him) as (p & Hp & _). rewrite Hp.
    apply (pivot_agree (R !!! i)); [|done|].
    - rewrite Hlow by done. rewrite length_combine; rewrite !Hlen; [done|lia..].
    - intros col Hcol. by eapply Hagree. }
  split.
  - intros i Hi _. rewrite (Hpiv i Hi). destruct (Hech i Hi Hi) as [H1 H2]. split.
    + intros p Hp. destruct (H1 p Hp) as [He Hbelow]. split.
      * unfold entry in *. destruct (decide (i < m)%nat) as [Him|Him].
        -- by erewrite Hagree.
        -- by rewrite Hhigh by lia.
      * intros j Hj. destruct (decide (j < m)%nat) as [Hjm|Hjm];
          [|rewrite Hhigh by lia; by apply Hbelow].
        rewrite Hlow by done.
        apply lz_combine; [rewrite !Hlen; [done|lia..]| |]; apply Hbelow; lia.
    + intros Hzi j Hj. rewrite (Hpiv j) by lia. by apply H2.
  - intros i Hi Hin p Hp j Hj. rewrite (Hpiv i Hin) in Hp.
    unfold entry. rewrite Hlow by lia.
    rewrite lookup_total_combine by (rewrite !Hlen; [done|lia..]).
    destruct (decide (i = m)) as [->|Hne].
    + assert (p = k) as -> by (rewrite Hk in Hp; lia).
      apply pivot_some in Hk as (_ & Hnz & _). unfold entry. field. done.
    + destruct (Hech i Hin Hin) as [H1 _]. destruct (H1 p Hp) as [_ Hbelow].
      rewrite (Hbelow m) by lia.
      fold (entry R j p). rewrite (Hcl i) with (p := p) (j := j); [ring|lia|done..].
Qed.

Lemma rref_rounds R m :
  shape n c R → echelon_upto n n R → (1 ≤ m ≤ n)%nat →
  shape n c (foldl rref_step_fun R (range 1 m)) ∧
  echelon_upto n n (foldl rref_step_fun R (range 1 m)) ∧
  cleared_upto n m (foldl rref_step_fun R (range 1 m)).
Proof.
  intros HR Hech [H1 Hm]. induction m as [|m IH]; [lia|].
  destruct (decide (m = 0%nat)) as [->|Hm0].
  - split; [done|]. split; [done|]. intros i Hi _ p _ j Hj. lia.
  - destruct IH as (Hs & He & Hc); [lia..|].
    rewrite range_snoc, foldl_app by lia. simpl.
    split; [apply (shape_rref_step_fun n c); [done|lia]|].
    apply rref_step_fun_keeps; [done|lia|done..].
Qed.

Lemma reduced_rref_fun A :
  shape n c A → (0 < n)%nat →
  echelon_upto n n (rref_fun A) ∧ cleared_upto n n (rref_fun A).
Proof.
  intros HA Hn. unfold rref_fun.
  pose proof (shape_ref_fun n c A HA) as HR. rewrite (proj1 HR).
  apply rref_rounds; [done|by apply (echelon_ref_fun n c)|lia].
Qed.

(** ** Matrices already in form are left as they are *)

Lemma rows_eq (R R' : list (list Qc)) :
  length R = n → length R' = n →
  (∀ j, (j < n)%nat → R' !!! j = R !!! j) → R' = R.
Proof.
  intros HR HR' H. apply list_eq_same_length with n; [done..|].
  intros j x y Hj Hx Hy. apply list_lookup_total_correct in Hx, Hy.
  rewrite <-Hx, <-Hy. by apply H.
Qed.

Lemma ref_step_fun_fixed R m :
  shape n c R → (m < n)%nat → echelon_upto n n R → ref_step_fun R m = R.
Proof.
  intros HR Hm Hech. pose proof (proj1 HR) as Hn.
  destruct (choose_pivot R m) as [[p r]|] eqn:Hch;
    [|by apply ref_step_fun_None].
  destruct (choose_pivot_column n c _ _ _ _ HR Hch) as (k & -> & Hk & Hr & Hnz).
  destruct (choose_pivot_Some _ _ _ _ Hch) as (_ & Hpr & _ & Hmin). symmetry in Hpr.
  destruct (Hech m Hm Hm) as [H1 H2].
  destruct (pivot_cases (R !!! m)) as [Hz|[pm Hpm]].
  { destruct (decide (r = m)) as [->|Hne]; [rewrite Hz in Hpr; lia|].
    rewrite (H2 Hz r) in Hpr by lia. lia. }
  destruct (H1 pm Hpm) as [Hone Hbelow].
  assert (r = m) as ->.
  { destruct (decide (r = m)) as [|Hne]; [done|]. exfalso.
    assert (S pm ≤ k)%nat by (eapply pivot_lz_lt; [done|apply Hbelow; lia]).
    destruct (Hmin m) as [?|[? ?]]; simpl in *; rewrite ?Hpm in *; lia. }
  assert (pm = k) as -> by (rewrite Hpm in Hpr; lia).
  destruct (ref_step_fun_rows n c R m k m HR Hm Hch) as (Hlow & Hmid & _ & Hhigh).
  rewrite Hone, row_mul_one in Hmid, Hhigh.
  apply rows_eq; [done|by apply (shape_ref_step_fun n c)|].
  intros j Hj. destruct (Nat.lt_trichotomy j m) as [Hlt|[->|Hgt]].
  - by apply Hlow.
  - done.
  - rewrite Hhigh by (done || lia).
    assert (entry R j k = 0) as -> by (apply (Hbelow j); lia).
    apply combine_zero. by rewrite !(shape_lookup_total n c).
Qed.

Lemma ref_fun_fixed R : shape n c R → echelon_upto n n R → ref_fun R = R.
Proof.
  intros HR Hech. unfold ref_fun. apply foldl_id.
  intros m Hm%elem_of_range. rewrite (proj1 HR) in Hm.
  apply ref_step_fun_fixed; [done|lia|done].
Qed.

Lemma rref_step_fun_fixed R m :
  shape n c R → (m < n)%nat → echelon_upto n n R → cleared_upto n n R →
  rref_step_fun R m = R.
Proof.
  intros HR Hm Hech Hcl.
  destruct (pivot_cases (R !!! m)) as [Hz|[k Hk]];
    [by apply rref_step_fun_none|].
  destruct (rref_step_fun_rows R m k HR Hm Hk) as [Hlow Hhigh].
  apply rows_eq; [apply HR|by apply (shape_rref_step_fun n c)|].
  intros j Hj. destruct (decide (j < m)%nat) as [Hjm|Hjm];
    [|apply Hhigh; lia].
  rewrite Hlow by done. rewrite (Hcl m Hm Hm k Hk j Hjm).
  replace (0 * (1 / entry R m k)) with 0 by ring.
  apply combine_zero. by rewrite !(shape_lookup_total n c).
Qed.

Lemma rref_fun_fixed R :
  shape n c R → echelon_upto n n R → cleared_upto n n R → rref_fun R = R.
Proof.
  intros HR Hech Hcl. unfold rref_fun. rewrite (ref_fun_fixed R) by done.
  apply foldl_id. intros m Hm%elem_of_range. rewrite (proj1 HR) in Hm.
  apply rref_step_fun_fixed; [done|lia|done..].
Qed.

Lemma rref_fun_idempotent A :
  shape n c A → (0 < n)%nat → rref_fun (rref_fun A) = rref_fun A.
Proof.
  intros HA Hn. destruct (reduced_rref_fun A HA Hn) as [He Hc].
  apply rref_fun_fixed; [by apply (shape_rref_fun n c)|done..].
Qed.
End reduced.

(** ** Linear dependence of the rows, and the determinant *)

Lemma lin_insert cs A j x r col :
  (j < length cs)%nat → (j < length A)%nat →
  lin (<[j := x]> cs) (<[j := r]> A) col =
  lin cs A col - cs !!! j * (A !!! j) !!! col + x * r !!! col.
Proof.
  revert A j. induction cs as [|ck cs IH]; intros [|row A] [|j] Hc HA;
    simpl in *; try lia.
  - unfold lin. simpl. ring.
  - unfold lin in *. simpl. rewrite IH by lia. ring.
Qed.

Lemma lin_insert_row cs A j r col :
  (j < length cs)%nat → (j < length A)%nat →
  lin cs (<[j := r]> A) col =
  lin cs A col - cs !!! j * (A !!! j) !!! col + cs !!! j * r !!! col.
Proof.
  intros Hc HA. rewrite <-(lin_insert cs A j (cs !!! j) r col) by done.
  by rewrite (list_insert_id cs j (cs !!! j))
    by (by apply list_lookup_lookup_total_lt).
Qed.

Lemma lin_insert_coeff cs A j x col :
  (j < length cs)%nat → (j < length A)%nat →
  lin (<[j := x]> cs) A col =
  lin cs A col - cs !!! j * (A !!! j) !!! col + x * (A !!! j) !!! col.
Proof.
  intros Hc HA. rewrite <-(lin_insert cs A j x (A !!! j) col) by done.
  by rewrite (list_insert_id A j (A !!! j))
    by (by apply list_lookup_lookup_total_lt).
Qed.

Lemma lin_zero cs A col :
  (∀ j, (j < length cs)%nat → (j < length A)%nat →
        cs !!! j * (A !!! j) !!! col = 0) →
  lin cs A col = 0.
Proof.
  revert A. induction cs as [|ck cs IH]; intros [|row A] H; try done.
  unfold lin in *. simpl. rewrite IH.
  - pose proof (H 0%nat) as H0. simpl in H0. rewrite H0 by lia. ring.
  - intros j ??. apply (H (S j)); simpl; lia.
Qed.

Lemma lin_single cs A k col :
  (k < length cs)%nat → (k < length A)%nat →
  (∀ j, (j < length cs)%nat → (j < length A)%nat → j ≠ k →
        cs !!! j * (A !!! j) !!! col = 0) →
  lin cs A col = cs !!! k * (A !!! k) !!! col.
Proof.
  revert A k. induction cs as [|ck cs IH]; intros [|row A] [|k] Hc HA H;
    simpl in *; try lia.
  - change (lin (ck :: cs) (row :: A) col) with (ck * row !!! col + lin cs A col).
    rewrite lin_zero; [ring|]. intros j ??. apply (H (S j)); simpl; lia.
  - change (lin (ck :: cs) (row :: A) col) with (ck * row !!! col + lin cs A col).
    rewrite (IH A k) by (try lia; intros j ???; apply (H (S j)); simpl; lia).
    pose proof (H 0%nat) as H0. simpl in H0. rewrite H0 by lia. ring.
Qed.

Lemma dependent_swap_rows A i k :
  (i < length A)%nat → (k < length A)%nat → i ≠ k →
  dependent A → dependent (swap_rows i k A).
Proof.
  intros Hi Hk Hne (cs & Hlen & (z & Hz & Hnz) & Hlin).
  exists (<[k := cs !!! i]> (<[i := cs !!! k]> cs)).
  split; [by rewrite length_swap_rows, !length_insert|]. split.
  - rewrite !length_insert. destruct (decide (z = i)) as [->|Hzi].
    + exists k. split; [lia|]. by rewrite list_lookup_total_insert_eq
        by (rewrite length_insert; lia).
    + destruct (decide (z = k)) as [->|Hzk].
      * exists i. split; [lia|]. rewrite list_lookup_total_insert_ne by done.
        by rewrite list_lookup_total_insert_eq by lia.
      * exists z. split; [done|]. by rewrite !list_lookup_total_insert_ne.
  - intros col. unfold swap_rows.
    rewrite lin_insert by (rewrite length_insert; lia).
    rewrite lin_insert by lia.
    rewrite !list_lookup_total_insert_ne by done. rewrite Hlin. ring.
Qed.

Lemma dependent_combine A i j t :
  (i < length A)%nat → (j < length A)%nat → i ≠ j →
  length (A !!! i) = length (A !!! j) →
  dependent A → dependent (<[j := combine t (A !!! i) (A !!! j)]> A).
Proof.
  intros Hi Hj Hne Hrow (cs & Hlen & (z & Hz & Hnz) & Hlin).
  exists (<[i := cs !!! i + cs !!! j * t]> cs).
  split; [by rewrite !length_insert|]. split.
  - rewrite length_insert. destruct (decide (cs !!! j = 0)) as [Hj0|Hj0].
    + exists z. split; [done|]. destruct (decide (z = i)) as [->|Hzi].
      * rewrite list_lookup_total_insert_eq by lia. rewrite Hj0.
        by replace (cs !!! i + 0 * t) with (cs !!! i) by ring.
      * by rewrite list_lookup_total_insert_ne.
    + exists j. split; [lia|]. by rewrite list_lookup_total_insert_ne.
  - intros col.
    rewrite lin_insert_coeff by (rewrite ?length_insert; lia).
    rewrite lin_insert_row by lia.
    rewrite list_lookup_total_insert_ne by done.
    rewrite lookup_total_combine by done. rewrite Hlin. ring.
Qed.

Lemma foldl_preserves {X Y} (P : X → Prop) (f : X → Y → X) l a :
  (∀ b y, y ∈ l → P b → P (f b y)) → P a → P (foldl f a l).
Proof.
  revert a. induction l as [|y l IH]; intros a Hf Ha; simpl; [done|].
  apply IH; [|apply Hf; [left|done]]. intros b z Hz. apply Hf. by right.
Qed.

Section triangular.
Context (n : nat).

Lemma det_step_fun_rows A neg m k :
  shape n n A → (m < n)%nat →
  first_nonzero A m (range m (length A)) = Some k →
  let A1 := if decide (k ≠ m) then swap_rows m k A else A in
  let U := (det_step_fun (A, neg) m).1 in
  (m ≤ k < n)%nat ∧ entry A1 m m ≠ 0 ∧ shape n n A1 ∧
  (∀ j, (j ≤ m)%nat → U !!! j = A1 !!! j) ∧
  (∀ j, (m < j < n)%nat →
     U !!! j = combine (entry A1 j m * (1 / entry A1 m m)) (A1 !!! m) (A1 !!! j)).
Proof.
  intros HA Hm Hf A1 U. pose proof (proj1 HA) as Hn.
  unfold U, det_step_fun. simpl. rewrite Hf. simpl. fold A1.
  apply first_nonzero_Some in Hf as [Hk Hnz]. apply elem_of_range in Hk.
  assert (shape n n A1) as HA1.
  { unfold A1. case_decide; [apply shape_swap_rows; [done|lia..]|done]. }
  assert (entry A1 m m ≠ 0) as Hpv.
  { unfold A1, entry. case_decide as Hkm.
    - by rewrite lookup_total_swap_rows_l by lia.
    - by subst k. }
  split; [lia|]. split; [done|]. split; [done|].
  change (eliminate_div m m (entry A1 m m)) with
    (λ (B : list (list Qc)) j,
       <[j := (λ xi xj, row_add xj (row_mul (row_mul (row_neg xi) (xj !!! m))
                                      (1 / entry A1 m m))) (B !!! m) (B !!! j)]> B).
  edestruct (foldl_rows
    (λ xi xj, row_add xj (row_mul (row_mul (row_neg xi) (xj !!! m))
                            (1 / entry A1 m m))) m
    (range (m + 1) (length A1)) A1) as [_ Hrows].
  { apply NoDup_range. }
  { rewrite elem_of_range. lia. }
  { apply Forall_forall. intros j Hj%elem_of_range. lia. }
  rewrite (proj1 HA1) in Hrows |- *. split.
  - intros j Hj. by rewrite Hrows, decide_False by (rewrite elem_of_range; lia).
  - intros j Hj. rewrite Hrows, decide_True by (rewrite elem_of_range; lia).
    unfold combine. by rewrite row_mul_mul.
Qed.

Lemma det_step_fun_keeps A neg m :
  shape n n A → (m < n)%nat → lower_zero_upto n m A → dependent A →
  lower_zero_upto n (S m) (det_step_fun (A, neg) m).1 ∧
  dependent (det_step_fun (A, neg) m).1.
Proof.
  intros HA Hm Hlow Hdep. pose proof (proj1 HA) as Hn.
  destruct (first_nonzero A m (range m (length A))) as [k|] eqn:Hf.
  - destruct (det_step_fun_rows A neg m k HA Hm Hf)
      as (Hk & Hpv & HA1 & Hsame & Hcomb).
    set (A1 := if decide (k ≠ m) then swap_rows m k A else A) in *.
    set (U := (det_step_fun (A, neg) m).1) in *.
    assert (∀ j, (j < n)%nat → length (A1 !!! j) = n) as Hlen
      by (intros j Hj; by apply (shape_lookup_total n)).
    assert (lower_zero_upto n m A1) as Hlow1.
    { unfold A1. case_decide as Hkm; [|done]. intros i j Hi Hj. unfold entry.
      destruct (decide (j = m)) as [->|Hjm];
        [rewrite lookup_total_swap_rows_l by lia; apply Hlow; lia|].
      destruct (decide (j = k)) as [->|Hjk];
        [rewrite lookup_total_swap_rows_r by lia; apply Hlow; lia|].
      rewrite lookup_total_swap_rows_ne by done. by apply Hlow. }
    assert (dependent A1) as Hdep1.
    { unfold A1. case_decide as Hkm; [|done].
      apply dependent_swap_rows; [lia..|done|done]. }
    split.
    + intros i j Hi Hj. unfold entry.
      destruct (decide (j ≤ m)%nat) as [Hjm|Hjm];
        [rewrite Hsame by done; apply Hlow1; lia|].
      rewrite Hcomb by lia.
      rewrite lookup_total_combine by (rewrite !Hlen; [done|lia..]).
      destruct (decide (i = m)) as [->|Him].
      * unfold entry. field. done.
      * fold (entry A1 j i). fold (entry A1 m i).
        rewrite (Hlow1 i j), (Hlow1 i m) by lia. ring.
    + unfold U, det_step_fun. simpl. rewrite Hf. simpl. fold A1.
      enough (shape n n (foldl (eliminate_div m m (entry A1 m m)) A1
                           (range (m + 1) (length A1))) ∧
              dependent (foldl (eliminate_div m m (entry A1 m m)) A1
                           (range (m + 1) (length A1)))) as [_ ?]; [done|].
      apply (foldl_preserves (λ B, shape n n B ∧ dependent B)); [|done].
      intros B j Hj%elem_of_range (HB & HBdep).
      rewrite (proj1 HA1) in Hj.
      split; [apply shape_eliminate_div; [done|lia..]|].
      rewrite eliminate_div_combine.
      apply dependent_combine; [rewrite (proj1 HB); lia..|lia| |done].
      rewrite !(shape_lookup_total n n B) by (done || lia). done.
  - unfold det_step_fun. simpl. rewrite Hf. simpl. split; [|done].
    intros i j Hi Hj. destruct (decide (i = m)) as [->|Him];
      [|apply Hlow; lia].
    apply (first_nonzero_None _ _ _ _ Hf), elem_of_range. lia.
Qed.

Lemma det_elim_keeps A m :
  shape n n A → dependent A → (m ≤ n)%nat →
  shape n n (foldl det_step_fun (A, 1%Z) (range 0 m)).1 ∧
  lower_zero_upto n m (foldl det_step_fun (A, 1%Z) (range 0 m)).1 ∧
  dependent (foldl det_step_fun (A, 1%Z) (range 0 m)).1.
Proof.
  intros HA Hdep. induction m as [|m IH]; intros Hm.
  - split; [done|]. split; [|done]. intros i j Hi. lia.
  - destruct IH as (Hs & Hl & Hd); [lia|].
    rewrite range_snoc, foldl_app by lia. simpl.
    destruct (foldl det_step_fun (A, 1%Z) (range 0 m)) as [B neg]. simpl in *.
    split; [apply shape_det_step_fun; [done|lia]|].
    apply det_step_fun_keeps; [done|lia|done..].
Qed.

Lemma foldl_product_nonzero {X} (f : X → Qc) a l :
  foldl (λ a x, a * f x) a l ≠ 0 → ∀ x, x ∈ l → f x ≠ 0.
Proof.
  revert a. induction l as [|y l IH]; intros a H x Hx;
    [by apply elem_of_nil in Hx|].
  simpl in H. apply elem_of_cons in Hx as [->|Hx]; [|by eapply IH].
  intros Hy. apply H. rewrite Hy. replace (a * 0) with 0 by ring.
  clear. induction l as [|z l IH]; simpl; [done|].
  by replace (0 * f z) with 0 by ring.
Qed.

Lemma triangular_dependent U :
  shape n n U → lower_zero_upto n n U → dependent U → diag_product U = 0.
Proof.
  intros HU Hlow (cs & Hlen & (z & Hz & Hnz) & Hlin).
  pose proof (proj1 HU) as Hn.
  destruct (decide (diag_product U = 0)) as [|Hprod]; [done|]. exfalso.
  assert (∀ i, (i < n)%nat → entry U i i ≠ 0) as Hdiag.
  { intros i Hi. apply (foldl_product_nonzero (λ k, entry U k k) _ _ Hprod).
    apply elem_of_range. lia. }
  assert (∀ k, (k < n)%nat → cs !!! k = 0) as Hcs.
  { intros k. induction k as [k IH] using lt_wf_ind. intros Hk.
    specialize (Hlin k).
    rewrite (lin_single cs U k k) in Hlin; [|lia..|].
    - apply Qcmult_integral in Hlin as [?|Hd]; [done|]. by destruct (Hdiag k).
    - intros j Hjc HjU Hne. destruct (decide (j < k)%nat) as [Hjk|Hjk].
      + rewrite IH by lia. ring.
      + fold (entry U j k). rewrite (Hlow k j) by lia. ring. }
  apply Hnz, Hcs. lia.
Qed.

Lemma det_fun_dependent A : shape n n A → dependent A → det_fun A = 0.
Proof.
  intros HA Hdep. unfold det_fun, det_elim. rewrite (proj1 HA).
  destruct (det_elim_keeps A n HA Hdep) as (Hs & Hl & Hd); [lia|].
  rewrite (triangular_dependent _ Hs Hl Hd). ring.
Qed.

Lemma dependent_zero_row A z :
  shape n n A → (z < n)%nat → pivot (A !!! z) = (-1)%Z → dependent A.
Proof.
  intros HA Hz Hzero. pose proof (proj1 HA) as Hn.
  exists (<[z := 1]> (replicate n 0)).
  split; [by rewrite length_insert, length_replicate|]. split.
  - exists z. rewrite length_insert, length_replicate. split; [done|].
    by rewrite list_lookup_total_insert_eq by (by rewrite length_replicate).
  - intros col.
    rewrite (lin_single _ A z col);
      rewrite ?length_insert, ?length_replicate; [|lia..|].
    + rewrite (pivot_none_lookup _ col Hzero). ring.
    + intros j Hj _ Hne. rewrite list_lookup_total_insert_ne by congruence.
      rewrite lookup_total_replicate_2 by done. ring.
Qed.

Lemma dependent_equal_rows A a b :
  shape n n A → (a < n)%nat → (b < n)%nat → a ≠ b → A !!! a = A !!! b →
  dependent A.
Proof.
  intros HA Ha Hb Hne Heq. pose proof (proj1 HA) as Hn.
  exists (<[a := 1]> (<[b := -1]> (replicate n 0))).
  split; [by rewrite !length_insert, length_replicate|]. split.
  - exists a. rewrite !length_insert, length_replicate. split; [done|].
    by rewrite list_lookup_total_insert_eq
      by (by rewrite length_insert, length_replicate).
  - intros col.
    rewrite lin_insert_coeff by (rewrite ?length_insert, ?length_replicate; lia).
    rewrite (lin_single _ A b col);
      rewrite ?length_insert, ?length_replicate; [|lia..|].
    + rewrite (list_lookup_total_insert_ne _ b a) by congruence.
      rewrite list_lookup_total_insert_eq by (by rewrite length_replicate).
      rewrite lookup_total_replicate_2 by done. rewrite Heq. ring.
    + intros j Hj _ Hjb. rewrite list_lookup_total_insert_ne by congruence.
      rewrite lookup_total_replicate_2 by done. ring.
Qed.
End triangular.


(** * Construction: the two checks of [Matrix.__init__] *)

Lemma row_lengths_elem_of (x : list (list Qc)) k :
  k ∈@{gset nat} list_to_set (length <$> x) ↔ ∃ xs, xs ∈ x ∧ length xs = k.
Proof.
  rewrite elem_of_list_to_set, list_elem_of_fmap. split.
  - intros (xs & -> & Hxs). eauto.
  - intros (xs & Hxs & <-). eauto.
Qed.

Lemma row_lengths_size_ragged (x : list (list Qc)) :
  (1 < size (list_to_set (length <$> x) : gset nat))%nat ↔ ragged x.
Proof.
  split.
  - intros Hsz. destruct x as [|x0 x].
    { vm_compute in Hsz. lia. }
    destruct (decide (Forall (λ xs, length xs = length x0) (x0 :: x))) as [Hall|Hex].
    + exfalso.
      assert (list_to_set (length <$> x0 :: x) ⊆@{gset nat} {[length x0]}) as Hsub.
      { intros k. rewrite row_lengths_elem_of. intros (xs & Hxs & <-).
        rewrite Forall_forall in Hall. apply elem_of_singleton. by apply Hall. }
      apply subseteq_size in Hsub. rewrite size_singleton in Hsub. lia.
    + apply not_Forall_Exists in Hex; [|apply _].
      apply Exists_exists in Hex as (xs & Hxs & Hne).
      exists xs, x0. split; [done|]. split; [left|done].
  - intros (xs & ys & Hxs & Hys & Hne).
    assert ({[length xs]} ∪ {[length ys]} ⊆@{gset nat} list_to_set (length <$> x))
      as Hsub.
    { intros k. rewrite elem_of_union, !elem_of_singleton, row_lengths_elem_of.
      intros [->| ->]; eauto. }
    apply subseteq_size in Hsub.
    rewrite size_union, !size_singleton in Hsub; [lia|].
    intros k. rewrite !elem_of_singleton. congruence.
Qed.

Lemma init_check_cases (x : list (list Qc)) :
  (x = [] ∧ init_check x = Some EmptyMatrix) ∨
  (x ≠ [] ∧ ragged x ∧
   init_check x =
     Some (RaggedRows (merge_sort Nat.le
             (elements (list_to_set (length <$> x) : gset nat))))) ∨
  (x ≠ [] ∧ ¬ ragged x ∧ init_check x = None).
Proof.
  unfold init_check. destruct x as [|x0 x]; [by left|right]. simpl length.
  rewrite decide_False by lia. case_decide as Hsz.
  - left. split; [done|]. split; [|done]. by apply row_lengths_size_ragged.
  - right. split; [done|]. split; [|done]. by rewrite <-row_lengths_size_ragged.
Qed.

Lemma sorted_lengths_spec (x : list (list Qc)) (ls : list nat) :
  ls = merge_sort Nat.le (elements (list_to_set (length <$> x) : gset nat)) ↔
  Sorted Nat.le ls ∧ NoDup ls ∧ ∀ k, k ∈ ls ↔ ∃ xs, xs ∈ x ∧ length xs = k.
Proof.
  set (S := list_to_set (length <$> x) : gset nat).
  assert (Sorted Nat.le (merge_sort Nat.le (elements S))) as H1
    by (apply Sorted_merge_sort; apply _).
  assert (NoDup (merge_sort Nat.le (elements S))) as H2.
  { rewrite merge_sort_Permutation. apply NoDup_elements. }
  assert (∀ k, k ∈ merge_sort Nat.le (elements S) ↔ ∃ xs, xs ∈ x ∧ length xs = k)
    as H3.
  { intros k. rewrite merge_sort_Permutation, elem_of_elements.
    apply row_lengths_elem_of. }
  split; [by intros ->|]. intros (Hs & Hn & Hk).
  apply (Sorted_unique Nat.le); [done..|].
  apply NoDup_Permutation; [done..|]. intros k. by rewrite Hk, H3.
Qed.

(** C5. [Matrix(x)] fails with the empty-matrix error exactly for [x = []];
    it fails with the ragged-rows error, carrying the distinct row lengths
    in increasing order, exactly when two rows differ in length; it
    succeeds, with the rows of [x] as its contents, for every non-empty [x]
    whose rows have one length.  [[1,2],[3,4,5]] gives the lengths [2, 3]
    and [] the empty-matrix error. *)
Theorem Matrix_new_outcome (x : list (list Qc)) (w : world) :
  ((Matrix_new x w).1 = Err EmptyMatrix ↔ x = []) ∧
  (∀ ls, (Matrix_new x w).1 = Err (RaggedRows ls) ↔
         ragged x ∧ Sorted Nat.le ls ∧ NoDup ls ∧
         ∀ k, k ∈ ls ↔ ∃ xs, xs ∈ x ∧ length xs = k) ∧
  ((∃ new, (Matrix_new x w).1 = Ok new ∧
           contents (Matrix_new x w).2 new = Some x) ↔
   x ≠ [] ∧ ¬ ragged x) ∧
  (Matrix_new [[num 1; num 2]; [num 3; num 4; num 5]] w).1
    = Err (RaggedRows [2; 3]%nat) ∧
  (Matrix_new [] w).1 = Err EmptyMatrix.
Proof.
  pose proof (wp_Matrix_new x w) as H. unfold wp in H.
  assert (¬ ragged []) as Hnil.
  { intros (xs & ? & Hxs & _). by apply elem_of_nil in Hxs. }
  split; [|split; [|split; [|split]]].
  - destruct (init_check_cases x) as [[-> E]|[(Hne & Hr & E)|(Hne & Hr & E)]];
      rewrite E in H.
    + done.
    + rewrite H. split; [done|]. by intros ->.
    + destruct H as (new & -> & _). split; [done|]. by intros ->.
  - intros ls.
    destruct (init_check_cases x) as [[-> E]|[(Hne & Hr & E)|(Hne & Hr & E)]];
      rewrite E in H.
    + rewrite H. split; [done|]. by intros [? _].
    + rewrite H. rewrite <-sorted_lengths_spec. split; [by intros [= ->]|].
      by intros [_ ->].
    + destruct H as (new & -> & _). split; [done|]. by intros [? _].
  - destruct (init_check_cases x) as [[-> E]|[(Hne & Hr & E)|(Hne & Hr & E)]];
      rewrite E in H.
    + rewrite H. split; [by intros (? & ? & _)|by intros [? _]].
    + rewrite H. split; [by intros (? & ? & _)|by intros [_ ?]].
    + split; [done|]. intros _. destruct H as (new & Hnew & Hc). eauto.
  - pose proof (wp_Matrix_new [[num 1; num 2]; [num 3; num 4; num 5]] w) as H'.
    unfold wp in H'.
    by replace (init_check _) with (Some (RaggedRows [2; 3]%nat)) in H'
      by (by vm_compute).
  - pose proof (wp_Matrix_new [] w) as H'. unfold wp in H'.
    by replace (init_check _) with (Some EmptyMatrix) in H' by (by vm_compute).
Qed.

(** * Outcomes of the three algorithms on a valid matrix *)

Lemma wp_returns_run {A} (c : M A) w (Q : A → world → Prop) :
  wp c w (returns Q) → ∃ a, (c w).1 = Ok a ∧ Q a (c w).2.
Proof.
  unfold wp, returns. destruct (c w) as [[a|e] w']; simpl; [eauto|done].
Qed.

Lemma wp_raises_run {A} (c : M A) w e (Q : world → Prop) :
  wp c w (raises e Q) → (c w).1 = Err e.
Proof. by intros [? _]. Qed.

Lemma valid_shape A : valid A ↔ ∃ n c, shape n c A ∧ (0 < n)%nat.
Proof.
  split.
  - intros (n & c & H). exists (S n), c. split; [done|lia].
  - intros (n & c & H & Hn). destruct n; [lia|]. by exists n, c.
Qed.

(** [det]: a number when there are at least as many columns as rows,
    [IndexError] when there are fewer; [NotSquare] is never raised.  With
    [verbose > 0] a matrix of empty rows cannot be printed. *)
Lemma det_outcome w self A n c verbose :
  contents w self = Some A → shape n c A → (0 < n)%nat →
  (det self verbose w).1 =
    if decide ((0 < verbose)%Z ∧ c = 0%nat) then Err EmptySequence
    else if decide (c < n)%nat then Err IndexError
    else Ok (det_fun A).
Proof.
  intros Hm HA Hn. case_decide as Hv.
  - destruct Hv as [Hv ->]. eapply wp_raises_run. by eapply wp_det_no_columns.
  - case_decide as Hc.
    + eapply wp_raises_run. eapply wp_det_tall; [done..|lia].
    + edestruct (wp_returns_run (det self verbose) w) as (d & E & Hd).
      { eapply wp_det_wide; [done..|lia]. }
      cbv beta in Hd. by rewrite E, Hd.
Qed.

Lemma ref_outcome w self A n c verbose :
  contents w self = Some A → shape n c A → (0 < n)%nat →
  if decide ((0 < verbose)%Z ∧ c = 0%nat)
  then (ref self verbose w).1 = Err EmptySequence
  else ∃ new, (ref self verbose w).1 = Ok new ∧
              contents (ref self verbose w).2 new = Some (ref_fun A).
Proof.
  intros Hm HA Hn. case_decide as Hv.
  - destruct Hv as [Hv ->]. eapply wp_raises_run. by eapply wp_ref_no_columns.
  - apply (wp_returns_run (ref self verbose) w
             (λ new w', contents w' new = Some (ref_fun A))).
    eapply wp_ref; [done..|lia].
Qed.

Lemma rref_outcome w self A n c verbose :
  contents w self = Some A → shape n c A → (0 < n)%nat →
  if decide ((0 < verbose)%Z ∧ c = 0%nat)
  then (rref self verbose w).1 = Err EmptySequence
  else ∃ new, (rref self verbose w).1 = Ok new ∧
              contents (rref self verbose w).2 new = Some (rref_fun A).
Proof.
  intros Hm HA Hn. case_decide as Hv.
  - destruct Hv as [Hv ->]. eapply wp_raises_run. by eapply wp_rref_no_columns.
  - apply (wp_returns_run (rref self verbose) w
             (λ new w', contents w' new = Some (rref_fun A))).
    eapply wp_rref; [done..|lia].
Qed.

(** * Main results *)

(** ** From the invariants of the loops to the echelon forms *)

Lemma echelon_pivots_increase n R i j (pi pj : nat) :
  echelon_upto n n R → (i < j < n)%nat →
  pivot (R !!! i) = Z.of_nat pi → pivot (R !!! j) = Z.of_nat pj →
  (pi < pj)%nat.
Proof.
  intros Hech Hij Hpi Hpj. destruct (Hech i) as [H1 _]; [lia..|].
  destruct (H1 pi Hpi) as [_ Hbelow].
  pose proof (pivot_lz_lt _ _ _ Hpj (Hbelow j Hij)). lia.
Qed.

Lemma echelon_row_echelon n c R :
  shape n c R → echelon_upto n n R → row_echelon R.
Proof.
  intros HR Hech. pose proof (proj1 HR) as Hn. split; [|split].
  - intros i j pi pj Hij Hpi Hpj. rewrite Hn in Hij.
    pose proof (echelon_pivots_increase n R i j pi pj Hech Hij Hpi Hpj). lia.
  - intros i j Hi Hj Hzi Hzj. rewrite Hn in Hi, Hj.
    destruct (decide (j < i)%nat) as [|Hge]; [done|]. exfalso.
    apply is_zero_pivot in Hzi.
    destruct (decide (j = i)) as [->|Hne].
    + apply is_zero_pivot in Hzi. congruence.
    + destruct (Hech i Hi Hi) as [_ H2].
      assert (pivot (R !!! j) = (-1)%Z) as Hpj by (apply H2; [done|lia]).
      apply is_zero_pivot in Hpj. congruence.
  - intros i p Hi Hp. rewrite Hn in Hi. destruct (Hech i Hi Hi) as [H1 _].
    by destruct (H1 p Hp).
Qed.

Lemma reduced_pivot_columns_clear n c R :
  shape n c R → echelon_upto n n R → cleared_upto n n R →
  pivot_columns_clear R.
Proof.
  intros HR Hech Hcl i k p Hi Hk Hne Hp. rewrite (proj1 HR) in Hi, Hk.
  destruct (decide (k < i)%nat) as [Hlt|Hge].
  - by apply (Hcl i Hi Hi p Hp k).
  - destruct (Hech i Hi Hi) as [H1 _]. destruct (H1 p Hp) as [_ Hbelow].
    apply (Hbelow k); lia.
Qed.

(** C1 (the code departs from it).  The guard of [det] compares the column
    count with itself, so it never fires: on the 2×3 matrix
    [[1,2,3],[4,5,6]] the call returns [-3] instead of raising the
    non-square error, and on a 3×2 matrix it raises [IndexError]. *)
Theorem det_non_square_not_rejected :
  contents (store_of A23) 0 = Some A23 ∧
  (det 0 0 (store_of A23)).1 = Ok (num (-3)) ∧
  (det 0 0 (store_of A23)).1 ≠ Err (NotSquare (2, 3)%nat) ∧
  contents (store_of A32) 0 = Some A32 ∧
  (det 0 0 (store_of A32)).1 = Err IndexError.
Proof.
  assert ((det 0 0 (store_of A23)).1 = Ok (num (-3))) as H by compute_done.
  split; [done|]. split; [done|]. split; [by rewrite H|].
  split; [done|]. compute_done.
Qed.

(** On no valid matrix does [det] raise the non-square error. *)
Lemma det_never_NotSquare w self A verbose dims :
  contents w self = Some A → valid A →
  (det self verbose w).1 ≠ Err (NotSquare dims).
Proof.
  intros Hm (n & c & HA & Hn)%valid_shape.
  rewrite (det_outcome _ _ _ _ _ _ Hm HA Hn). by repeat case_decide.
Qed.

(** C2, amended.  On a valid matrix of Fractions [ref] returns a matrix in
    row echelon form: pivot columns weakly increase down the non-zero rows,
    zero rows are below the non-zero rows, and every leading entry is
    exactly [1].  (With [verbose > 0] the matrix must have an entry to
    print.)  The claim as stated, for every valid matrix, fails on [int]
    entries: [ref_leading_entry_rounded]. *)
Theorem ref_row_echelon w self A n c verbose :
  contents w self = Some A → shape n c A → (0 < n)%nat →
  ((0 < verbose)%Z → (0 < c)%nat) →
  ∃ new R, (ref self verbose w).1 = Ok new ∧
           contents (ref self verbose w).2 new = Some R ∧
           row_echelon R.
Proof.
  intros Hm HA Hn Hv.
  pose proof (ref_outcome _ _ _ _ _ verbose Hm HA Hn) as H.
  rewrite decide_False in H by lia. destruct H as (new & E & Hc).
  exists new, (ref_fun A). do 2 (split; [done|]).
  apply (echelon_row_echelon n c);
    [by apply shape_ref_fun|by apply (echelon_ref_fun n c)].
Qed.

Lemma ref_row_echelon_witness :
  ∃ new R, (ref 0 0 (store_of P22)).1 = Ok new ∧
           contents (ref 0 0 (store_of P22)).2 new = Some R ∧
           row_echelon R.
Proof.
  apply (ref_row_echelon (store_of P22) 0 P22 2 2 0).
  - reflexivity.
  - split; [reflexivity|]. repeat constructor.
  - lia.
  - lia.
Defined.

(** The pivot columns of [ref]'s result in fact strictly increase. *)
Lemma ref_pivots_strictly_increase A n c i j (pi pj : nat) :
  shape n c A → (i < j < n)%nat →
  pivot (ref_fun A !!! i) = Z.of_nat pi → pivot (ref_fun A !!! j) = Z.of_nat pj →
  (pi < pj)%nat.
Proof.
  intros HA. apply echelon_pivots_increase. by apply (echelon_ref_fun n c).
Qed.

(** C3, amended.  On a valid matrix of Fractions [rref] returns a matrix in
    row echelon form in which, moreover, the pivot column of every non-zero
    row is zero in every other row.  The claim as stated, for every valid
    matrix, fails on [int] entries: [rref_not_reduced_rounded]. *)
Theorem rref_reduced w self A n c verbose :
  contents w self = Some A → shape n c A → (0 < n)%nat →
  ((0 < verbose)%Z → (0 < c)%nat) →
  ∃ new R, (rref self verbose w).1 = Ok new ∧
           contents (rref self verbose w).2 new = Some R ∧
           row_echelon R ∧ pivot_columns_clear R.
Proof.
  intros Hm HA Hn Hv.
  pose proof (rref_outcome _ _ _ _ _ verbose Hm HA Hn) as H.
  rewrite decide_False in H by lia. destruct H as (new & E & Hc).
  exists new, (rref_fun A). do 2 (split; [done|]).
  destruct (reduced_rref_fun n c A HA Hn) as [He Hcl].
  pose proof (shape_rref_fun n c A HA) as HR. split.
  - by apply (echelon_row_echelon n c).
  - by apply (reduced_pivot_columns_clear n c).
Qed.

Lemma rref_reduced_witness :
  ∃ new R, (rref 0 0 (store_of A23)).1 = Ok new ∧
           contents (rref 0 0 (store_of A23)).2 new = Some R ∧
           row_echelon R ∧ pivot_columns_clear R.
Proof.
  apply (rref_reduced (store_of A23) 0 A23 2 3 0).
  - reflexivity.
  - split; [reflexivity|]. repeat constructor.
  - lia.
  - lia.
Defined.

(** C4.  On a valid matrix none of [det], [ref], [rref] raises
    [ZeroDivisionError], at any verbose level.  A division by zero, in
    [Row.__truediv__] or in the rendering of a factor, raises that exception
    ([num_truediv_run], [Row_truediv_zero_run]) and nothing catches it
    ([run_bind_err]), so this says that no division by zero is performed. *)
Theorem no_division_by_zero w self A verbose :
  contents w self = Some A → valid A →
  (det self verbose w).1 ≠ Err ZeroDivisionError ∧
  (ref self verbose w).1 ≠ Err ZeroDivisionError ∧
  (rref self verbose w).1 ≠ Err ZeroDivisionError.
Proof.
  intros Hm (n & c & HA & Hn)%valid_shape. split; [|split].
  - rewrite (det_outcome _ _ _ _ _ _ Hm HA Hn). by repeat case_decide.
  - pose proof (ref_outcome _ _ _ _ _ verbose Hm HA Hn) as H.
    case_decide; [by rewrite H|]. by destruct H as (new & -> & _).
  - pose proof (rref_outcome _ _ _ _ _ verbose Hm HA Hn) as H.
    case_decide; [by rewrite H|]. by destruct H as (new & -> & _).
Qed.

Lemma no_division_by_zero_witness :
  (det 0 2 (store_of A22)).1 ≠ Err ZeroDivisionError ∧
  (ref 0 2 (store_of A22)).1 ≠ Err ZeroDivisionError ∧
  (rref 0 2 (store_of A22)).1 ≠ Err ZeroDivisionError.
Proof.
  apply (no_division_by_zero (store_of A22) 0 A22 2); [reflexivity|].
  exists 1%nat, 2%nat. split; [reflexivity|]. repeat constructor.
Defined.

(** C6.  The calls [det], [ref] and [rref] leave the receiver as it was, at
    every verbose level and whatever the outcome: the matrix read back from
    the store after the call is the matrix read before it. *)
Theorem receiver_unchanged w self A verbose :
  contents w self = Some A →
  contents (det self verbose w).2 self = Some A ∧
  contents (ref self verbose w).2 self = Some A ∧
  contents (rref self verbose w).2 self = Some A.
Proof.
  intros Hm. split; [|split].
  - eapply preserved_contents; [apply det_preserved|done].
  - eapply preserved_contents; [|done].
    destruct (ref self verbose w) as [r w'] eqn:E.
    by apply ref_creates in E as [? _].
  - eapply preserved_contents; [|done].
    destruct (rref self verbose w) as [r w'] eqn:E.
    by apply rref_creates in E as [? _].
Qed.

Lemma receiver_unchanged_witness :
  contents (det 0 2 (store_of A22)).2 0 = Some A22 ∧
  contents (ref 0 2 (store_of A22)).2 0 = Some A22 ∧
  contents (rref 0 2 (store_of A22)).2 0 = Some A22.
Proof. apply (receiver_unchanged (store_of A22) 0 A22 2). reflexivity. Defined.

(** Stronger: every object the caller holds is left as it was. *)
Lemma caller_objects_preserved w self verbose :
  preserved w (det self verbose w).2 ∧
  preserved w (ref self verbose w).2 ∧
  preserved w (rref self verbose w).2.
Proof.
  split; [apply det_preserved|]. split.
  - destruct (ref self verbose w) as [r w'] eqn:E.
    by apply ref_creates in E as [? _].
  - destruct (rref self verbose w) as [r w'] eqn:E.
    by apply rref_creates in E as [? _].
Qed.

(** C7, amended.  On valid matrices of Fractions [rref] is idempotent:
    applied to its own result it returns a matrix with the same entries.
    The claim as stated, for every valid matrix, fails on [int] entries:
    [rref_not_idempotent_rounded]. *)
Theorem rref_idempotent w self A n c verbose :
  contents w self = Some A → shape n c A → (0 < n)%nat →
  ((0 < verbose)%Z → (0 < c)%nat) →
  ∃ new R,
    (rref self verbose w).1 = Ok new ∧
    contents (rref self verbose w).2 new = Some R ∧
    ∃ new',
      (rref new verbose (rref self verbose w).2).1 = Ok new' ∧
      contents (rref new verbose (rref self verbose w).2).2 new' = Some R.
Proof.
  intros Hm HA Hn Hv.
  pose proof (rref_outcome _ _ _ _ _ verbose Hm HA Hn) as H.
  rewrite decide_False in H by lia. destruct H as (new & E & Hc).
  exists new, (rref_fun A). do 2 (split; [done|]).
  pose proof (shape_rref_fun n c A HA) as HR.
  pose proof (rref_outcome _ _ _ _ _ verbose Hc HR Hn) as H.
  rewrite decide_False in H by lia. destruct H as (new' & E' & Hc').
  exists new'. split; [done|]. by rewrite (rref_fun_idempotent n c) in Hc'.
Qed.

Lemma rref_idempotent_witness :
  ∃ new R,
    (rref 0 0 (store_of A23)).1 = Ok new ∧
    contents (rref 0 0 (store_of A23)).2 new = Some R ∧
    ∃ new',
      (rref new 0 (rref 0 0 (store_of A23)).2).1 = Ok new' ∧
      contents (rref new 0 (rref 0 0 (store_of A23)).2).2 new' = Some R.
Proof.
  apply (rref_idempotent (store_of A23) 0 A23 2 3 0).
  - reflexivity.
  - split; [reflexivity|]. repeat constructor.
  - lia.
  - lia.
Defined.

(** C8, amended.  On a square matrix of Fractions with an all-zero row, or
    with two equal rows, [det] returns exactly zero.  The claim as stated,
    for every square matrix, fails on [int] entries:
    [det_equal_rows_rounded]. *)
Theorem det_zero_row_or_equal_rows w self A n verbose :
  contents w self = Some A → shape n n A → (0 < n)%nat →
  (∃ z, (z < n)%nat ∧ is_zero (A !!! z) = true) ∨
  (∃ a b, (a < n)%nat ∧ (b < n)%nat ∧ a ≠ b ∧ A !!! a = A !!! b) →
  (det self verbose w).1 = Ok 0.
Proof.
  intros Hm HA Hn Hrows.
  rewrite (det_outcome _ _ _ _ _ _ Hm HA Hn).
  rewrite decide_False by lia. rewrite decide_False by lia. f_equal.
  apply (det_fun_dependent n); [done|].
  destruct Hrows as [(z & Hz & Hzero)|(a & b & Ha & Hb & Hne & Heq)].
  - apply (dependent_zero_row n A z); [done..|]. by apply is_zero_pivot.
  - by apply (dependent_equal_rows n A a b).
Qed.

Lemma det_zero_row_or_equal_rows_witness :
  (det 0 0 (store_of Z22)).1 = Ok 0 ∧ (det 0 0 (store_of D22)).1 = Ok 0.
Proof.
  split.
  - apply (det_zero_row_or_equal_rows (store_of Z22) 0 Z22 2 0).
    + reflexivity.
    + split; [reflexivity|]. repeat constructor.
    + lia.
    + left. exists 0%nat. split; [lia|]. vm_compute. reflexivity.
  - apply (det_zero_row_or_equal_rows (store_of D22) 0 D22 2 0).
    + reflexivity.
    + split; [reflexivity|]. repeat constructor.
    + lia.
    + right. exists 0%nat, 1%nat. split; [lia|]. split; [lia|].
      split; [lia|]. reflexivity.
Defined.

(** ** Entries that are not Fractions

    The results C2, C3, C7 and C8 are results about matrices of Fractions.
    On [int] and [float] entries the same code rounds, and each of them
    fails on a small matrix of [int]s.  The calls below run the embedding
    [Rounded] at the default verbose level; [float] values are written in
    hexadecimal, with the decimal form Python prints in the comment. *)

Section rounded_entries.
Import PrimFloat.

(** On a row that holds the numbers [xs], the methods [pivot] and
    [is_zero] of the embedding [Rounded] return [Rounded.pivot xs] and
    [Rounded.is_zero xs], and change nothing. *)
Lemma Rounded_Row_getitem_run w r xs (i : nat) x :
  Rounded.w_rows w !! r = Some xs → xs !! i = Some x →
  Rounded.Row_getitem r (Z.of_nat i) w = (Ok x, w).
Proof.
  intros Hr Hx. unfold Rounded.Row_getitem, Rounded.read_row, Rounded.lift.
  unfold mbind, Rounded.M_bind. rewrite Hr. cbn. by rewrite (list_getitem_lookup _ _ _ Hx).
Qed.

Lemma Rounded_Row_pivot_loop_run w r xs k :
  Rounded.w_rows w !! r = Some xs →
  Rounded.Row_pivot_loop r (seq k (length xs - k)) w =
  (Ok (match list_find (λ x, Rounded.n_eqb x (Rounded.Int 0) = false) (drop k xs) with
       | Some (i, _) => Z.of_nat (k + i)
       | None => (-1)%Z
       end), w).
Proof.
  intros Hr. remember (length xs - k)%nat as n eqn:Hn. revert k Hn.
  induction n as [|n IH]; intros k Hn.
  - rewrite drop_ge by lia. done.
  - destruct (lookup_lt_is_Some_2 xs k) as [x Hx]; [lia|].
    cbn [seq Rounded.Row_pivot_loop]. unfold mbind, Rounded.M_bind.
    rewrite (Rounded_Row_getitem_run w r xs k x Hr Hx).
    rewrite (drop_S _ _ _ Hx). cbn [list_find].
    destruct (Rounded.n_eqb x (Rounded.Int 0)) eqn:Hz; cbn [negb].
    + rewrite decide_False by done. rewrite IH by lia.
      destruct (list_find _ (drop (S k) xs)) as [[i y]|]; cbn; [|done].
      do 3 f_equal. lia.
    + rewrite decide_True by done. cbn. by rewrite Nat.add_0_r.
Qed.

Lemma Rounded_Row_pivot_run w r xs :
  Rounded.w_rows w !! r = Some xs →
  Rounded.Row_pivot r w = (Ok (Rounded.pivot xs), w).
Proof.
  intros Hr. unfold Rounded.Row_pivot, Rounded.Row_len, Rounded.read_row.
  unfold mbind, Rounded.M_bind. rewrite Hr. cbn. unfold range.
  rewrite (Rounded_Row_pivot_loop_run w r xs 0 Hr), drop_0.
  unfold Rounded.pivot. by destruct (list_find _ xs) as [[i y]|].
Qed.

Lemma Rounded_Row_is_zero_run w r xs :
  Rounded.w_rows w !! r = Some xs →
  Rounded.Row_is_zero r w = (Ok (Rounded.is_zero xs), w).
Proof.
  intros Hr. unfold Rounded.Row_is_zero, Rounded.read_row.
  unfold mbind, Rounded.M_bind. by rewrite Hr.
Qed.

(** On the worked examples the rounded arithmetic is exact: with [int]
    entries the three calls return [float]s of the same values (one zero
    is [-0.0], which Python takes as equal to [0]). *)
Lemma concrete_scenario_on_ints :
  (Rounded.det 0 0 (Rounded.store_of
     [[Rounded.Int 1; Rounded.Int 2]; [Rounded.Int 3; Rounded.Int 4]])).1
    = Ok (Rounded.Float (-2)) ∧
  Rounded.contents (Rounded.ref 0 0 (Rounded.store_of
     [[Rounded.Int 0; Rounded.Int 1]; [Rounded.Int 1; Rounded.Int 0]])).2 1
    = Some [[Rounded.Float 1; Rounded.Float 0]; [Rounded.Float 0; Rounded.Float 1]] ∧
  Rounded.contents (Rounded.rref 0 0 (Rounded.store_of
     [[Rounded.Int 1; Rounded.Int 2; Rounded.Int 3];
      [Rounded.Int 4; Rounded.Int 5; Rounded.Int 6]])).2 1
    = Some [[Rounded.Float 1; Rounded.Float 0; Rounded.Float (-1)];
            [Rounded.Float (-0); Rounded.Float 1; Rounded.Float 2]] ∧
  Rounded.n_eqb (Rounded.Float (-0)) (Rounded.Int 0) = true.
Proof. repeat split; vm_compute; reflexivity. Qed.

(** C2, as stated for every valid matrix, fails on [int] entries.  [ref]
    divides the pivot row by multiplying it with [1 / 49], a rounded
    [float], so on the valid matrix [[49, 1]] it returns
    [[0.9999999999999999, 0.02040816326530612]]: the leading entry is the
    largest [float] below [1]. *)
Lemma ref_leading_entry_rounded :
  Rounded.contents (Rounded.store_of Rounded.A49) 0 = Some Rounded.A49 ∧
  Rounded.valid Rounded.A49 ∧
  (Rounded.ref 0 0 (Rounded.store_of Rounded.A49)).1 = Ok 1%nat ∧
  Rounded.contents (Rounded.ref 0 0 (Rounded.store_of Rounded.A49)).2 1
    = Some [[Rounded.Float 0x1.fffffffffffffp-1; Rounded.Float 0x1.4e5e0a72f0539p-6]] ∧
  ¬ Rounded.row_echelon
      [[Rounded.Float 0x1.fffffffffffffp-1; Rounded.Float 0x1.4e5e0a72f0539p-6]].
Proof.
  split; [reflexivity|]. split; [exists 0%nat, 2%nat; split; [reflexivity|repeat constructor]|].
  split; [vm_compute; reflexivity|]. split; [vm_compute; reflexivity|].
  intros (_ & _ & H). specialize (H 0%nat 0%nat). cbn in H.
  specialize (H ltac:(lia) eq_refl). vm_compute in H. discriminate.
Qed.

(** C3, as stated for every valid matrix, fails on [int] entries.  On the
    valid matrix [[49, 1], [1, 49]] the first round of [ref] leaves the
    residue [1.1102230246251565e-16] at the head of the second row, which
    the second round takes as pivot, and [rref] returns
    [[0.0, -4.411689430893546e+17], [1.0, 4.411689430893547e+17]].  The
    pivot column of the first row is to the right of that of the second,
    the leading entry of the first row is not [1], and the pivot column of
    the first row is not zero in the second row. *)
Lemma rref_not_reduced_rounded :
  Rounded.contents (Rounded.store_of Rounded.B49) 0 = Some Rounded.B49 ∧
  Rounded.valid Rounded.B49 ∧
  (Rounded.rref 0 0 (Rounded.store_of Rounded.B49)).1 = Ok 1%nat ∧
  Rounded.contents (Rounded.rref 0 0 (Rounded.store_of Rounded.B49)).2 1
    = Some [[Rounded.Float 0; Rounded.Float (-0x1.87d6343eb1a1ep+58)];
            [Rounded.Float 1; Rounded.Float 0x1.87d6343eb1a1fp+58]] ∧
  ¬ Rounded.row_echelon
      [[Rounded.Float 0; Rounded.Float (-0x1.87d6343eb1a1ep+58)];
       [Rounded.Float 1; Rounded.Float 0x1.87d6343eb1a1fp+58]] ∧
  ¬ Rounded.pivot_columns_clear
      [[Rounded.Float 0; Rounded.Float (-0x1.87d6343eb1a1ep+58)];
       [Rounded.Float 1; Rounded.Float 0x1.87d6343eb1a1fp+58]].
Proof.
  split; [reflexivity|]. split; [exists 1%nat, 2%nat; split; [reflexivity|repeat constructor]|].
  split; [vm_compute; reflexivity|]. split; [vm_compute; reflexivity|]. split.
  - intros (H & _ & _). specialize (H 0%nat 1%nat 1%nat 0%nat). cbn in H.
    specialize (H ltac:(lia) eq_refl eq_refl). lia.
  - intros H. specialize (H 0%nat 1%nat 1%nat). cbn in H.
    specialize (H ltac:(lia) ltac:(lia) ltac:(lia) eq_refl).
    vm_compute in H. discriminate.
Qed.

(** C7, as stated for every valid matrix, fails on [int] entries.  Applied
    to its own result on [[49, 1], [1, 49]], [rref] swaps the two rows and
    returns [[1.0, 0.0], [-0.0, 1.0]], which differs from the first result
    [[0.0, -4.411689430893546e+17], [1.0, 4.411689430893547e+17]] in three
    entries. *)
Lemma rref_not_idempotent_rounded :
  Rounded.contents (Rounded.store_of Rounded.B49) 0 = Some Rounded.B49 ∧
  Rounded.valid Rounded.B49 ∧
  (Rounded.rref 0 0 (Rounded.store_of Rounded.B49)).1 = Ok 1%nat ∧
  Rounded.contents (Rounded.rref 0 0 (Rounded.store_of Rounded.B49)).2 1
    = Some [[Rounded.Float 0; Rounded.Float (-0x1.87d6343eb1a1ep+58)];
            [Rounded.Float 1; Rounded.Float 0x1.87d6343eb1a1fp+58]] ∧
  (Rounded.rref 1 0 (Rounded.rref 0 0 (Rounded.store_of Rounded.B49)).2).1 = Ok 2%nat ∧
  Rounded.contents
    (Rounded.rref 1 0 (Rounded.rref 0 0 (Rounded.store_of Rounded.B49)).2).2 2
    = Some [[Rounded.Float 1; Rounded.Float 0];
            [Rounded.Float (-0); Rounded.Float 1]] ∧
  Rounded.same_entries
    [[Rounded.Float 1; Rounded.Float 0]; [Rounded.Float (-0); Rounded.Float 1]]
    [[Rounded.Float 0; Rounded.Float (-0x1.87d6343eb1a1ep+58)];
     [Rounded.Float 1; Rounded.Float 0x1.87d6343eb1a1fp+58]] = false.
Proof.
  split; [reflexivity|]. split; [exists 1%nat, 2%nat; split; [reflexivity|repeat constructor]|].
  repeat split; vm_compute; reflexivity.
Qed.

(** C8, as stated for every square matrix, fails on [int] entries.  On the
    square matrix [[49, 1], [49, 1]], whose two rows are identical, [det]
    returns [5.440092820663267e-15], which is not zero. *)
Lemma det_equal_rows_rounded :
  Rounded.contents (Rounded.store_of Rounded.D49) 0 = Some Rounded.D49 ∧
  Rounded.shape 2 2 Rounded.D49 ∧
  Rounded.D49 !!! 0%nat = Rounded.D49 !!! 1%nat ∧
  (Rounded.det 0 0 (Rounded.store_of Rounded.D49)).1
    = Ok (Rounded.Float 0x1.88p-48) ∧
  Rounded.n_eqb (Rounded.Float 0x1.88p-48) (Rounded.Int 0) = false.
Proof.
  split; [reflexivity|]. split; [split; [reflexivity|repeat constructor]|].
  split; [reflexivity|]. split; vm_compute; reflexivity.
Qed.

(** The same rounding at the level of rows: [Row([49]) / 49] holds
    [0.9999999999999999], not [49 / 49]. *)
Lemma Row_truediv_rounded :
  (Rounded.Row_truediv 0 (Rounded.Int 49)
     (Rounded.World [[Rounded.Int 49]] [] [])).1 = Ok 1%nat ∧
  Rounded.w_rows (Rounded.Row_truediv 0 (Rounded.Int 49)
     (Rounded.World [[Rounded.Int 49]] [] [])).2 !! 1%nat
    = Some [Rounded.Float 0x1.fffffffffffffp-1] ∧
  Rounded.n_truediv (Rounded.Int 49) (Rounded.Int 49) = Ok (Rounded.Float 1).
Proof. repeat split; vm_compute; reflexivity. Qed.

(** A [float] that is not finite: for [r = Row([inf])], [r - r] holds a
    NaN, which is not zero. *)
Lemma Row_sub_self_not_finite :
  (Rounded.Row_sub 0 0 (Rounded.World [[Rounded.Float infinity]] [] [])).1
    = Ok 2%nat ∧
  Rounded.w_rows
    (Rounded.Row_sub 0 0 (Rounded.World [[Rounded.Float infinity]] [] [])).2 !! 2%nat
    = Some [Rounded.Float nan] ∧
  Rounded.is_zero [Rounded.Float nan] = false ∧
  Rounded.pivot [Rounded.Float nan] = 0%Z.
Proof. repeat split; vm_compute; reflexivity. Qed.

(** A matrix with a NaN or an infinite entry has entries and still cannot
    be printed: [num_to_string] raises, and nothing is printed. *)
Lemma print_matrix_not_finite :
  (Rounded.print_matrix 0 (Rounded.store_of [[Rounded.Float nan]])).1
    = Err NanToRatio ∧
  (Rounded.print_matrix 0 (Rounded.store_of [[Rounded.Float infinity]])).1
    = Err OverflowError ∧
  Rounded.w_out (Rounded.print_matrix 0 (Rounded.store_of [[Rounded.Float nan]])).2
    = [].
Proof. repeat split; vm_compute; reflexivity. Qed.

(** An [int] too large for a [float]: on the 2×3 matrix
    [[2**2000, 1, 1], [1, 1, 1]] the first row operation of [det] multiplies
    that entry by a [float] and the call raises [OverflowError]. *)
Lemma det_overflow_example :
  (Rounded.det 0 0 (Rounded.store_of
     [[Rounded.Int (2 ^ 2000); Rounded.Int 1; Rounded.Int 1];
      [Rounded.Int 1; Rounded.Int 1; Rounded.Int 1]])).1 = Err OverflowError.
Proof. vm_compute. reflexivity. Qed.

End rounded_entries.

(** C9.  The three worked examples: [det [[1,2],[3,4]] = -2],
    [ref [[0,1],[1,0]] = [[1,0],[0,1]]] and
    [rref [[1,2,3],[4,5,6]] = [[1,0,-1],[0,1,2]]]. *)
Theorem concrete_scenario :
  (det 0 0 (store_of A22)).1 = Ok (num (-2)) ∧
  (∃ new, (ref 0 0 (store_of P22)).1 = Ok new ∧
          contents (ref 0 0 (store_of P22)).2 new = Some I22) ∧
  (∃ new, (rref 0 0 (store_of A23)).1 = Ok new ∧
          contents (rref 0 0 (store_of A23)).2 new
            = Some [[num 1; num 0; num (-1)]; [num 0; num 1; num 2]]).
Proof.
  split; [compute_done|]. split.
  - exists 1%nat. split; compute_done.
  - exists 1%nat. split; compute_done.
Qed.

(** Entries that are not integers: [ref [[2,1]] = [[1, 1/2]]]. *)
Lemma ref_fraction_example :
  ∃ new, (ref 0 0 (store_of [[num 2; num 1]])).1 = Ok new ∧
         contents (ref 0 0 (store_of [[num 2; num 1]])).2 new
           = Some [[num 1; frac 1 2]].
Proof. exists 1%nat. split; compute_done. Qed.

(** The last example of the specification: at [verbose = 2] the determinant
    of the diagonal matrix [[2,0],[0,2]] is [4], and nothing is printed
    but the initial matrix, as no row is swapped and no row operation is
    of use. *)
Global Instance event_eq_dec : EqDecision event.
Proof. solve_decision. Defined.

Lemma det_diagonal_trace :
  (det 0 2 (store_of [[num 2; num 0]; [num 0; num 2]])).1 = Ok (num 4) ∧
  w_out (det 0 2 (store_of [[num 2; num 0]; [num 0; num 2]])).2
    = [PrintStr "Initial: "; PrintMatrix [[num 2; num 0]; [num 0; num 2]]].
Proof. split; compute_done. Qed.

(** C10.  On a valid matrix with [n] rows and [c] columns, [ref] and [rref]
    return a matrix with [n] rows and [c] columns, hence a valid one.  (With
    [verbose > 0] the matrix must have an entry to print.) *)
Theorem ref_rref_keep_shape w self A n c verbose :
  contents w self = Some A → shape n c A → (0 < n)%nat →
  ((0 < verbose)%Z → (0 < c)%nat) →
  (∃ new R, (ref self verbose w).1 = Ok new ∧
            contents (ref self verbose w).2 new = Some R ∧
            shape n c R ∧ valid R) ∧
  (∃ new R, (rref self verbose w).1 = Ok new ∧
            contents (rref self verbose w).2 new = Some R ∧
            shape n c R ∧ valid R).
Proof.
  intros Hm HA Hn Hv. split.
  - pose proof (ref_outcome _ _ _ _ _ verbose Hm HA Hn) as H.
    rewrite decide_False in H by lia. destruct H as (new & E & Hc).
    exists new, (ref_fun A). do 2 (split; [done|]).
    pose proof (shape_ref_fun n c A HA). split; [done|].
    apply valid_shape. eauto.
  - pose proof (rref_outcome _ _ _ _ _ verbose Hm HA Hn) as H.
    rewrite decide_False in H by lia. destruct H as (new & E & Hc).
    exists new, (rref_fun A). do 2 (split; [done|]).
    pose proof (shape_rref_fun n c A HA). split; [done|].
    apply valid_shape. eauto.
Qed.

Lemma ref_rref_keep_shape_witness :
  (∃ new R, (ref 0 0 (store_of A23)).1 = Ok new ∧
            contents (ref 0 0 (store_of A23)).2 new = Some R ∧
            shape 2 3 R ∧ valid R) ∧
  (∃ new R, (rref 0 0 (store_of A23)).1 = Ok new ∧
            contents (rref 0 0 (store_of A23)).2 new = Some R ∧
            shape 2 3 R ∧ valid R).
Proof.
  apply (ref_rref_keep_shape (store_of A23) 0 A23 2 3 0).
  - reflexivity.
  - split; [reflexivity|]. repeat constructor.
  - lia.
  - lia.
Defined.

(** * Further properties of the module *)

(** ** class Row *)

(** Python's index normalisation: for [-n ≤ i < n] the position addressed
    by [i] in a list of length [n] is [i mod n]. *)
Lemma list_getitem_in_range {A} (l : list A) (i : Z) :
  (- Z.of_nat (length l) ≤ i < Z.of_nat (length l))%Z →
  list_getitem l i =
    from_option Ok (Err IndexError) (l !! Z.to_nat (i mod Z.of_nat (length l))).
Proof.
  intros Hi. unfold list_getitem.
  destruct (Z.ltb_spec i 0) as [Hneg|Hpos].
  - replace (i mod Z.of_nat (length l))%Z with (i + Z.of_nat (length l))%Z.
    + destruct (Z.ltb_spec (i + Z.of_nat (length l)) 0); [lia|].
      destruct (Z.leb_spec (Z.of_nat (length l)) (i + Z.of_nat (length l))); [lia|].
      done.
    + apply (Z.mod_unique _ _ (-1)); lia.
  - rewrite Z.mod_small by lia.
    destruct (Z.ltb_spec i 0); [lia|].
    destruct (Z.leb_spec (Z.of_nat (length l)) i); [lia|]. done.
Qed.

Lemma list_getitem_out_of_range {A} (l : list A) (i : Z) :
  ¬ (- Z.of_nat (length l) ≤ i < Z.of_nat (length l))%Z →
  list_getitem l i = Err IndexError.
Proof.
  intros Hi. unfold list_getitem.
  destruct (Z.ltb_spec i 0) as [Hneg|Hpos].
  - destruct (Z.ltb_spec (i + Z.of_nat (length l)) 0); [done|lia].
  - destruct (Z.ltb_spec i 0); [lia|].
    destruct (Z.leb_spec (Z.of_nat (length l)) i); [done|lia].
Qed.

Lemma list_setitem_in_range {A} (l : list A) (i : Z) x :
  (- Z.of_nat (length l) ≤ i < Z.of_nat (length l))%Z →
  list_setitem l i x = Ok (<[Z.to_nat (i mod Z.of_nat (length l)) := x]> l).
Proof.
  intros Hi. unfold list_setitem.
  destruct (Z.ltb_spec i 0) as [Hneg|Hpos].
  - replace (i mod Z.of_nat (length l))%Z with (i + Z.of_nat (length l))%Z.
    + destruct (Z.ltb_spec (i + Z.of_nat (length l)) 0); [lia|].
      destruct (Z.leb_spec (Z.of_nat (length l)) (i + Z.of_nat (length l))); [lia|].
      done.
    + apply (Z.mod_unique _ _ (-1)); lia.
  - rewrite Z.mod_small by lia.
    destruct (Z.ltb_spec i 0); [lia|].
    destruct (Z.leb_spec (Z.of_nat (length l)) i); [lia|]. done.
Qed.

Lemma list_setitem_out_of_range {A} (l : list A) (i : Z) x :
  ¬ (- Z.of_nat (length l) ≤ i < Z.of_nat (length l))%Z →
  list_setitem l i x = Err IndexError.
Proof.
  intros Hi. unfold list_setitem.
  destruct (Z.ltb_spec i 0) as [Hneg|Hpos].
  - destruct (Z.ltb_spec (i + Z.of_nat (length l)) 0); [done|lia].
  - destruct (Z.ltb_spec i 0); [lia|].
    destruct (Z.leb_spec (Z.of_nat (length l)) i); [done|lia].
Qed.

Lemma index_in_range (n : nat) (i : Z) :
  (- Z.of_nat n ≤ i < Z.of_nat n)%Z → (Z.to_nat (i mod Z.of_nat n) < n)%nat.
Proof. intros Hi. pose proof (Z.mod_pos_bound i (Z.of_nat n)). lia. Qed.

Lemma wp_run_bind {A B} (c : M A) (k : A → M B) w a w'
    (Q : result B → world → Prop) :
  c w = (Ok a, w') → wp (k a) w' Q → wp (c ≫= k) w Q.
Proof. intros E H. apply wp_bind. unfold wp at 1. by rewrite E. Qed.

(** The store after [Row(nums)]. *)
Lemma Row_init_run w nums :
  Row_init nums w = (Ok (length (w_rows w)), with_row w nums).
Proof. done. Qed.

Lemma row_at_with_row w r xs nums : row_at w r xs → row_at (with_row w nums) r xs.
Proof. intros H. unfold row_at, with_row. simpl. by apply lookup_app_l_Some. Qed.

Lemma row_at_with_row_new w nums : row_at (with_row w nums) (length (w_rows w)) nums.
Proof. unfold row_at, with_row. simpl. by rewrite list_lookup_middle. Qed.

Lemma row_at_fresh w r xs : row_at w r xs → r ≠ length (w_rows w).
Proof. intros H%lookup_lt_Some. lia. Qed.

Lemma Row_neg_run w r xs :
  row_at w r xs → Row_neg r w = (Ok (length (w_rows w)), with_row w (row_neg xs)).
Proof. intros Hr. unfold Row_neg. by rewrite (run_bind _ _ _ _ _ (read_row_run _ _ _ Hr)). Qed.

Lemma Row_mul_run w r xs k :
  row_at w r xs → Row_mul r k w = (Ok (length (w_rows w)), with_row w (row_mul xs k)).
Proof. intros Hr. unfold Row_mul. by rewrite (run_bind _ _ _ _ _ (read_row_run _ _ _ Hr)). Qed.

Lemma Row_copy_run w r xs :
  row_at w r xs → Row_copy r w = (Ok (length (w_rows w)), with_row w xs).
Proof. intros Hr. unfold Row_copy. by rewrite (run_bind _ _ _ _ _ (read_row_run _ _ _ Hr)). Qed.

Lemma Row_add_run w r xs r' ys :
  row_at w r xs → row_at w r' ys → length xs = length ys →
  Row_add r r' w = (Ok (length (w_rows w)), with_row w (row_add xs ys)).
Proof.
  intros Hr Hr' Hlen. unfold Row_add.
  rewrite (run_bind _ _ _ _ _ (Row_len_run _ _ _ Hr')).
  rewrite (run_bind _ _ _ _ _ (Row_len_run _ _ _ Hr)).
  rewrite decide_False by (intros H; by apply H).
  rewrite (run_bind _ _ _ _ _ (read_row_run _ _ _ Hr)).
  by rewrite (run_bind _ _ _ _ _ (read_row_run _ _ _ Hr')).
Qed.

Lemma Row_truediv_run w r xs k :
  row_at w r xs → k ≠ 0 →
  Row_truediv r k w = (Ok (length (w_rows w)), with_row w (row_mul xs (1 / k))).
Proof.
  intros Hr Hk. unfold Row_truediv.
  erewrite run_bind; [by apply Row_mul_run|].
  rewrite num_truediv_run. by rewrite decide_False.
Qed.

Lemma Row_setitem_run w r xs key v :
  row_at w r xs →
  Row_setitem r key v w =
    match list_setitem xs key v with
    | Ok xs' => (Ok (), World (<[r := xs']> (w_rows w)) (w_mats w) (w_out w))
    | Err e => (Err e, w)
    end.
Proof.
  intros Hr. unfold Row_setitem.
  rewrite (run_bind _ _ _ _ _ (read_row_run _ _ _ Hr)).
  destruct (list_setitem xs key v) as [xs'|e] eqn:E.
  - erewrite run_bind; [|done]. unfold write_row.
    apply lookup_lt_Some in Hr. by rewrite decide_True.
  - by erewrite run_bind_err.
Qed.

(** X1.  [self + other] raises the length-mismatch [ValueError], carrying
    the two lengths, exactly when the rows differ in length, and then
    nothing has changed; otherwise it returns a new [Row] object holding
    the entrywise sums, and the operands keep their numbers. *)
Theorem Row_add_outcome w r xs r' ys :
  row_at w r xs → row_at w r' ys →
  (length xs = length ys →
     wp (Row_add r r') w
        (returns (λ s w', row_at w' s (zip_with Qcplus xs ys) ∧
                          w_rows w !! s = None ∧
                          row_at w' r xs ∧ row_at w' r' ys))) ∧
  (length xs ≠ length ys →
     Row_add r r' w = (Err (LengthMismatch (length xs) (length ys)), w)).
Proof.
  intros Hr Hr'. split; intros Hlen.
  - unfold wp. rewrite (Row_add_run _ _ _ _ _ Hr Hr' Hlen). simpl.
    split; [apply row_at_with_row_new|].
    split; [by apply lookup_ge_None_2|].
    split; by apply row_at_with_row.
  - by apply Row_add_mismatch_run.
Qed.

Lemma Row_add_outcome_witness :
  wp (Row_add 0 1) (store_of A22)
     (returns (λ s w', row_at w' s (zip_with Qcplus [num 1; num 2] [num 3; num 4]) ∧
                       w_rows (store_of A22) !! s = None ∧
                       row_at w' 0 [num 1; num 2] ∧ row_at w' 1 [num 3; num 4])).
Proof.
  apply (Row_add_outcome (store_of A22) 0 [num 1; num 2] 1 [num 3; num 4]);
    reflexivity.
Defined.

Lemma zip_with_minus xs ys : row_add xs (row_neg ys) = zip_with Qcminus xs ys.
Proof.
  unfold row_add, row_neg. revert ys. induction xs as [|x xs IH]; intros [|y ys];
    simpl; [done..|]. by rewrite IH.
Qed.

Lemma Row_sub_run w r xs r' ys :
  row_at w r xs → row_at w r' ys → length xs = length ys →
  Row_sub r r' w =
    (Ok (S (length (w_rows w))),
     with_row (with_row w (row_neg ys)) (zip_with Qcminus xs ys)).
Proof.
  intros Hr Hr' Hlen. unfold Row_sub.
  rewrite (run_bind _ _ _ _ _ (Row_neg_run _ _ _ Hr')).
  rewrite (Row_add_run _ _ xs _ (row_neg ys));
    [|by apply row_at_with_row|apply row_at_with_row_new|by rewrite length_row_neg].
  rewrite zip_with_minus. simpl. by rewrite length_app, Nat.add_1_r.
Qed.

(** X2.  [self - other] is computed as [self + -other]: on rows of equal
    length the result is a new [Row] holding the entrywise differences and
    both operands keep their numbers; on rows of different lengths the call
    raises the length-mismatch error of [__add__]. *)
Theorem Row_sub_outcome w r xs r' ys :
  row_at w r xs → row_at w r' ys →
  (length xs = length ys →
     wp (Row_sub r r') w
        (returns (λ s w', row_at w' s (zip_with Qcminus xs ys) ∧
                          row_at w' r xs ∧ row_at w' r' ys))) ∧
  (length xs ≠ length ys →
     (Row_sub r r' w).1 = Err (LengthMismatch (length xs) (length ys))).
Proof.
  intros Hr Hr'. split; intros Hlen.
  - unfold wp. rewrite (Row_sub_run _ _ _ _ _ Hr Hr' Hlen). simpl.
    split; [|split; by do 2 apply row_at_with_row].
    pose proof (row_at_with_row_new (with_row w (row_neg ys))
                  (zip_with Qcminus xs ys)) as H.
    simpl in H. by rewrite length_app, Nat.add_1_r in H.
  - unfold Row_sub. rewrite (run_bind _ _ _ _ _ (Row_neg_run _ _ _ Hr')).
    rewrite (Row_add_mismatch_run _ _ xs _ (row_neg ys));
      [|by apply row_at_with_row|apply row_at_with_row_new
       |by rewrite length_row_neg].
    simpl. by rewrite length_row_neg.
Qed.

Lemma Row_sub_outcome_witness :
  wp (Row_sub 1 0) (store_of A22)
     (returns (λ s w', row_at w' s (zip_with Qcminus [num 3; num 4] [num 1; num 2]) ∧
                       row_at w' 1 [num 3; num 4] ∧ row_at w' 0 [num 1; num 2])).
Proof.
  apply (Row_sub_outcome (store_of A22) 1 [num 3; num 4] 0 [num 1; num 2]);
    reflexivity.
Defined.

Lemma is_zero_minus_self xs : is_zero (zip_with Qcminus xs xs) = true.
Proof.
  induction xs as [|x xs IH]; simpl; [done|]. rewrite IH.
  rewrite bool_decide_eq_true_2; [done|]. unfold Qcminus. ring.
Qed.

(** X3.  A row of Fractions minus itself is a zero row:
    [(r - r).is_zero()] is [True] and [(r - r).pivot()] is [-1], for every
    row [r] of Fractions.  (Not so for a [float] that is not finite:
    [Row_sub_self_not_finite].) *)
Theorem Row_sub_self_is_zero w r xs :
  row_at w r xs →
  wp (d ← Row_sub r r; z ← Row_is_zero d; p ← Row_pivot d; mret (z, p)) w
     (returns (λ zp _, zp = (true, (-1)%Z))).
Proof.
  intros Hr.
  eapply wp_run_bind; [by apply (Row_sub_run w r xs r xs)|].
  assert (row_at (with_row (with_row w (row_neg xs)) (zip_with Qcminus xs xs))
                 (S (length (w_rows w))) (zip_with Qcminus xs xs)) as Hd.
  { pose proof (row_at_with_row_new (with_row w (row_neg xs))
                  (zip_with Qcminus xs xs)) as H.
    simpl in H. by rewrite length_app, Nat.add_1_r in H. }
  eapply wp_read; [by apply Row_is_zero_run|].
  eapply wp_read; [by apply Row_pivot_run|].
  apply wp_ret. simpl. rewrite is_zero_minus_self. f_equal.
  apply is_zero_pivot, is_zero_minus_self.
Qed.

Lemma Row_sub_self_is_zero_witness :
  wp (d ← Row_sub 1 1; z ← Row_is_zero d; p ← Row_pivot d; mret (z, p))
     (store_of A22) (returns (λ zp _, zp = (true, (-1)%Z))).
Proof. apply (Row_sub_self_is_zero (store_of A22) 1 [num 3; num 4]). reflexivity. Defined.

(** X4.  On a row of Fractions and a Fraction [other], [self / other]
    raises [ZeroDivisionError] when [other] is zero, and then nothing has
    changed; otherwise it returns a new [Row] holding every number divided
    by [other] (the code multiplies by [1 / other], which on Fractions is
    the same), and [self] keeps its numbers.  (On [int] and [float]
    operands the two differ: [Row_truediv_rounded].) *)
Theorem Row_truediv_outcome w r xs k :
  row_at w r xs →
  (k = 0 → Row_truediv r k w = (Err ZeroDivisionError, w)) ∧
  (k ≠ 0 →
     wp (Row_truediv r k) w
        (returns (λ s w', row_at w' s ((λ x, x / k) <$> xs) ∧ row_at w' r xs))).
Proof.
  intros Hr. split; intros Hk.
  - subst k. apply Row_truediv_zero_run.
  - unfold wp. rewrite (Row_truediv_run _ _ _ _ Hr Hk). simpl.
    split; [|by apply row_at_with_row].
    replace ((λ x, x / k) <$> xs) with (row_mul xs (1 / k));
      [apply row_at_with_row_new|].
    unfold row_mul. apply list_fmap_ext. intros _ x _. simpl. by field.
Qed.

Lemma Row_truediv_outcome_witness :
  Row_truediv 0 0 (store_of A22) = (Err ZeroDivisionError, store_of A22) ∧
  wp (Row_truediv 0 (num 2)) (store_of A22)
     (returns (λ s w', row_at w' s ((λ x, x / num 2) <$> [num 1; num 2]) ∧
                       row_at w' 0 [num 1; num 2])).
Proof.
  split.
  - apply (Row_truediv_outcome (store_of A22) 0 [num 1; num 2] 0); reflexivity.
  - apply (Row_truediv_outcome (store_of A22) 0 [num 1; num 2] (num 2));
      [reflexivity|]. vm_compute. discriminate.
Defined.

(** X5.  Scaling a row by a non-zero number and dividing by the same number
    gives the numbers of the row back, in either order. *)
Theorem Row_mul_truediv_round_trip w r xs k :
  row_at w r xs → k ≠ 0 →
  wp (t ← Row_mul r k; Row_truediv t k) w (returns (λ s w', row_at w' s xs)) ∧
  wp (t ← Row_truediv r k; Row_mul t k) w (returns (λ s w', row_at w' s xs)).
Proof.
  intros Hr Hk.
  assert (row_mul (row_mul xs k) (1 / k) = xs) as E1.
  { rewrite row_mul_mul. unfold row_mul. rewrite <-(list_fmap_id xs) at 2.
    apply list_fmap_ext. intros _ x _. simpl. by field. }
  assert (row_mul (row_mul xs (1 / k)) k = xs) as E2.
  { rewrite row_mul_mul. unfold row_mul. rewrite <-(list_fmap_id xs) at 2.
    apply list_fmap_ext. intros _ x _. simpl. by field. }
  split; unfold wp.
  - rewrite (run_bind _ _ _ _ _ (Row_mul_run _ _ _ k Hr)).
    rewrite (Row_truediv_run _ _ _ _ (row_at_with_row_new _ _) Hk). simpl.
    rewrite E1. apply row_at_with_row_new.
  - rewrite (run_bind _ _ _ _ _ (Row_truediv_run _ _ _ _ Hr Hk)).
    rewrite (Row_mul_run _ _ _ _ (row_at_with_row_new _ _)). simpl.
    rewrite E2. apply row_at_with_row_new.
Qed.

Lemma Row_mul_truediv_round_trip_witness :
  wp (t ← Row_mul 0 (num 3); Row_truediv t (num 3)) (store_of A22)
     (returns (λ s w', row_at w' s [num 1; num 2])) ∧
  wp (t ← Row_truediv 0 (num 3); Row_mul t (num 3)) (store_of A22)
     (returns (λ s w', row_at w' s [num 1; num 2])).
Proof.
  apply (Row_mul_truediv_round_trip (store_of A22) 0 [num 1; num 2] (num 3));
    [reflexivity|]. vm_compute. discriminate.
Defined.

(** X6.  [pivot] and [is_zero] agree and leave the store alone:
    [is_zero()] is [True] exactly when [pivot()] is [-1], which is exactly
    when every number of the row is zero; otherwise [pivot()] is the index
    of a non-zero number with only zeros before it. *)
Theorem Row_pivot_is_zero w r xs :
  row_at w r xs →
  ∃ p z, Row_pivot r w = (Ok p, w) ∧ Row_is_zero r w = (Ok z, w) ∧
         (z = true ↔ p = (-1)%Z) ∧
         (z = true ↔ Forall (λ x, x = 0) xs) ∧
         (z = false →
            (0 ≤ p < Z.of_nat (length xs))%Z ∧ xs !!! Z.to_nat p ≠ 0 ∧
            ∀ j, (j < Z.to_nat p)%nat → xs !!! j = 0).
Proof.
  intros Hr. exists (pivot xs), (is_zero xs).
  split; [by apply Row_pivot_run|]. split; [by apply Row_is_zero_run|].
  split; [apply is_zero_pivot|]. split; [by rewrite is_zero_pivot, pivot_none|].
  intros Hz. destruct (pivot_cases xs) as [Hp|[p Hp]].
  - apply is_zero_pivot in Hp. congruence.
  - rewrite Hp, Nat2Z.id. apply pivot_some in Hp as (Hlt & Hnz & Hbefore).
    split; [lia|]. done.
Qed.

Lemma Row_pivot_is_zero_witness :
  ∃ p z, Row_pivot 0 (store_of [[num 0; num 5]]) = (Ok p, store_of [[num 0; num 5]]) ∧
         Row_is_zero 0 (store_of [[num 0; num 5]]) = (Ok z, store_of [[num 0; num 5]]) ∧
         (z = true ↔ p = (-1)%Z) ∧
         (z = true ↔ Forall (λ x, x = 0) [num 0; num 5]) ∧
         (z = false →
            (0 ≤ p < Z.of_nat (length [num 0; num 5]))%Z ∧
            [num 0; num 5] !!! Z.to_nat p ≠ 0 ∧
            ∀ j, (j < Z.to_nat p)%nat → [num 0; num 5] !!! j = 0).
Proof.
  apply (Row_pivot_is_zero (store_of [[num 0; num 5]]) 0 [num 0; num 5]).
  reflexivity.
Defined.

Lemma Row_setitem_in_range_run w r xs key v :
  row_at w r xs →
  (- Z.of_nat (length xs) ≤ key < Z.of_nat (length xs))%Z →
  Row_setitem r key v w =
    (Ok (), World (<[r := <[Z.to_nat (key mod Z.of_nat (length xs)) := v]> xs]>
                     (w_rows w)) (w_mats w) (w_out w)).
Proof.
  intros Hr Hkey.
  by rewrite (Row_setitem_run _ _ _ _ _ Hr), list_setitem_in_range.
Qed.

(** X7.  [self[key] = value] followed by [self[key]]: for a key in
    [-len .. len-1] the assignment replaces the number at position
    [key mod len] and nothing else, and reading the same key gives [value]
    back; outside that range both the assignment and the read raise
    [IndexError] and the store is as before. *)
Theorem Row_setitem_getitem w r xs key v :
  row_at w r xs →
  ((- Z.of_nat (length xs) ≤ key < Z.of_nat (length xs))%Z →
     ∃ w', Row_setitem r key v w = (Ok (), w') ∧
           row_at w' r (<[Z.to_nat (key mod Z.of_nat (length xs)) := v]> xs) ∧
           Row_getitem r key w' = (Ok v, w') ∧
           (∀ r', r' ≠ r → w_rows w' !! r' = w_rows w !! r') ∧
           w_mats w' = w_mats w ∧ w_out w' = w_out w) ∧
  (¬ (- Z.of_nat (length xs) ≤ key < Z.of_nat (length xs))%Z →
     Row_setitem r key v w = (Err IndexError, w) ∧
     Row_getitem r key w = (Err IndexError, w)).
Proof.
  intros Hr. split; intros Hkey.
  - eexists. split; [by apply Row_setitem_in_range_run|].
    assert (row_at (World (<[r := <[Z.to_nat (key mod Z.of_nat (length xs)) := v]> xs]>
                              (w_rows w)) (w_mats w) (w_out w)) r
                   (<[Z.to_nat (key mod Z.of_nat (length xs)) := v]> xs)) as Hr'.
    { unfold row_at. simpl. apply list_lookup_insert_eq. by eapply lookup_lt_Some. }
    split; [done|]. split.
    { rewrite (Row_getitem_run _ _ _ Hr').
      rewrite list_getitem_in_range by (by rewrite length_insert).
      rewrite length_insert, list_lookup_insert_eq; [done|].
      by apply index_in_range. }
    split; [|done]. intros r' Hne. simpl. by rewrite list_lookup_insert_ne.
  - split.
    + by rewrite (Row_setitem_run _ _ _ _ _ Hr), list_setitem_out_of_range.
    + by rewrite (Row_getitem_run _ _ _ Hr), list_getitem_out_of_range.
Qed.

Lemma Row_setitem_getitem_witness :
  (∃ w', Row_setitem 0 (-1) (num 7) (store_of A22) = (Ok (), w') ∧
         row_at w' 0 (<[Z.to_nat ((-1) mod Z.of_nat (length [num 1; num 2])) := num 7]>
                        [num 1; num 2]) ∧
         Row_getitem 0 (-1) w' = (Ok (num 7), w') ∧
         (∀ r', r' ≠ 0%nat → w_rows w' !! r' = w_rows (store_of A22) !! r') ∧
         w_mats w' = w_mats (store_of A22) ∧ w_out w' = w_out (store_of A22)) ∧
  (Row_setitem 0 2 (num 7) (store_of A22) = (Err IndexError, store_of A22) ∧
   Row_getitem 0 2 (store_of A22) = (Err IndexError, store_of A22)).
Proof.
  split.
  - apply (Row_setitem_getitem (store_of A22) 0 [num 1; num 2] (-1) (num 7));
      [reflexivity|]. simpl. lia.
  - apply (Row_setitem_getitem (store_of A22) 0 [num 1; num 2] 2 (num 7));
      [reflexivity|]. simpl. lia.
Defined.

(** X8.  [copy(r)] and [deepcopy(r)] make a new [Row] object with its own
    list of numbers: assigning to an entry of the copy leaves the numbers
    of [r] as they were. *)
Theorem Row_copy_independent w r xs key v :
  row_at w r xs →
  (- Z.of_nat (length xs) ≤ key < Z.of_nat (length xs))%Z →
  wp (c ← Row_copy r; Row_setitem c key v;; mret c) w
     (returns (λ c w', c ≠ r ∧ row_at w' r xs ∧
                       row_at w' c (<[Z.to_nat (key mod Z.of_nat (length xs)) := v]> xs))) ∧
  wp (c ← Row_deepcopy r; Row_setitem c key v;; mret c) w
     (returns (λ c w', c ≠ r ∧ row_at w' r xs ∧
                       row_at w' c (<[Z.to_nat (key mod Z.of_nat (length xs)) := v]> xs))).
Proof.
  intros Hr Hkey.
  assert (wp (c ← Row_copy r; Row_setitem c key v;; mret c) w
     (returns (λ c w', c ≠ r ∧ row_at w' r xs ∧
                       row_at w' c (<[Z.to_nat (key mod Z.of_nat (length xs)) := v]> xs))))
    as H; [|by split].
  unfold wp. rewrite (run_bind _ _ _ _ _ (Row_copy_run _ _ _ Hr)).
  pose proof (row_at_with_row_new w xs) as Hc.
  pose proof (row_at_fresh _ _ _ Hr) as Hne.
  rewrite (run_bind _ _ _ _ _ (Row_setitem_in_range_run _ _ _ key v Hc Hkey)).
  simpl. split; [done|]. apply lookup_lt_Some in Hr as Hlt.
  unfold row_at. simpl. split.
  - rewrite list_lookup_insert_ne by done. by apply lookup_app_l_Some.
  - apply list_lookup_insert_eq. rewrite length_app. simpl. lia.
Qed.

Lemma Row_copy_independent_witness :
  wp (c ← Row_copy 0; Row_setitem c 1 (num 9);; mret c) (store_of A22)
     (returns (λ c w', c ≠ 0%nat ∧ row_at w' 0 [num 1; num 2] ∧
        row_at w' c (<[Z.to_nat (1 mod Z.of_nat (length [num 1; num 2])) := num 9]>
                       [num 1; num 2]))) ∧
  wp (c ← Row_deepcopy 0; Row_setitem c 1 (num 9);; mret c) (store_of A22)
     (returns (λ c w', c ≠ 0%nat ∧ row_at w' 0 [num 1; num 2] ∧
        row_at w' c (<[Z.to_nat (1 mod Z.of_nat (length [num 1; num 2])) := num 9]>
                       [num 1; num 2]))).
Proof.
  apply (Row_copy_independent (store_of A22) 0 [num 1; num 2] 1 (num 9));
    [reflexivity|]. simpl. lia.
Defined.

(** ** class Matrix: construction, copies and accessors *)

(** The store after the rows of a matrix have been built: the new [Row]
    objects follow the existing ones, in order. *)
Lemma traverse_Row_init_run {X} (iter : X → M (list Qc)) (x : list X)
    (B : list (list Qc)) w :
  Forall2 (λ z xs, ∀ w', grows w w' → iter z w' = (Ok xs, w')) x B →
  traverse (λ z, nums ← iter z; Row_init nums) x w =
  (Ok (seq (length (w_rows w)) (length B)),
   World (w_rows w ++ B) (w_mats w) (w_out w)).
Proof.
  revert B w. induction x as [|z x IH]; intros B w H.
  - apply Forall2_nil_inv_l in H as ->. simpl. rewrite app_nil_r. by destruct w.
  - apply Forall2_cons_inv_l in H as (xs & B' & Hz & H & ->). simpl.
    assert (grows w (with_row w xs)) as G.
    { split; simpl; [by apply prefix_app_r|done..]. }
    erewrite run_bind;
      [|by rewrite (run_bind _ _ _ _ _ (Hz w (reflexivity w))), Row_init_run].
    erewrite run_bind; [|apply IH].
    + simpl. rewrite length_app, <-app_assoc. simpl.
      by rewrite Nat.add_1_r.
    + eapply Forall2_impl; [exact H|]. intros ?? Hi w' G'. apply Hi. by etrans.
Qed.

Lemma fresh_rows_at (rows B : list (list Qc)) mats out :
  Forall2 (row_at (World (rows ++ B) mats out)) (seq (length rows) (length B)) B.
Proof.
  apply Forall2_same_length_lookup. split; [by rewrite length_seq|].
  intros i r xs Hr Hxs. apply lookup_seq in Hr as [-> Hi].
  unfold row_at. simpl. rewrite lookup_app_r by lia.
  by replace (length rows + i - length rows)%nat with i by lia.
Qed.

Lemma contents_fresh_matrix (rows B : list (list Qc)) mats out c :
  contents (World (rows ++ B)
              (mats ++ [MatrixObj (seq (length rows) (length B)) c]) out)
           (length mats) = Some B.
Proof.
  apply contents_Some. eexists. simpl. split; [by apply list_lookup_middle|].
  simpl. apply fresh_rows_at.
Qed.

Lemma Matrix_init_run {X} (iter : X → M (list Qc)) (x : list X)
    (B : list (list Qc)) w :
  Forall2 (λ z xs, ∀ w', grows w w' → iter z w' = (Ok xs, w')) x B →
  init_check B = None →
  ∃ c, Matrix_init iter x w =
       (Ok (length (w_mats w)),
        World (w_rows w ++ B)
              (w_mats w ++ [MatrixObj (seq (length (w_rows w)) (length B)) c])
              (w_out w)).
Proof.
  intros H Hchk. unfold Matrix_init, init_check in *.
  rewrite (run_bind _ _ _ _ _ (traverse_Row_init_run _ _ _ _ H)).
  rewrite length_seq. case_decide as Hlen; [done|].
  rewrite (run_bind _ _ _ _ _ (traverse_Row_len_run _ _ _ (fresh_rows_at _ _ _ _))).
  case_decide as Hsz; [done|].
  destruct (elements _) as [|cl els] eqn:Hel.
  { apply elements_empty_inv in Hel. apply leibniz_equiv in Hel.
    destruct B as [|b0 B]; [done|]. exfalso. revert Hel. simpl. set_solver. }
  exists cl. erewrite run_bind; [|done]. done.
Qed.

Lemma Matrix_new_run (x : list (list Qc)) w :
  init_check x = None →
  ∃ c, Matrix_new x w =
       (Ok (length (w_mats w)),
        World (w_rows w ++ x)
              (w_mats w ++ [MatrixObj (seq (length (w_rows w)) (length x)) c])
              (w_out w)).
Proof.
  intros Hchk. apply Matrix_init_run; [|done].
  by apply Forall_Forall2_diag, Forall_true.
Qed.

Lemma Matrix_copy_run w m A :
  contents w m = Some A → init_check A = None →
  ∃ c, Matrix_copy m w =
       (Ok (length (w_mats w)),
        World (w_rows w ++ A)
              (w_mats w ++ [MatrixObj (seq (length (w_rows w)) (length A)) c])
              (w_out w)).
Proof.
  intros Hm Hchk. destruct (Matrix_iter_run _ _ _ Hm) as (rs & Ers & Hrs).
  destruct (Matrix_init_run Row_iter rs A w) as [c E]; [|done|].
  - eapply Forall2_impl; [exact Hrs|]. intros r xs Hr w' G.
    apply Row_iter_run. by eapply row_at_grows.
  - exists c. unfold Matrix_copy. by rewrite (run_bind _ _ _ _ _ Ers).
Qed.

(** [m[i][j] = v] on a matrix whose rows are the last objects created. *)
Lemma fresh_matrix_entry_assignment {X} (k : M X) (Q : result X → world → Prop)
    (rows B : list (list Qc)) mats out c0 n c i j v :
  shape n c B → (i < n)%nat → (j < c)%nat →
  wp k (World (rows ++ <[i := <[j := v]> (B !!! i)]> B)
              (mats ++ [MatrixObj (seq (length rows) (length B)) c0]) out) Q →
  wp (r ← Matrix_getitem (length mats) (Z.of_nat i);
      Row_setitem r (Z.of_nat j) v;; k)
     (World (rows ++ B) (mats ++ [MatrixObj (seq (length rows) (length B)) c0]) out)
     Q.
Proof.
  intros HB Hi Hj Hk. pose proof (proj1 HB) as Hn.
  set (w := World (rows ++ B) _ _).
  destruct (lookup_lt_is_Some_2 B i) as [xs Hxs]; [lia|].
  pose proof (shape_lookup _ _ _ _ _ HB Hxs) as Hlen.
  rewrite (list_lookup_total_correct _ _ _ Hxs) in Hk.
  assert (Matrix_getitem (length mats) (Z.of_nat i) w
          = (Ok (length rows + i)%nat, w)) as Eg.
  { unfold Matrix_getitem. erewrite run_bind;
      [|unfold read_matrix, w; simpl; by rewrite list_lookup_middle].
    unfold lift. simpl. rewrite (list_getitem_lookup _ i (length rows + i)%nat); [done|].
    apply lookup_seq. lia. }
  assert (row_at w (length rows + i) xs) as Hr.
  { unfold row_at, w. simpl. rewrite lookup_app_r by lia.
    by replace (length rows + i - length rows)%nat with i by lia. }
  eapply wp_run_bind; [exact Eg|].
  eapply wp_run_bind; [|exact Hk].
  rewrite (Row_setitem_run _ _ _ _ _ Hr), list_setitem_nat by lia.
  unfold w. simpl. by rewrite insert_app_r.
Qed.

(** X9.  [Matrix.__getitem__] hands out the [Row] object itself, not a
    copy: after [m = Matrix(x)], the assignment [m[i][j] = v] changes the
    entry in row [i], column [j] of [m], and no other entry. *)
Theorem Matrix_entry_assignment x n c w i j v :
  shape n c x → (i < n)%nat → (j < c)%nat →
  wp (m ← Matrix_new x;
      r ← Matrix_getitem m (Z.of_nat i);
      Row_setitem r (Z.of_nat j) v;;
      mret m) w
     (returns (λ m w', contents w' m = Some (<[i := <[j := v]> (x !!! i)]> x))).
Proof.
  intros Hx Hi Hj.
  destruct (Matrix_new_run x w) as [c0 E];
    [by apply (init_check_shape n c); [|lia]|].
  eapply wp_run_bind; [exact E|].
  apply (fresh_matrix_entry_assignment _ _ _ _ _ _ _ n c); [done..|].
  apply wp_ret. simpl.
  rewrite <-(length_insert x i (<[j := v]> (x !!! i))) at 1.
  apply contents_fresh_matrix.
Qed.

Lemma Matrix_entry_assignment_witness :
  wp (m ← Matrix_new A22;
      r ← Matrix_getitem m (Z.of_nat 1);
      Row_setitem r (Z.of_nat 0) (num 7);;
      mret m) empty_world
     (returns (λ m w', contents w' m = Some (<[1%nat := <[0%nat := num 7]> (A22 !!! 1%nat)]> A22))).
Proof.
  apply (Matrix_entry_assignment A22 2 2 empty_world 1 0 (num 7)).
  - split; [reflexivity|]. repeat constructor.
  - lia.
  - lia.
Defined.

(** X10.  [copy(m)] and [deepcopy(m)] both build new [Row] objects, so
    both are deep: the copy is a new [Matrix] object with the entries of
    [m], and assigning to an entry of the copy leaves [m] as it was. *)
Theorem Matrix_copy_is_deep w m A n c i j v :
  contents w m = Some A → shape n c A → (i < n)%nat → (j < c)%nat →
  wp (cp ← Matrix_copy m;
      r ← Matrix_getitem cp (Z.of_nat i);
      Row_setitem r (Z.of_nat j) v;;
      mret cp) w
     (returns (λ cp w', cp ≠ m ∧ contents w' m = Some A ∧
                        contents w' cp = Some (<[i := <[j := v]> (A !!! i)]> A))) ∧
  wp (cp ← Matrix_deepcopy m;
      r ← Matrix_getitem cp (Z.of_nat i);
      Row_setitem r (Z.of_nat j) v;;
      mret cp) w
     (returns (λ cp w', cp ≠ m ∧ contents w' m = Some A ∧
                        contents w' cp = Some (<[i := <[j := v]> (A !!! i)]> A))).
Proof.
  intros Hm HA Hi Hj.
  assert (wp (cp ← Matrix_copy m;
      r ← Matrix_getitem cp (Z.of_nat i);
      Row_setitem r (Z.of_nat j) v;;
      mret cp) w
     (returns (λ cp w', cp ≠ m ∧ contents w' m = Some A ∧
                        contents w' cp = Some (<[i := <[j := v]> (A !!! i)]> A))))
    as H; [|by split].
  destruct (Matrix_copy_run w m A Hm) as [c0 E];
    [by apply (init_check_shape n c); [|lia]|].
  eapply wp_run_bind; [exact E|].
  apply (fresh_matrix_entry_assignment _ _ _ _ _ _ _ n c); [done..|].
  apply wp_ret. simpl.
  split; [|split].
  - apply contents_Some in Hm as (o & Ho%lookup_lt_Some & _). lia.
  - eapply preserved_contents; [|exact Hm]. split; simpl.
    + by apply prefix_app_r.
    + intros m' o Ho. by apply lookup_app_l_Some.
  - rewrite <-(length_insert A i (<[j := v]> (A !!! i))) at 1.
    apply contents_fresh_matrix.
Qed.

Lemma Matrix_copy_is_deep_witness :
  wp (cp ← Matrix_copy 0;
      r ← Matrix_getitem cp (Z.of_nat 0);
      Row_setitem r (Z.of_nat 1) (num 9);;
      mret cp) (store_of A22)
     (returns (λ cp w', cp ≠ 0%nat ∧ contents w' 0 = Some A22 ∧
        contents w' cp = Some (<[0%nat := <[1%nat := num 9]> (A22 !!! 0%nat)]> A22))) ∧
  wp (cp ← Matrix_deepcopy 0;
      r ← Matrix_getitem cp (Z.of_nat 0);
      Row_setitem r (Z.of_nat 1) (num 9);;
      mret cp) (store_of A22)
     (returns (λ cp w', cp ≠ 0%nat ∧ contents w' 0 = Some A22 ∧
        contents w' cp = Some (<[0%nat := <[1%nat := num 9]> (A22 !!! 0%nat)]> A22))).
Proof.
  apply (Matrix_copy_is_deep (store_of A22) 0 A22 2 2 0 1 (num 9)).
  - reflexivity.
  - split; [reflexivity|]. repeat constructor.
  - lia.
  - lia.
Defined.

(** X11.  [swap_rows(i, j)] exchanges rows [i] and [j] and keeps every
    other row; when an index is past the last row it raises [IndexError]
    and the matrix is untouched, since both rows are read before either is
    assigned. *)
Theorem Matrix_swap_rows_outcome w m A i j :
  contents w m = Some A →
  ((i < length A)%nat → (j < length A)%nat →
     wp (Matrix_swap_rows m (Z.of_nat i) (Z.of_nat j)) w
        (returns (λ _ w', ∃ B,
           contents w' m = Some B ∧ length B = length A ∧
           B !!! i = A !!! j ∧ B !!! j = A !!! i ∧
           ∀ k, k ≠ i → k ≠ j → B !!! k = A !!! k))) ∧
  ((length A ≤ i ∨ length A ≤ j)%nat →
     Matrix_swap_rows m (Z.of_nat i) (Z.of_nat j) w = (Err IndexError, w)).
Proof.
  intros Hm. split.
  - intros Hi Hj. eapply wp_mono; [by apply wp_Matrix_swap_rows|].
    intros [[]|e] w'; simpl; [|done]. intros Hc. exists (swap_rows i j A).
    split; [done|]. split; [apply length_swap_rows|].
    split; [by apply lookup_total_swap_rows_l|].
    split; [by apply lookup_total_swap_rows_r|].
    intros k ??. by apply lookup_total_swap_rows_ne.
  - intros Hij. unfold Matrix_swap_rows.
    destruct (decide (length A ≤ j)%nat) as [Hj|Hj].
    + by rewrite (run_bind_err _ _ _ _ _ (Matrix_getitem_ge_run _ _ _ Hm j Hj)).
    + destruct (Matrix_row_run w m A j Hm) as (rj & Erj & _); [lia|].
      rewrite (run_bind _ _ _ _ _ Erj).
      assert (length A ≤ i)%nat as Hi by lia.
      by rewrite (run_bind_err _ _ _ _ _ (Matrix_getitem_ge_run _ _ _ Hm i Hi)).
Qed.

Lemma Matrix_swap_rows_outcome_witness :
  wp (Matrix_swap_rows 0 (Z.of_nat 0) (Z.of_nat 1)) (store_of A22)
     (returns (λ _ w', ∃ B,
        contents w' 0 = Some B ∧ length B = length A22 ∧
        B !!! 0%nat = A22 !!! 1%nat ∧ B !!! 1%nat = A22 !!! 0%nat ∧
        ∀ k, k ≠ 0%nat → k ≠ 1%nat → B !!! k = A22 !!! k)) ∧
  Matrix_swap_rows 0 (Z.of_nat 0) (Z.of_nat 2) (store_of A22)
    = (Err IndexError, store_of A22).
Proof.
  split.
  - apply (Matrix_swap_rows_outcome (store_of A22) 0 A22 0 1);
      [reflexivity|simpl; lia..].
  - apply (Matrix_swap_rows_outcome (store_of A22) 0 A22 0 2);
      [reflexivity|simpl; lia].
Defined.

Lemma swap_rows_involutive A i j :
  (i < length A)%nat → (j < length A)%nat → swap_rows i j (swap_rows i j A) = A.
Proof.
  intros Hi Hj. apply (rows_eq (length A)); [done|by rewrite !length_swap_rows|].
  intros k Hk.
  destruct (decide (k = i)) as [->|Hki].
  { rewrite lookup_total_swap_rows_l by (by rewrite length_swap_rows).
    by rewrite lookup_total_swap_rows_r. }
  destruct (decide (k = j)) as [->|Hkj].
  { rewrite lookup_total_swap_rows_r by (by rewrite length_swap_rows).
    by rewrite lookup_total_swap_rows_l. }
  by rewrite !lookup_total_swap_rows_ne.
Qed.

(** X12.  Swapping the same two rows twice gives the matrix back, and
    swapping a row with itself changes nothing. *)
Theorem Matrix_swap_rows_twice w m A i j :
  contents w m = Some A → (i < length A)%nat → (j < length A)%nat →
  wp (Matrix_swap_rows m (Z.of_nat i) (Z.of_nat j);;
      Matrix_swap_rows m (Z.of_nat i) (Z.of_nat j)) w
     (returns (λ _ w', contents w' m = Some A)) ∧
  wp (Matrix_swap_rows m (Z.of_nat i) (Z.of_nat i)) w
     (returns (λ _ w', contents w' m = Some A)).
Proof.
  intros Hm Hi Hj. split.
  - eapply wp_step; [by apply wp_Matrix_swap_rows|].
    intros [] w1 Hm1. cbv beta in Hm1.
    eapply wp_mono;
      [apply (wp_Matrix_swap_rows _ _ _ _ _ Hm1); by rewrite length_swap_rows|].
    intros [[]|e] w2; simpl; [|done]. by rewrite swap_rows_involutive.
  - eapply wp_mono; [by apply wp_Matrix_swap_rows|].
    intros [[]|e] w2; simpl; [|done]. by rewrite swap_rows_same.
Qed.

Lemma Matrix_swap_rows_twice_witness :
  wp (Matrix_swap_rows 0 (Z.of_nat 0) (Z.of_nat 1);;
      Matrix_swap_rows 0 (Z.of_nat 0) (Z.of_nat 1)) (store_of A22)
     (returns (λ _ w', contents w' 0 = Some A22)) ∧
  wp (Matrix_swap_rows 0 (Z.of_nat 0) (Z.of_nat 0)) (store_of A22)
     (returns (λ _ w', contents w' 0 = Some A22)).
Proof.
  apply (Matrix_swap_rows_twice (store_of A22) 0 A22 0 1);
    [reflexivity|simpl; lia..].
Defined.

Lemma Matrix_col_loop_run w m A n c k lo :
  contents w m = Some A → shape n c A → (k < c)%nat →
  traverse (λ j : nat, r ← Matrix_getitem m (Z.of_nat j); Row_getitem r (Z.of_nat k))
           (seq lo (n - lo)) w
  = (Ok ((λ row, row !!! k) <$> drop lo A), w).
Proof.
  intros Hm HA Hk. pose proof (proj1 HA) as Hn.
  remember (n - lo)%nat as d eqn:Hd. revert lo Hd.
  induction d as [|d IH]; intros lo Hd; simpl.
  - rewrite drop_ge by lia. done.
  - destruct (lookup_lt_is_Some_2 A lo) as [xs Hxs]; [lia|].
    destruct (Matrix_getitem_run _ _ _ Hm _ _ Hxs) as (r & Er & Hr).
    pose proof (shape_lookup _ _ _ _ _ HA Hxs) as Hlen.
    erewrite run_bind; cycle 1.
    { rewrite (run_bind _ _ _ _ _ Er).
      apply (Row_getitem_nat_run _ _ _ Hr k (xs !!! k)).
      apply list_lookup_lookup_total_lt. lia. }
    assert (d = n - S lo)%nat as Hd' by lia.
    rewrite (run_bind _ _ _ _ _ (IH (S lo) Hd')).
    by rewrite (drop_S _ _ _ Hxs).
Qed.

(** X13.  [col(k)] returns column [k] from top to bottom, one number per
    row, and leaves the store alone; for [k] past the last column it raises
    [IndexError]. *)
Theorem Matrix_col_outcome w m A n c k :
  contents w m = Some A → shape n c A → (0 < n)%nat →
  ((k < c)%nat →
     ∃ col, Matrix_col m (Z.of_nat k) w = (Ok col, w) ∧ length col = n ∧
            ∀ i, (i < n)%nat → col !!! i = entry A i k) ∧
  ((c ≤ k)%nat → Matrix_col m (Z.of_nat k) w = (Err IndexError, w)).
Proof.
  intros Hm HA Hn. pose proof (proj1 HA) as HlenA. split; intros Hk.
  - exists ((λ row, row !!! k) <$> A). split; [|split].
    + unfold Matrix_col. rewrite (run_bind _ _ _ _ _ (Matrix_len_run _ _ _ Hm)).
      unfold range. rewrite HlenA.
      by rewrite (Matrix_col_loop_run w m A n c k 0 Hm HA Hk), drop_0.
    + by rewrite length_fmap.
    + intros i Hi. unfold entry.
      by rewrite (list_lookup_total_fmap (λ row : list Qc, row !!! k)) by lia.
  - unfold Matrix_col. rewrite (run_bind _ _ _ _ _ (Matrix_len_run _ _ _ Hm)).
    unfold range. rewrite HlenA. destruct n as [|n]; [lia|]. simpl.
    destruct (Matrix_row_run w m A 0 Hm) as (r & Er & Hr); [lia|].
    erewrite run_bind_err; [done|].
    change 0%Z with (Z.of_nat 0). rewrite (run_bind _ _ _ _ _ Er).
    apply (Row_entry_ge_run w r (S n) c A 0 k HA); [lia|done|done].
Qed.

Lemma Matrix_col_outcome_witness :
  (∃ col, Matrix_col 0 (Z.of_nat 1) (store_of A23) = (Ok col, store_of A23) ∧
          length col = 2%nat ∧
          ∀ i, (i < 2)%nat → col !!! i = entry A23 i 1) ∧
  Matrix_col 0 (Z.of_nat 3) (store_of A23) = (Err IndexError, store_of A23).
Proof.
  split.
  - apply (Matrix_col_outcome (store_of A23) 0 A23 2 3 1).
    + reflexivity.
    + split; [reflexivity|]. repeat constructor.
    + lia.
    + lia.
  - apply (Matrix_col_outcome (store_of A23) 0 A23 2 3 3).
    + reflexivity.
    + split; [reflexivity|]. repeat constructor.
    + lia.
    + lia.
Defined.

(** X14.  [print(m)] on a matrix of Fractions: [Matrix.__str__] takes the
    [max] of the widths of all entries, so a matrix without entries (rows of
    length zero, which the constructor accepts) cannot be printed: the call
    raises the [ValueError] of [max] and prints nothing.  Any other matrix
    of Fractions is printed once, and nothing else changes.  (A [float]
    entry that is not finite also stops the call:
    [print_matrix_not_finite].) *)
Theorem print_matrix_outcome w m A :
  contents w m = Some A →
  (concat A = [] → print_matrix m w = (Err EmptySequence, w)) ∧
  (concat A ≠ [] →
     print_matrix m w =
       (Ok (), World (w_rows w) (w_mats w) (w_out w ++ [PrintMatrix A]))).
Proof.
  intros Hm. split; intros HA.
  - by apply (print_matrix_empty_run _ _ A).
  - unfold print_matrix. erewrite run_bind; [done|].
    rewrite (Matrix_str_run _ _ _ Hm). by rewrite decide_False.
Qed.

Lemma print_matrix_outcome_witness :
  print_matrix 0 (store_of [[]; []])
    = (Err EmptySequence, store_of [[]; []]) ∧
  print_matrix 0 (store_of A22)
    = (Ok (), World (w_rows (store_of A22)) (w_mats (store_of A22))
                    (w_out (store_of A22) ++ [PrintMatrix A22])).
Proof.
  split.
  - apply (print_matrix_outcome (store_of [[]; []]) 0 [[]; []]); reflexivity.
  - apply (print_matrix_outcome (store_of A22) 0 A22); [reflexivity|].
    discriminate.
Defined.

(** ** The algorithms validate their receiver again *)

Lemma bind_raises_fst {A B} (c : M A) (k : A → M B) w e :
  (c w).1 = Err e → ((c ≫= k) w).1 = Err e.
Proof.
  intros E. destruct (c w) as [r w'] eqn:Ec. simpl in E. subst r.
  by rewrite (run_bind_err _ _ _ _ _ Ec).
Qed.

Lemma algorithms_raise_init_error w self A verbose e :
  contents w self = Some A → init_check A = Some e →
  (det self verbose w).1 = Err e ∧
  (ref self verbose w).1 = Err e ∧
  (rref self verbose w).1 = Err e.
Proof.
  intros Hm Hchk.
  pose proof (wp_Matrix_deepcopy _ _ w Hm) as H. unfold wp in H.
  rewrite Hchk in H.
  assert ((ref self verbose w).1 = Err e) as Href
    by (by apply bind_raises_fst).
  split; [by apply bind_raises_fst|]. split; [done|].
  by apply bind_raises_fst.
Qed.

(** X15.  [Matrix.__setitem__] does not check the length of the row it is
    given.  Assigning a row of another length succeeds and leaves a matrix
    whose rows differ in length; [det], [ref] and [rref] then fail on it
    with the ragged-rows [ValueError] of the constructor, which they run on
    the copy they start from. *)
Theorem Matrix_setitem_unchecked w m A n c k r xs verbose :
  contents w m = Some A → shape n c A → (1 < n)%nat → (k < n)%nat →
  row_at w r xs → length xs ≠ c →
  ∃ w' ls,
    Matrix_setitem m (Z.of_nat k) r w = (Ok (), w') ∧
    contents w' m = Some (<[k := xs]> A) ∧
    ls = (if decide (c < length xs)%nat then [c; length xs] else [length xs; c]) ∧
    (det m verbose w').1 = Err (RaggedRows ls) ∧
    (ref m verbose w').1 = Err (RaggedRows ls) ∧
    (rref m verbose w').1 = Err (RaggedRows ls).
Proof.
  intros Hm HA Hn Hk Hr Hlen. pose proof (proj1 HA) as HlenA.
  pose proof (wp_Matrix_setitem w m A Hm k r xs) as Hset.
  unfold wp, returns in Hset.
  destruct (Matrix_setitem m (Z.of_nat k) r w) as [[[]|e] w'] eqn:E;
    simpl in Hset; [|destruct Hset; [lia|done]].
  specialize (Hset ltac:(lia) Hr).
  exists w'. eexists. split; [done|]. split; [done|]. split; [done|].
  apply algorithms_raise_init_error with (A := <[k := xs]> A); [done|].
  (* the checks of the constructor on the new contents *)
  set (B := <[k := xs]> A).
  assert (∃ j, (j < n)%nat ∧ j ≠ k) as (j & Hj & Hjk).
  { destruct (decide (k = 0)%nat) as [->|]; [exists 1%nat|exists 0%nat]; lia. }
  assert (xs ∈ B) as Hin1.
  { apply (list_elem_of_lookup_2 _ k). apply list_lookup_insert_eq. lia. }
  assert (A !!! j ∈ B ∧ length (A !!! j) = c) as [Hin2 Hlenj].
  { split; [|by apply (shape_lookup_total n)].
    apply (list_elem_of_lookup_2 _ j). unfold B.
    rewrite list_lookup_insert_ne by done.
    apply list_lookup_lookup_total_lt. lia. }
  assert (∀ ys, ys ∈ B → length ys = length xs ∨ length ys = c) as Hall.
  { intros ys Hys. apply list_elem_of_lookup_1 in Hys as [i Hi].
    destruct (decide (i = k)) as [->|Hne].
    - unfold B in Hi. rewrite list_lookup_insert_eq in Hi by lia.
      left. congruence.
    - unfold B in Hi. rewrite list_lookup_insert_ne in Hi by done.
      right. by eapply shape_lookup. }
  destruct (init_check_cases B) as [[HB _]|[(_ & _ & ->)|(_ & Hnr & _)]].
  - rewrite HB in Hin1. by apply elem_of_nil in Hin1.
  - do 2 f_equal. symmetry. apply sorted_lengths_spec.
    case_decide as Hlt.
    + split; [repeat constructor; lia|].
      split; [apply NoDup_cons; split;
                [intros ?%list_elem_of_singleton; lia|apply NoDup_singleton]|].
      intros l. rewrite !elem_of_cons, elem_of_nil. split.
      * intros [->|[->|[]]]; eauto.
      * intros (ys & Hys & <-). destruct (Hall ys Hys); auto.
    + split; [repeat constructor; lia|].
      split; [apply NoDup_cons; split;
                [intros ?%list_elem_of_singleton; lia|apply NoDup_singleton]|].
      intros l. rewrite !elem_of_cons, elem_of_nil. split.
      * intros [->|[->|[]]]; eauto.
      * intros (ys & Hys & <-). destruct (Hall ys Hys); auto.
  - destruct Hnr. exists xs, (A !!! j). split; [done|]. split; [done|]. congruence.
Qed.

Lemma Matrix_setitem_unchecked_witness :
  ∃ w' ls,
    Matrix_setitem 0 (Z.of_nat 1) 2 (with_row (store_of A22) [num 5]) = (Ok (), w') ∧
    contents w' 0 = Some (<[1%nat := [num 5]]> A22) ∧
    ls = (if decide (2 < length [num 5])%nat
          then [2%nat; length [num 5]] else [length [num 5]; 2%nat]) ∧
    (det 0 0 w').1 = Err (RaggedRows ls) ∧
    (ref 0 0 w').1 = Err (RaggedRows ls) ∧
    (rref 0 0 w').1 = Err (RaggedRows ls).
Proof.
  apply (Matrix_setitem_unchecked (with_row (store_of A22) [num 5]) 0 A22 2 2 1 2
           [num 5] 0).
  - reflexivity.
  - split; [reflexivity|]. repeat constructor.
  - lia.
  - lia.
  - reflexivity.
  - simpl. lia.
Defined.

(** ** det, ref and rref: outcomes at the edges *)

Lemma nil_rows_echelon n R :
  shape n 0 R → echelon_upto n n R ∧ cleared_upto n n R.
Proof.
  intros HR.
  assert (∀ i, pivot (R !!! i) = (-1)%Z) as Hp.
  { intros i. destruct (decide (i < n)%nat) as [Hi|Hi].
    - pose proof (shape_lookup_total n 0 R i HR Hi) as Hlen.
      apply length_zero_iff_nil in Hlen. by rewrite Hlen.
    - rewrite list_lookup_total_alt, lookup_ge_None_2; [done|].
      rewrite (proj1 HR). lia. }
  split.
  - intros i _ _. split; [|done]. intros p Hpi. rewrite Hp in Hpi. lia.
  - intros i _ _ p Hpi. rewrite Hp in Hpi. lia.
Qed.

(** X16.  A matrix with rows of length zero (the constructor accepts
    [[[], []]]).  With [verbose > 0] the first [print] of [det], [ref] and
    [rref] fails with the [ValueError] of [max]; with [verbose <= 0], [ref]
    and [rref] return a copy with the same (empty) rows and [det] raises
    [IndexError] on its first look at an entry. *)
Theorem no_columns_outcome w self A n verbose :
  contents w self = Some A → shape n 0 A → (0 < n)%nat →
  ((0 < verbose)%Z →
     (det self verbose w).1 = Err EmptySequence ∧
     (ref self verbose w).1 = Err EmptySequence ∧
     (rref self verbose w).1 = Err EmptySequence) ∧
  ((verbose ≤ 0)%Z →
     (det self verbose w).1 = Err IndexError ∧
     (∃ new, (ref self verbose w).1 = Ok new ∧
             contents (ref self verbose w).2 new = Some A) ∧
     (∃ new, (rref self verbose w).1 = Ok new ∧
             contents (rref self verbose w).2 new = Some A)).
Proof.
  intros Hm HA Hn.
  pose proof (det_outcome _ _ _ _ _ verbose Hm HA Hn) as Hdet.
  pose proof (ref_outcome _ _ _ _ _ verbose Hm HA Hn) as Href.
  pose proof (rref_outcome _ _ _ _ _ verbose Hm HA Hn) as Hrref.
  destruct (nil_rows_echelon n A HA) as [Hech Hcl].
  split; intros Hv.
  - rewrite decide_True in Hdet by done. rewrite decide_True in Href by done.
    rewrite decide_True in Hrref by done. done.
  - rewrite decide_False in Hdet by lia. rewrite decide_False in Href by lia.
    rewrite decide_False in Hrref by lia.
    rewrite decide_True in Hdet by done.
    rewrite (ref_fun_fixed n 0) in Href by done.
    rewrite (rref_fun_fixed n 0) in Hrref by done. done.
Qed.

Lemma no_columns_outcome_witness :
  ((det 0 1 (store_of [[]; []])).1 = Err EmptySequence ∧
   (ref 0 1 (store_of [[]; []])).1 = Err EmptySequence ∧
   (rref 0 1 (store_of [[]; []])).1 = Err EmptySequence) ∧
  ((det 0 0 (store_of [[]; []])).1 = Err IndexError ∧
   (∃ new, (ref 0 0 (store_of [[]; []])).1 = Ok new ∧
           contents (ref 0 0 (store_of [[]; []])).2 new = Some [[]; []]) ∧
   (∃ new, (rref 0 0 (store_of [[]; []])).1 = Ok new ∧
           contents (rref 0 0 (store_of [[]; []])).2 new = Some [[]; []])).
Proof.
  split.
  - apply (no_columns_outcome (store_of [[]; []]) 0 [[]; []] 2 1).
    + reflexivity.
    + split; [reflexivity|]. repeat constructor.
    + lia.
    + lia.
  - apply (no_columns_outcome (store_of [[]; []]) 0 [[]; []] 2 0).
    + reflexivity.
    + split; [reflexivity|]. repeat constructor.
    + lia.
    + lia.
Defined.

(** X17.  [det] on a matrix of Fractions that is not square.  The guard
    never fires; what happens instead depends on the shape only: with more
    rows than columns the call raises [IndexError] (round [c] reads past the
    end of a row), with more columns than rows it returns a number, whatever
    the Fractions in it and the verbose level.  (With an [int] too large for
    a [float] the call can raise [OverflowError]:
    [det_overflow_example].) *)
Theorem det_non_square_outcome w self A n c verbose :
  contents w self = Some A → shape n c A → (0 < n)%nat → (0 < c)%nat → n ≠ c →
  ((c < n)%nat → (det self verbose w).1 = Err IndexError) ∧
  ((n < c)%nat → ∃ d, (det self verbose w).1 = Ok d) ∧
  (∀ dims, (det self verbose w).1 ≠ Err (NotSquare dims)).
Proof.
  intros Hm HA Hn Hc Hne.
  rewrite (det_outcome _ _ _ _ _ verbose Hm HA Hn).
  rewrite decide_False by lia.
  split; [|split].
  - intros Hlt. by rewrite decide_True.
  - intros Hlt. rewrite decide_False by lia. eauto.
  - intros dims. by case_decide.
Qed.

Lemma det_non_square_outcome_witness :
  (det 0 0 (store_of A32)).1 = Err IndexError ∧
  ∃ d, (det 0 0 (store_of A23)).1 = Ok d.
Proof.
  split.
  - apply (det_non_square_outcome (store_of A32) 0 A32 3 2 0).
    + reflexivity.
    + split; [reflexivity|]. repeat constructor.
    + lia.
    + lia.
    + lia.
    + lia.
  - apply (det_non_square_outcome (store_of A23) 0 A23 2 3 0).
    + reflexivity.
    + split; [reflexivity|]. repeat constructor.
    + lia.
    + lia.
    + lia.
    + lia.
Defined.

(** ** ref and rref: how the calls compose *)

(** X18.  [ref] is idempotent: [ref] of the matrix returned by [ref] has
    the same entries. *)
Theorem ref_idempotent w self A n c verbose :
  contents w self = Some A → shape n c A → (0 < n)%nat →
  ((0 < verbose)%Z → (0 < c)%nat) →
  ∃ R, wp (ref self verbose) w (returns (λ new w', contents w' new = Some R)) ∧
       wp (new ← ref self verbose; ref new verbose) w
          (returns (λ new' w', contents w' new' = Some R)).
Proof.
  intros Hm HA Hn Hv. exists (ref_fun A). pose proof (shape_ref_fun n c A HA) as HR.
  split; [by apply (wp_ref verbose n c)|].
  eapply wp_step; [by apply (wp_ref verbose n c)|].
  intros new w1 Hm1. cbv beta in Hm1.
  replace (ref_fun A) with (ref_fun (ref_fun A))
    by (apply (ref_fun_fixed n c); [done|by apply (echelon_ref_fun n c)]).
  by apply (wp_ref verbose n c).
Qed.

(** X19.  [rref] absorbs [ref] on either side: [rref] of the result of
    [ref], and [ref] of the result of [rref], both have the entries of
    [rref] of the matrix itself. *)
Theorem rref_absorbs_ref w self A n c verbose :
  contents w self = Some A → shape n c A → (0 < n)%nat →
  ((0 < verbose)%Z → (0 < c)%nat) →
  ∃ R, wp (rref self verbose) w (returns (λ new w', contents w' new = Some R)) ∧
       wp (new ← ref self verbose; rref new verbose) w
          (returns (λ new' w', contents w' new' = Some R)) ∧
       wp (new ← rref self verbose; ref new verbose) w
          (returns (λ new' w', contents w' new' = Some R)).
Proof.
  intros Hm HA Hn Hv. exists (rref_fun A).
  pose proof (shape_ref_fun n c A HA) as HR.
  pose proof (shape_rref_fun n c A HA) as HR'.
  split; [by apply (wp_rref verbose n c)|]. split.
  - eapply wp_step; [by apply (wp_ref verbose n c)|].
    intros new w1 Hm1. cbv beta in Hm1.
    replace (rref_fun A) with (rref_fun (ref_fun A));
      [by apply (wp_rref verbose n c)|].
    unfold rref_fun.
    rewrite !(ref_fun_fixed n c (ref_fun A)); [done|done|by apply (echelon_ref_fun n c)].
  - eapply wp_step; [by apply (wp_rref verbose n c)|].
    intros new w1 Hm1. cbv beta in Hm1.
    destruct (reduced_rref_fun n c A HA Hn) as [Hech _].
    replace (rref_fun A) with (ref_fun (rref_fun A))
      by (by apply (ref_fun_fixed n c)).
    by apply (wp_ref verbose n c).
Qed.

Lemma ref_idempotent_witness :
  ∃ R, wp (ref 0 0) (store_of A23) (returns (λ new w', contents w' new = Some R)) ∧
       wp (new ← ref 0 0; ref new 0) (store_of A23)
          (returns (λ new' w', contents w' new' = Some R)).
Proof.
  apply (ref_idempotent (store_of A23) 0 A23 2 3 0).
  - reflexivity.
  - split; [reflexivity|]. repeat constructor.
  - lia.
  - lia.
Defined.

Lemma rref_absorbs_ref_witness :
  ∃ R, wp (rref 0 0) (store_of A23) (returns (λ new w', contents w' new = Some R)) ∧
       wp (new ← ref 0 0; rref new 0) (store_of A23)
          (returns (λ new' w', contents w' new' = Some R)) ∧
       wp (new ← rref 0 0; ref new 0) (store_of A23)
          (returns (λ new' w', contents w' new' = Some R)).
Proof.
  apply (rref_absorbs_ref (store_of A23) 0 A23 2 3 0).
  - reflexivity.
  - split; [reflexivity|]. repeat constructor.
  - lia.
  - lia.
Defined.

Lemma reduced_echelon_upto n c R :
  shape n c R → row_echelon R → pivot_columns_clear R →
  echelon_upto n n R ∧ cleared_upto n n R.
Proof.
  intros HR (Hinc & Hbot & Hone) Hclear. pose proof (proj1 HR) as Hlen. split.
  - intros i Hi _. split.
    + intros p Hp. split; [apply Hone; [lia|done]|].
      intros j Hj. destruct (pivot_cases (R !!! j)) as [Hz|[pj Hpj]];
        [by apply pivot_none_lz|].
      assert (p ≤ pj)%nat as Hle by (apply (Hinc i j p pj); [lia|done..]).
      assert (entry R j p = 0) as Hzero by (apply (Hclear i j p); [lia..|done]).
      apply pivot_some in Hpj as Hpj'. destruct Hpj' as (_ & Hnz & _).
      assert (p ≠ pj) by (intros ->; by apply Hnz).
      apply (lz_mono (S p) pj); [lia|by apply pivot_some_lz].
    + intros Hz j Hj. apply is_zero_pivot in Hz.
      destruct (is_zero (R !!! j)) eqn:Hzj; [by apply is_zero_pivot|].
      assert (j < i)%nat by (apply Hbot; [lia..|done|done]). lia.
  - intros i Hi _ p Hp j Hj. apply (Hclear i j p); [lia..|done].
Qed.

(** X20.  A matrix that is already in reduced row echelon form is
    returned as it is: [ref] and [rref] give a copy with the same
    entries. *)
Theorem reduced_form_is_fixed w self R n c verbose :
  contents w self = Some R → shape n c R → (0 < n)%nat →
  ((0 < verbose)%Z → (0 < c)%nat) →
  row_echelon R → pivot_columns_clear R →
  wp (ref self verbose) w (returns (λ new w', contents w' new = Some R)) ∧
  wp (rref self verbose) w (returns (λ new w', contents w' new = Some R)).
Proof.
  intros Hm HR Hn Hv Hre Hcl.
  destruct (reduced_echelon_upto n c R HR Hre Hcl) as [Hech Hclr].
  split.
  - pose proof (wp_ref verbose n c w self R Hm HR Hn Hv) as H.
    by rewrite (ref_fun_fixed n c R) in H.
  - pose proof (wp_rref verbose n c w self R Hm HR Hn Hv) as H.
    by rewrite (rref_fun_fixed n c R) in H.
Qed.

Lemma I22_reduced : row_echelon I22 ∧ pivot_columns_clear I22.
Proof.
  assert (shape 2 2 I22) as HS by (split; [reflexivity|repeat constructor]).
  assert (rref_fun I22 = I22) as E by compute_done.
  destruct (reduced_rref_fun 2 2 I22 HS) as [He Hc]; [lia|]. rewrite E in He, Hc.
  split; [by apply (echelon_row_echelon 2 2)|
          by apply (reduced_pivot_columns_clear 2 2)].
Qed.

Lemma reduced_form_is_fixed_witness :
  wp (ref 0 0) (store_of I22) (returns (λ new w', contents w' new = Some I22)) ∧
  wp (rref 0 0) (store_of I22) (returns (λ new w', contents w' new = Some I22)).
Proof.
  apply (reduced_form_is_fixed (store_of I22) 0 I22 2 2 0).
  - reflexivity.
  - split; [reflexivity|]. repeat constructor.
  - lia.
  - lia.
  - apply I22_reduced.
  - apply I22_reduced.
Defined.

(** X21.  In the matrix returned by [ref], and in the one returned by
    [rref], the pivot columns of the non-zero rows strictly increase from
    top to bottom; so there are at most as many non-zero rows as
    columns. *)
Theorem pivots_strictly_increase w self A n c verbose :
  contents w self = Some A → shape n c A → (0 < n)%nat →
  ((0 < verbose)%Z → (0 < c)%nat) →
  wp (ref self verbose) w
     (returns (λ new w', ∃ R, contents w' new = Some R ∧
        ∀ i j (pi pj : nat), (i < j < n)%nat →
          pivot (R !!! i) = Z.of_nat pi → pivot (R !!! j) = Z.of_nat pj →
          (pi < pj < c)%nat)) ∧
  wp (rref self verbose) w
     (returns (λ new w', ∃ R, contents w' new = Some R ∧
        ∀ i j (pi pj : nat), (i < j < n)%nat →
          pivot (R !!! i) = Z.of_nat pi → pivot (R !!! j) = Z.of_nat pj →
          (pi < pj < c)%nat)).
Proof.
  intros Hm HA Hn Hv.
  assert (∀ R, shape n c R → echelon_upto n n R →
            ∀ i j (pi pj : nat), (i < j < n)%nat →
              pivot (R !!! i) = Z.of_nat pi → pivot (R !!! j) = Z.of_nat pj →
              (pi < pj < c)%nat) as Hstrict.
  { intros R HR Hech i j pi pj Hij Hpi Hpj. split.
    - by apply (echelon_pivots_increase n R i j).
    - apply pivot_some in Hpj as (Hlt & _).
      by rewrite (shape_lookup_total n c) in Hlt by (done || lia). }
  split.
  - eapply wp_mono; [by apply (wp_ref verbose n c)|].
    intros [new|e] w'; simpl; [|done]. intros Hc. exists (ref_fun A).
    split; [done|]. apply Hstrict; [by apply shape_ref_fun|].
    by apply (echelon_ref_fun n c).
  - eapply wp_mono; [by apply (wp_rref verbose n c)|].
    intros [new|e] w'; simpl; [|done]. intros Hc. exists (rref_fun A).
    split; [done|]. apply Hstrict; [by apply shape_rref_fun|].
    by apply (reduced_rref_fun n c).
Qed.

Lemma pivots_strictly_increase_witness :
  wp (ref 0 0) (store_of A23)
     (returns (λ new w', ∃ R, contents w' new = Some R ∧
        ∀ i j (pi pj : nat), (i < j < 2)%nat →
          pivot (R !!! i) = Z.of_nat pi → pivot (R !!! j) = Z.of_nat pj →
          (pi < pj < 3)%nat)) ∧
  wp (rref 0 0) (store_of A23)
     (returns (λ new w', ∃ R, contents w' new = Some R ∧
        ∀ i j (pi pj : nat), (i < j < 2)%nat →
          pivot (R !!! i) = Z.of_nat pi → pivot (R !!! j) = Z.of_nat pj →
          (pi < pj < 3)%nat)).
Proof.
  apply (pivots_strictly_increase (store_of A23) 0 A23 2 3 0).
  - reflexivity.
  - split; [reflexivity|]. repeat constructor.
  - lia.
  - lia.
Defined.

(** X22.  The verbose level only affects what is printed: on a matrix
    with at least one column, [det] has the same outcome and [ref] and
    [rref] return matrices with the same entries at any two verbose
    levels. *)
Theorem verbose_only_prints w self A n c v v' :
  contents w self = Some A → shape n c A → (0 < n)%nat → (0 < c)%nat →
  (det self v w).1 = (det self v' w).1 ∧
  (∃ R, wp (ref self v) w (returns (λ new w', contents w' new = Some R)) ∧
        wp (ref self v') w (returns (λ new w', contents w' new = Some R))) ∧
  (∃ R, wp (rref self v) w (returns (λ new w', contents w' new = Some R)) ∧
        wp (rref self v') w (returns (λ new w', contents w' new = Some R))).
Proof.
  intros Hm HA Hn Hc. split; [|split].
  - rewrite !(det_outcome _ _ _ _ _ _ Hm HA Hn).
    by rewrite !(decide_False (P := (_ ∧ c = 0%nat))) by lia.
  - exists (ref_fun A). split; by apply (wp_ref _ n c).
  - exists (rref_fun A). split; by apply (wp_rref _ n c).
Qed.

Lemma verbose_only_prints_witness :
  (det 0 0 (store_of A22)).1 = (det 0 2 (store_of A22)).1 ∧
  (∃ R, wp (ref 0 0) (store_of A22) (returns (λ new w', contents w' new = Some R)) ∧
        wp (ref 0 2) (store_of A22) (returns (λ new w', contents w' new = Some R))) ∧
  (∃ R, wp (rref 0 0) (store_of A22) (returns (λ new w', contents w' new = Some R)) ∧
        wp (rref 0 2) (store_of A22) (returns (λ new w', contents w' new = Some R))).
Proof.
  apply (verbose_only_prints (store_of A22) 0 A22 2 2 0 2).
  - reflexivity.
  - split; [reflexivity|]. repeat constructor.
  - lia.
  - lia.
Defined.

(** X23.  The matrix returned by [ref] or [rref] is a new object: it is
    none of the [Matrix] objects that existed before the call, so in
    particular not the receiver, even when no row operation was needed. *)
Theorem result_is_new_object w self verbose new :
  (ref self verbose w).1 = Ok new ∨ (rref self verbose w).1 = Ok new →
  w_mats w !! new = None ∧ ∀ m B, contents w m = Some B → new ≠ m.
Proof.
  intros H.
  assert (new = length (w_mats w)) as ->.
  { destruct H as [H|H].
    - destruct (ref self verbose w) as [r w'] eqn:E. simpl in H. subst r.
      apply ref_creates in E as [_ Hnew]. by destruct (Hnew new eq_refl).
    - destruct (rref self verbose w) as [r w'] eqn:E. simpl in H. subst r.
      apply rref_creates in E as [_ Hnew]. by destruct (Hnew new eq_refl). }
  split; [by apply lookup_ge_None_2|].
  intros m B (o & Ho%lookup_lt_Some & _)%contents_Some. lia.
Qed.

Lemma result_is_new_object_witness :
  w_mats (store_of I22) !! 1%nat = None ∧
  ∀ m B, contents (store_of I22) m = Some B → 1%nat ≠ m.
Proof.
  apply (result_is_new_object (store_of I22) 0 0 1). left. reflexivity.
Defined.

(** ** det: values *)

Lemma num_1 : num 1 = 1.
Proof. by apply Qc_is_canon. Qed.

Lemma num_m1 : num (1 * -1) = -1.
Proof. by apply Qc_is_canon. Qed.

(** The last round of [det] has no row left to eliminate. *)
Lemma det_step_fun_last A s i :
  length A = S i → det_step_fun (A, s) i = (A, s).
Proof.
  intros Hlen. unfold det_step_fun. simpl.
  destruct (first_nonzero A i (range i (length A))) as [k|] eqn:E; [|done].
  apply first_nonzero_Some in E as [Hk _]. apply elem_of_range in Hk.
  assert (k = i) as -> by lia. rewrite !decide_False by (by intros H; apply H).
  rewrite Hlen. unfold range. by replace (S i - (i + 1))%nat with 0%nat by lia.
Qed.

(** A round of [det] on a matrix that is zero below the diagonal finds its
    pivot on the diagonal, or none, and changes nothing. *)
Lemma det_step_fun_triangular n A s i :
  shape n n A → lower_zero_upto n n A → (i < n)%nat →
  det_step_fun (A, s) i = (A, s).
Proof.
  intros HA Hlow Hi. pose proof (proj1 HA) as Hlen.
  unfold det_step_fun. simpl.
  destruct (first_nonzero A i (range i (length A))) as [k|] eqn:E; [|done].
  apply first_nonzero_Some in E as [Hk Hnz]. apply elem_of_range in Hk.
  assert (k = i) as ->.
  { destruct (decide (k = i)) as [|Hne]; [done|]. destruct Hnz.
    apply Hlow; lia. }
  rewrite !decide_False by (by intros H; apply H). f_equal.
  apply foldl_id. intros j Hj%elem_of_range. rewrite Hlen in Hj.
  rewrite eliminate_div_combine, (Hlow i j) by lia.
  replace (0 * (1 / entry A i i)) with 0 by ring.
  rewrite combine_zero by (by rewrite !(shape_lookup_total n n A) by (done || lia)).
  apply list_insert_id, list_lookup_lookup_total_lt. lia.
Qed.

Lemma det_fun_triangular n A :
  shape n n A → lower_zero_upto n n A → det_fun A = diag_product A.
Proof.
  intros HA Hlow. unfold det_fun, det_elim.
  rewrite foldl_id.
  - simpl. rewrite num_1. ring.
  - intros i Hi%elem_of_range. rewrite (proj1 HA) in Hi.
    apply (det_step_fun_triangular n); [done..|lia].
Qed.

(** X24.  On a square matrix whose entries below the diagonal are all
    zero (upper triangular, in particular diagonal), [det] returns the
    product of the diagonal entries. *)
Theorem det_triangular w self A n verbose :
  contents w self = Some A → shape n n A → (0 < n)%nat →
  (∀ i j, (j < i < n)%nat → entry A i j = 0) →
  (det self verbose w).1 = Ok (foldl (λ a k, a * entry A k k) 1 (seq 0 n)).
Proof.
  intros Hm HA Hn Hlow.
  rewrite (det_outcome _ _ _ _ _ _ Hm HA Hn).
  rewrite decide_False by lia. rewrite decide_False by lia. f_equal.
  rewrite (det_fun_triangular n) by (done || (intros i j _ Hj; apply Hlow; lia)).
  unfold diag_product, range. by rewrite (proj1 HA), Nat.sub_0_r.
Qed.

Lemma det_triangular_witness :
  (det 0 0 (store_of [[num 2; num 5]; [num 0; num 3]])).1
    = Ok (foldl (λ a k, a * entry [[num 2; num 5]; [num 0; num 3]] k k) 1 (seq 0 2)).
Proof.
  apply (det_triangular (store_of [[num 2; num 5]; [num 0; num 3]]) 0
           [[num 2; num 5]; [num 0; num 3]] 2 0).
  - reflexivity.
  - split; [reflexivity|]. repeat constructor.
  - lia.
  - intros i j Hij. assert (i = 1 ∧ j = 0)%nat as [-> ->] by lia. reflexivity.
Defined.

Lemma det_fun_2x2 (a b c d : Qc) : det_fun [[a; b]; [c; d]] = a * d - b * c.
Proof.
  unfold det_fun, det_elim.
  change (range 0 (length [[a; b]; [c; d]])) with [0; 1]%nat.
  simpl foldl.
  assert (shape 2 2 (det_step_fun ([[a; b]; [c; d]], 1%Z) 0).1) as HS.
  { apply (shape_det_step_fun 2 2); [|lia]. split; [done|]. repeat constructor. }
  destruct (det_step_fun ([[a; b]; [c; d]], 1%Z) 0) as [U s] eqn:E.
  rewrite det_step_fun_last by apply HS. simpl fst; simpl snd.
  unfold det_step_fun in E. simpl fst in E. simpl snd in E.
  change (range 0 (length [[a; b]; [c; d]])) with [0; 1]%nat in E.
  rewrite !first_nonzero_cons in E. unfold entry in E. simpl lookup_total in E.
  change (Q2Qc 0) with (0 : Qc) in E.
  destruct (decide (a ≠ 0)) as [Ha|Ha].
  - cbn -[Qcplus Qcmult Qcopp Qcdiv Qcinv] in E. injection E as <- <-.
    unfold diag_product. cbn -[Qcplus Qcmult Qcopp Qcdiv Qcinv].
    rewrite num_1. field. done.
  - assert (a = 0) as -> by (by destruct (decide (a = 0))).
    destruct (decide (c ≠ 0)) as [Hc|Hc].
    + cbn -[Qcplus Qcmult Qcopp Qcdiv Qcinv] in E. injection E as <- <-.
      unfold diag_product. cbn -[Qcplus Qcmult Qcopp Qcdiv Qcinv].
      rewrite num_m1. field. done.
    + assert (c = 0) as -> by (by destruct (decide (c = 0))).
      unfold first_nonzero in E. simpl in E. injection E as <- <-.
      unfold diag_product. cbn -[Qcplus Qcmult Qcopp Qcdiv Qcinv].
      rewrite num_1. ring.
Qed.

(** X25.  On every 2×2 matrix [[a, b], [c, d]] of fractions, [det]
    returns [a*d - b*c], whichever of the entries are zero and at every
    verbose level. *)
Theorem det_2x2 w self (a b c d : Qc) verbose :
  contents w self = Some [[a; b]; [c; d]] →
  (det self verbose w).1 = Ok (a * d - b * c).
Proof.
  intros Hm.
  rewrite (det_outcome _ _ _ 2 2 _ Hm); [|split; [done|repeat constructor]|lia].
  rewrite decide_False by lia. rewrite decide_False by lia.
  by rewrite det_fun_2x2.
Qed.

Lemma det_2x2_witness :
  (det 0 0 (store_of P22)).1 = Ok (num 0 * num 0 - num 1 * num 1).
Proof. apply (det_2x2 (store_of P22) 0 (num 0) (num 1) (num 1) (num 0) 0). reflexivity. Defined.

(** ** Properties that the three row operations keep *)

(** The algorithms change the working matrix by three operations only:
    exchanging two rows, scaling a row by a non-zero number, and adding a
    multiple of one row to another.  A property of matrices that each of
    the three keeps, in both directions, holds of the result of [ref],
    of [rref] and of the elimination of [det] exactly when it holds of the
    matrix they start from. *)
Section row_operations.
Context (P : list (list Qc) → Prop).
Hypothesis P_swap : ∀ A i j,
  (i < length A)%nat → (j < length A)%nat → P (swap_rows i j A) ↔ P A.
Hypothesis P_scale : ∀ A i s,
  (i < length A)%nat → s ≠ 0 → P (<[i := row_mul (A !!! i) s]> A) ↔ P A.
Hypothesis P_combine : ∀ A i j t,
  (i < length A)%nat → (j < length A)%nat → i ≠ j →
  length (A !!! i) = length (A !!! j) →
  P (<[j := combine t (A !!! i) (A !!! j)]> A) ↔ P A.

Lemma invariant_foldl_combine n c (f : list (list Qc) → nat → list (list Qc))
    (g : list (list Qc) → nat → Qc) i js A :
  (∀ B j, f B j = <[j := combine (g B j) (B !!! i) (B !!! j)]> B) →
  shape n c A → (i < n)%nat → Forall (λ j, j < n ∧ j ≠ i)%nat js →
  shape n c (foldl f A js) ∧ (P (foldl f A js) ↔ P A).
Proof using P_combine.
  intros Hf HA Hi Hjs.
  apply (foldl_preserves (λ B, shape n c B ∧ (P B ↔ P A))); [|done].
  intros B j Hj [HB HP]. rewrite Forall_forall in Hjs.
  destruct (Hjs j Hj) as [Hjn Hji]. rewrite Hf. split.
  - apply shape_insert; [done|].
    rewrite length_combine; by rewrite !(shape_lookup_total n c B).
  - rewrite <-HP. apply P_combine; rewrite ?(proj1 HB); [done..|].
    by rewrite !(shape_lookup_total n c B).
Qed.

Lemma invariant_foldl_range n c (f : list (list Qc) → nat → list (list Qc)) lo A :
  (∀ B i, shape n c B → (i < n)%nat → shape n c (f B i) ∧ (P (f B i) ↔ P B)) →
  shape n c A →
  shape n c (foldl f A (range lo n)) ∧ (P (foldl f A (range lo n)) ↔ P A).
Proof using.
  intros Hf HA.
  apply (foldl_preserves (λ B, shape n c B ∧ (P B ↔ P A))); [|done].
  intros B i Hi%elem_of_range [HB HP].
  destruct (Hf B i HB) as [HB' HP']; [lia|]. split; [done|]. by rewrite HP'.
Qed.

Lemma invariant_ref_step_fun n c A i :
  shape n c A → (i < n)%nat → P (ref_step_fun A i) ↔ P A.
Proof using P_swap P_scale P_combine.
  intros HA Hi. pose proof (proj1 HA) as Hlen. unfold ref_step_fun.
  destruct (choose_pivot A i) as [[p r]|] eqn:E; [|done].
  destruct (choose_pivot_column n c _ _ _ _ HA E) as (k & -> & Hk & Hr & Hnz).
  rewrite Nat2Z.id.
  set (A1 := swap_rows i r A).
  assert (shape n c A1) as H1 by (apply shape_swap_rows; [done|lia..]).
  set (A2 := <[i := row_mul (A1 !!! i) (1 / entry A r k)]> A1).
  assert (shape n c A2) as H2.
  { apply shape_insert; [done|]. by rewrite length_row_mul, (shape_lookup_total n c). }
  destruct (invariant_foldl_combine n c (eliminate i k) (λ B j, entry B j k) i
              (range (i + 1) (length A2)) A2) as [_ ->]; [done..| |].
  { apply Forall_forall. intros j Hj%elem_of_range. rewrite (proj1 H2) in Hj. lia. }
  unfold A2. rewrite P_scale;
    [|by rewrite (proj1 H1)|by apply Qc_inv_nonzero].
  apply P_swap; lia.
Qed.

Lemma invariant_rref_step_fun n c A i :
  shape n c A → (i < n)%nat → P (rref_step_fun A i) ↔ P A.
Proof using P_combine.
  intros HA Hi. unfold rref_step_fun. case_decide; [done|].
  destruct (invariant_foldl_combine n c
              (eliminate_div i (Z.to_nat (pivot (A !!! i)))
                 (entry A i (Z.to_nat (pivot (A !!! i)))))
              (λ B j, entry B j (Z.to_nat (pivot (A !!! i)))
                      * (1 / entry A i (Z.to_nat (pivot (A !!! i)))))
              i (range 0 i) A) as [_ ->]; [| done..| |done].
  - intros B j. apply eliminate_div_combine.
  - apply Forall_forall. intros j Hj%elem_of_range. lia.
Qed.

Lemma invariant_ref_fun n c A : shape n c A → P (ref_fun A) ↔ P A.
Proof using P_swap P_scale P_combine.
  intros HA. unfold ref_fun. rewrite (proj1 HA).
  apply (invariant_foldl_range n c); [|done]. intros B i HB Hi.
  split; [by apply shape_ref_step_fun|by apply (invariant_ref_step_fun n c)].
Qed.

Lemma invariant_rref_fun n c A : shape n c A → P (rref_fun A) ↔ P A.
Proof using P_swap P_scale P_combine.
  intros HA. unfold rref_fun. pose proof (shape_ref_fun n c A HA) as HR.
  rewrite <-(invariant_ref_fun n c A HA). rewrite (proj1 HR).
  apply (invariant_foldl_range n c); [|done]. intros B i HB Hi.
  split; [by apply (shape_rref_step_fun n c)|by apply (invariant_rref_step_fun n c)].
Qed.

Lemma invariant_det_step_fun n c A neg i :
  shape n c A → (i < n)%nat → P (det_step_fun (A, neg) i).1 ↔ P A.
Proof using P_swap P_combine.
  intros HA Hi. pose proof (proj1 HA) as Hlen. unfold det_step_fun. simpl.
  destruct (first_nonzero A i (range i (length A))) as [k|] eqn:E; [|done].
  apply first_nonzero_Some in E as [Hk _]. apply elem_of_range in Hk. simpl.
  set (A1 := if decide (k ≠ i) then swap_rows i k A else A).
  assert (shape n c A1 ∧ (P A1 ↔ P A)) as [H1 HP1].
  { unfold A1. case_decide; [|done].
    split; [apply shape_swap_rows; [done|lia..]|apply P_swap; lia]. }
  destruct (invariant_foldl_combine n c (eliminate_div i i (entry A1 i i))
              (λ B j, entry B j i * (1 / entry A1 i i)) i
              (range (i + 1) (length A1)) A1) as [_ ->]; [|done..| |done].
  - intros B j. apply eliminate_div_combine.
  - apply Forall_forall. intros j Hj%elem_of_range. rewrite (proj1 H1) in Hj. lia.
Qed.

Lemma invariant_det_elim n c A :
  shape n c A → shape n c (det_elim A).1 ∧ (P (det_elim A).1 ↔ P A).
Proof using P_swap P_combine.
  intros HA. unfold det_elim. rewrite (proj1 HA).
  apply (foldl_preserves
           (λ st : list (list Qc) * Z, shape n c st.1 ∧ (P st.1 ↔ P A))); [|done].
  intros [B neg] i Hi%elem_of_range [HB HP]. simpl in *.
  split; [apply shape_det_step_fun; [done|lia]|].
  rewrite <-HP. apply (invariant_det_step_fun n c); [done|lia].
Qed.
End row_operations.

(** ** ref and rref keep the solutions of the system *)

Lemma dot_row_neg xs x : dot (row_neg xs) x = - dot xs x.
Proof.
  unfold dot, row_neg. revert x. induction xs as [|a xs IH]; intros [|b x]; simpl;
    try ring. rewrite IH. ring.
Qed.

Lemma dot_row_mul xs k x : dot (row_mul xs k) x = dot xs x * k.
Proof.
  unfold dot, row_mul. revert x. induction xs as [|a xs IH]; intros [|b x]; simpl;
    try ring. rewrite IH. ring.
Qed.

Lemma dot_row_add xs ys x :
  length xs = length ys → dot (row_add xs ys) x = dot xs x + dot ys x.
Proof.
  unfold dot, row_add. revert ys x.
  induction xs as [|a xs IH]; intros [|a' ys] [|b x] Hlen; simpl in *;
    try done; try ring.
  rewrite IH by lia. ring.
Qed.

Lemma dot_combine t xi xj x :
  length xi = length xj → dot (combine t xi xj) x = dot xj x - dot xi x * t.
Proof.
  intros Hlen. unfold combine.
  rewrite dot_row_add by (by rewrite length_row_mul, length_row_neg).
  rewrite dot_row_mul, dot_row_neg. ring.
Qed.

Lemma solves_insert A j ys x :
  (j < length A)%nat →
  solves (<[j := ys]> A) x ↔
  dot ys x = 0 ∧ ∀ i, (i < length A)%nat → i ≠ j → dot (A !!! i) x = 0.
Proof.
  intros Hj. unfold solves. rewrite length_insert. split.
  - intros H. split.
    + specialize (H j Hj). by rewrite list_lookup_total_insert_eq in H.
    + intros i Hi Hne. specialize (H i Hi).
      by rewrite list_lookup_total_insert_ne in H.
  - intros [Hy H] i Hi. destruct (decide (i = j)) as [->|Hne].
    + by rewrite list_lookup_total_insert_eq.
    + rewrite list_lookup_total_insert_ne by done. by apply H.
Qed.

Lemma solves_swap_rows x A i j :
  (i < length A)%nat → (j < length A)%nat →
  solves (swap_rows i j A) x ↔ solves A x.
Proof.
  intros Hi Hj. unfold solves. rewrite length_swap_rows. split; intros H k Hk.
  - destruct (decide (k = i)) as [->|Hki].
    { specialize (H j Hj). by rewrite lookup_total_swap_rows_r in H. }
    destruct (decide (k = j)) as [->|Hkj].
    { specialize (H i Hi). by rewrite lookup_total_swap_rows_l in H. }
    specialize (H k Hk). by rewrite lookup_total_swap_rows_ne in H.
  - destruct (decide (k = i)) as [->|Hki].
    { rewrite lookup_total_swap_rows_l by done. by apply H. }
    destruct (decide (k = j)) as [->|Hkj].
    { rewrite lookup_total_swap_rows_r by done. by apply H. }
    rewrite lookup_total_swap_rows_ne by done. by apply H.
Qed.

Lemma solves_scale x A i s :
  (i < length A)%nat → s ≠ 0 →
  solves (<[i := row_mul (A !!! i) s]> A) x ↔ solves A x.
Proof.
  intros Hi Hs. rewrite solves_insert by done. rewrite dot_row_mul. split.
  - intros [Hd H] k Hk. destruct (decide (k = i)) as [->|Hne]; [|by apply H].
    apply Qcmult_integral in Hd as [?|?]; done.
  - intros H. split; [|by intros k Hk _; apply H].
    rewrite (H i Hi). ring.
Qed.

Lemma solves_combine x A i j t :
  (i < length A)%nat → (j < length A)%nat → i ≠ j →
  length (A !!! i) = length (A !!! j) →
  solves (<[j := combine t (A !!! i) (A !!! j)]> A) x ↔ solves A x.
Proof.
  intros Hi Hj Hne Hlen. rewrite solves_insert by done.
  rewrite dot_combine by done. split.
  - intros [Hd H] k Hk. destruct (decide (k = j)) as [->|Hkj]; [|by apply H].
    rewrite (H i Hi Hne) in Hd.
    rewrite <-Hd. ring.
  - intros H. split; [|by intros k Hk _; apply H].
    rewrite (H i Hi), (H j Hj). ring.
Qed.

(** X26.  [ref] and [rref] keep the solutions of the homogeneous system:
    a vector [x] is sent to zero by every row of the matrix exactly when it
    is sent to zero by every row of the matrix returned by [ref], and
    exactly when by every row of the one returned by [rref].  (With an
    augmented matrix this is the solution set of the linear system.) *)
Theorem ref_rref_keep_solutions w self A n c verbose :
  contents w self = Some A → shape n c A → (0 < n)%nat →
  ((0 < verbose)%Z → (0 < c)%nat) →
  wp (ref self verbose) w
     (returns (λ new w', ∃ R, contents w' new = Some R ∧
                              ∀ x, solves R x ↔ solves A x)) ∧
  wp (rref self verbose) w
     (returns (λ new w', ∃ R, contents w' new = Some R ∧
                              ∀ x, solves R x ↔ solves A x)).
Proof.
  intros Hm HA Hn Hv. split.
  - eapply wp_mono; [by apply (wp_ref verbose n c)|].
    intros [new|e] w'; simpl; [|done]. intros Hc. exists (ref_fun A).
    split; [done|]. intros x.
    apply (invariant_ref_fun (λ B, solves B x) (solves_swap_rows x)
             (solves_scale x) (solves_combine x) n c A HA).
  - eapply wp_mono; [by apply (wp_rref verbose n c)|].
    intros [new|e] w'; simpl; [|done]. intros Hc. exists (rref_fun A).
    split; [done|]. intros x.
    apply (invariant_rref_fun (λ B, solves B x) (solves_swap_rows x)
             (solves_scale x) (solves_combine x) n c A HA).
Qed.

Lemma ref_rref_keep_solutions_witness :
  wp (ref 0 0) (store_of A23)
     (returns (λ new w', ∃ R, contents w' new = Some R ∧
                              ∀ x, solves R x ↔ solves A23 x)) ∧
  wp (rref 0 0) (store_of A23)
     (returns (λ new w', ∃ R, contents w' new = Some R ∧
                              ∀ x, solves R x ↔ solves A23 x)).
Proof.
  apply (ref_rref_keep_solutions (store_of A23) 0 A23 2 3 0).
  - reflexivity.
  - split; [reflexivity|]. repeat constructor.
  - lia.
  - lia.
Defined.

(** ** Nothing is printed unless asked for *)

Global Instance ret_silent {A} (a : A) : Silent (mret a).
Proof. by intros w. Qed.

Global Instance raise_silent {A} e : Silent (@raise A e).
Proof. by intros w. Qed.

Global Instance lift_silent {A} (r : result A) : Silent (lift r).
Proof. by intros w. Qed.

Global Instance bind_silent {A B} (c : M A) (k : A → M B) :
  Silent c → (∀ a, Silent (k a)) → Silent (c ≫= k).
Proof.
  intros Hc Hk w. specialize (Hc w). unfold mbind, M_bind.
  destruct (c w) as [[a|e] w']; simpl in *; [|done].
  by rewrite Hk.
Qed.

Global Instance if_dec_silent {A P} (d : {P} + {¬ P}) (c1 c2 : M A) :
  Silent c1 → Silent c2 → Silent (if d then c1 else c2).
Proof. by destruct d. Qed.

Global Instance when_false_silent c : Silent (when false c).
Proof. by intros w. Qed.

Global Instance traverse_silent {A B} (f : A → M B) l :
  (∀ x, Silent (f x)) → Silent (traverse f l).
Proof. intros Hf. induction l; simpl; apply _. Qed.

Global Instance foldM_silent {A S} (f : S → A → M S) s l :
  (∀ s x, Silent (f s x)) → Silent (foldM f s l).
Proof. intros Hf. revert s. induction l; intros s; simpl; apply _. Qed.

Global Instance for_silent {A} (l : list A) body :
  (∀ x, Silent (body x)) → Silent (for_ l body).
Proof. intros Hb. induction l; simpl; apply _. Qed.

Global Instance alloc_row_silent nums : Silent (alloc_row nums).
Proof. by intros w. Qed.

Global Instance read_row_silent r : Silent (read_row r).
Proof. by intros w. Qed.

Global Instance write_row_silent r nums : Silent (write_row r nums).
Proof. intros w. unfold write_row. by case_decide. Qed.

Global Instance alloc_matrix_silent o : Silent (alloc_matrix o).
Proof. by intros w. Qed.

Global Instance read_matrix_silent m : Silent (read_matrix m).
Proof. by intros w. Qed.

Global Instance write_matrix_silent m o : Silent (write_matrix m o).
Proof. intros w. unfold write_matrix. by case_decide. Qed.

Global Instance num_truediv_silent a b : Silent (num_truediv a b).
Proof. unfold num_truediv. apply _. Qed.

Ltac silent_step :=
  first
    [ progress intros
    | apply _
    | apply bind_silent
    | apply for_silent
    | apply foldM_silent
    | apply traverse_silent
    | match goal with
      | |- Silent (match ?x with _ => _ end) => destruct x
      | |- Silent (let '(_, _) := ?x in _) => destruct x
      end ].

Ltac solve_silent := repeat silent_step.

Global Instance Row_init_silent x : Silent (Row_init x).
Proof. unfold Row_init. apply _. Qed.
Global Instance Row_len_silent r : Silent (Row_len r).
Proof. unfold Row_len. apply _. Qed.
Global Instance Row_getitem_silent r i : Silent (Row_getitem r i).
Proof. unfold Row_getitem. apply _. Qed.
Global Instance Row_iter_silent r : Silent (Row_iter r).
Proof. unfold Row_iter. apply _. Qed.
Global Instance Row_neg_silent r : Silent (Row_neg r).
Proof. unfold Row_neg. apply _. Qed.
Global Instance Row_add_silent r r' : Silent (Row_add r r').
Proof. unfold Row_add. apply _. Qed.
Global Instance Row_mul_silent r k : Silent (Row_mul r k).
Proof. unfold Row_mul. apply _. Qed.
Global Instance Row_truediv_silent r k : Silent (Row_truediv r k).
Proof. unfold Row_truediv. apply _. Qed.
Global Instance Row_is_zero_silent r : Silent (Row_is_zero r).
Proof. unfold Row_is_zero. apply _. Qed.
Global Instance Row_pivot_loop_silent r idx : Silent (Row_pivot_loop r idx).
Proof. induction idx; simpl; apply _. Qed.
Global Instance Row_pivot_silent r : Silent (Row_pivot r).
Proof. unfold Row_pivot. apply _. Qed.
Global Instance Matrix_init_silent {X} (iter : X → M (list Qc)) x :
  (∀ z, Silent (iter z)) → Silent (Matrix_init iter x).
Proof. intros Hi. unfold Matrix_init. solve_silent. Qed.
Global Instance Matrix_len_silent m : Silent (Matrix_len m).
Proof. unfold Matrix_len. solve_silent. Qed.
Global Instance Matrix_getitem_silent m i : Silent (Matrix_getitem m i).
Proof. unfold Matrix_getitem. solve_silent. Qed.
Global Instance Matrix_getslice_silent m lo hi : Silent (Matrix_getslice m lo hi).
Proof. unfold Matrix_getslice. solve_silent. Qed.
Global Instance Matrix_iter_silent m : Silent (Matrix_iter m).
Proof. unfold Matrix_iter. solve_silent. Qed.
Global Instance Matrix_dim_silent m : Silent (Matrix_dim m).
Proof. unfold Matrix_dim. solve_silent. Qed.
Global Instance Matrix_deepcopy_silent m : Silent (Matrix_deepcopy m).
Proof. unfold Matrix_deepcopy. solve_silent. Qed.
Global Instance Matrix_setitem_silent m i r : Silent (Matrix_setitem m i r).
Proof. unfold Matrix_setitem. solve_silent. Qed.
Global Instance Matrix_swap_rows_silent m i j : Silent (Matrix_swap_rows m i j).
Proof. unfold Matrix_swap_rows. solve_silent. Qed.
Global Instance det_scan_silent m i ks : Silent (det_scan m i ks).
Proof. induction ks; simpl; solve_silent. Qed.
Global Instance op_is_not_useless_silent m i j c : Silent (op_is_not_useless m i j c).
Proof. unfold op_is_not_useless. solve_silent. Qed.

Section quiet.
Context (verbose : Z).
Hypothesis Hv : (verbose ≤ 0)%Z.

Lemma verbose_tests :
  (0 <? verbose)%Z = false ∧ (1 <? verbose)%Z = false ∧ (verbose =? 1)%Z = false.
Proof using Hv. lia. Qed.

Lemma det_eliminate_silent m i p j : Silent (det_eliminate m verbose i p j).
Proof using Hv.
  destruct verbose_tests as (E0 & E1 & E2).
  unfold det_eliminate. rewrite E1. simpl andb. solve_silent.
Qed.

Lemma det_step_silent m neg i : Silent (det_step m verbose neg i).
Proof using Hv.
  destruct verbose_tests as (E0 & E1 & E2).
  pose proof det_eliminate_silent.
  unfold det_step. rewrite E1, E2. simpl andb. solve_silent.
Qed.

Lemma det_silent self : Silent (det self verbose).
Proof using Hv.
  destruct verbose_tests as (E0 & E1 & E2).
  pose proof det_step_silent.
  unfold det. rewrite E0. solve_silent.
Qed.

Lemma ref_eliminate_silent m i p j : Silent (ref_eliminate m verbose i p j).
Proof using Hv.
  destruct verbose_tests as (E0 & E1 & E2).
  unfold ref_eliminate. rewrite E1. simpl andb. solve_silent.
Qed.

Lemma ref_step_silent m i : Silent (ref_step m verbose i).
Proof using Hv.
  destruct verbose_tests as (E0 & E1 & E2).
  pose proof ref_eliminate_silent.
  unfold ref_step. rewrite E1, E2. simpl andb. solve_silent.
Qed.

Lemma ref_silent self : Silent (ref self verbose).
Proof using Hv.
  destruct verbose_tests as (E0 & E1 & E2).
  pose proof ref_step_silent.
  unfold ref. rewrite E0. solve_silent.
Qed.

Lemma rref_eliminate_silent m i c p j : Silent (rref_eliminate m verbose i c p j).
Proof using Hv.
  destruct verbose_tests as (E0 & E1 & E2).
  unfold rref_eliminate. rewrite E1. simpl andb. solve_silent.
Qed.

Lemma rref_step_silent m i : Silent (rref_step m verbose i).
Proof using Hv.
  destruct verbose_tests as (E0 & E1 & E2).
  pose proof rref_eliminate_silent.
  unfold rref_step. rewrite E2. solve_silent.
Qed.

Lemma rref_silent self : Silent (rref self verbose).
Proof using Hv.
  pose proof ref_silent. pose proof rref_step_silent.
  unfold rref. solve_silent.
Qed.
End quiet.

(** X27.  With [verbose <= 0] (the default is [0]) the calls [det], [ref]
    and [rref] print nothing: the output after the call is the output
    before it, on every store and receiver and whatever the outcome. *)
Theorem quiet_unless_verbose w self verbose :
  (verbose ≤ 0)%Z →
  w_out (det self verbose w).2 = w_out w ∧
  w_out (ref self verbose w).2 = w_out w ∧
  w_out (rref self verbose w).2 = w_out w.
Proof.
  intros Hv. split; [|split].
  - by apply det_silent.
  - by apply ref_silent.
  - by apply rref_silent.
Qed.

Lemma quiet_unless_verbose_witness :
  w_out (det 0 0 (store_of A22)).2 = w_out (store_of A22) ∧
  w_out (ref 0 0 (store_of A22)).2 = w_out (store_of A22) ∧
  w_out (rref 0 0 (store_of A22)).2 = w_out (store_of A22).
Proof. apply (quiet_unless_verbose (store_of A22) 0 0). lia. Defined.

(** ** Linear dependence is kept by the row operations, in both directions *)

Lemma combine_undo t xi xj :
  length xi = length xj → combine (- t) xi (combine t xi xj) = xj.
Proof.
  intros Hlen. apply list_eq_same_length with (length xj);
    [done|by rewrite !length_combine by (by rewrite ?length_combine)|].
  intros col x y Hcol Hx Hy.
  apply list_lookup_total_correct in Hx, Hy.
  rewrite !lookup_total_combine in Hx by (by rewrite ?length_combine).
  subst. ring.
Qed.

Lemma dependent_swap_rows_iff A i j :
  (i < length A)%nat → (j < length A)%nat →
  dependent (swap_rows i j A) ↔ dependent A.
Proof.
  intros Hi Hj. destruct (decide (i = j)) as [->|Hne];
    [by rewrite swap_rows_same|].
  split; [|by apply dependent_swap_rows].
  intros H. rewrite <-(swap_rows_involutive A i j) by done.
  apply dependent_swap_rows; by rewrite ?length_swap_rows.
Qed.

Lemma dependent_combine_iff A i j t :
  (i < length A)%nat → (j < length A)%nat → i ≠ j →
  length (A !!! i) = length (A !!! j) →
  dependent (<[j := combine t (A !!! i) (A !!! j)]> A) ↔ dependent A.
Proof.
  intros Hi Hj Hne Hlen. split; [|by apply dependent_combine].
  intros H.
  apply (dependent_combine _ i j (- t)) in H;
    rewrite ?length_insert; try done.
  - rewrite list_lookup_total_insert_ne, list_lookup_total_insert_eq in H by done.
    rewrite combine_undo, list_insert_insert_eq in H by done.
    rewrite list_insert_id in H; [done|]. by apply list_lookup_lookup_total_lt.
  - rewrite list_lookup_total_insert_ne, list_lookup_total_insert_eq by done.
    by rewrite length_combine.
Qed.

Lemma row_mul_undo xs s : s ≠ 0 → row_mul (row_mul xs s) (1 / s) = xs.
Proof.
  intros Hs. rewrite row_mul_mul. unfold row_mul.
  rewrite <-(list_fmap_id xs) at 2. apply list_fmap_ext.
  intros _ x _. simpl. by field.
Qed.

Lemma dependent_scale A i s :
  (i < length A)%nat → s ≠ 0 →
  dependent A → dependent (<[i := row_mul (A !!! i) s]> A).
Proof.
  intros Hi Hs (cs & Hlen & (z & Hz & Hnz) & Hlin).
  exists (<[i := cs !!! i * (1 / s)]> cs).
  split; [by rewrite !length_insert|]. split.
  - rewrite length_insert. exists z. split; [done|].
    destruct (decide (z = i)) as [->|Hzi].
    + rewrite list_lookup_total_insert_eq by lia. intros H.
      apply Qcmult_integral in H as [?|H]; [done|]. by apply Qc_inv_nonzero in H.
    + by rewrite list_lookup_total_insert_ne.
  - intros col. rewrite lin_insert by lia.
    rewrite lookup_total_row_mul, Hlin. by field.
Qed.

Lemma dependent_scale_iff A i s :
  (i < length A)%nat → s ≠ 0 →
  dependent (<[i := row_mul (A !!! i) s]> A) ↔ dependent A.
Proof.
  intros Hi Hs. split; [|by apply dependent_scale].
  intros H. apply (dependent_scale _ i (1 / s)) in H;
    [|by rewrite length_insert|by apply Qc_inv_nonzero].
  rewrite list_lookup_total_insert_eq, row_mul_undo, list_insert_insert_eq in H by done.
  rewrite list_insert_id in H; [done|]. by apply list_lookup_lookup_total_lt.
Qed.

(** ** An upper triangular matrix with a zero on its diagonal *)

Lemma foldl_product_all_nonzero {X} (f : X → Qc) a l :
  a ≠ 0 → (∀ x, x ∈ l → f x ≠ 0) → foldl (λ a x, a * f x) a l ≠ 0.
Proof.
  revert a. induction l as [|y l IH]; intros a Ha Hl; simpl; [done|].
  apply IH.
  - intros H. apply Qcmult_integral in H as [?|H]; [done|].
    by apply (Hl y); [left|].
  - intros x Hx. apply Hl. by right.
Qed.

Section zero_on_diagonal.
Context (n : nat) (U : list (list Qc)).
Hypothesis HU : shape n n U.
Hypothesis Hlow : lower_zero_upto n n U.

(** Going up from the last row: either the rows are dependent, or the
    diagonal is non-zero from row [q] on and the rows from [q] on span
    every vector that is zero before column [q]. *)
Lemma span_or_dependent d q :
  (q + d = n)%nat →
  dependent U ∨
  ((∀ k, (q ≤ k < n)%nat → entry U k k ≠ 0) ∧
   ∀ v, length v = n → lz q v →
     ∃ cs, length cs = n ∧ (∀ j, (j < q)%nat → cs !!! j = 0) ∧
           ∀ col, lin cs U col = v !!! col).
Proof using HU Hlow.
  pose proof (proj1 HU) as Hlen. revert q.
  induction d as [|d IH]; intros q Hq.
  - right. split; [intros k ?; lia|]. intros v Hv Hz.
    exists (replicate n 0). split; [by rewrite length_replicate|].
    split; [intros j Hj; apply lookup_total_replicate_2; lia|].
    intros col. rewrite lin_zero.
    + symmetry. destruct (decide (col < n)%nat) as [Hc|Hc]; [apply Hz; lia|].
      apply lookup_total_ge_zero. lia.
    + intros j Hj _. rewrite length_replicate in Hj.
      rewrite lookup_total_replicate_2 by done. ring.
  - destruct (IH (S q)) as [Hdep|[Hnz Hspan]]; [lia|by left|].
    assert (lz q (U !!! q)) as Hrow.
    { intros col Hcol. apply (Hlow col q); lia. }
    assert (length (U !!! q) = n) as Hrowlen
      by (apply (shape_lookup_total n n); [done|lia]).
    destruct (decide (entry U q q = 0)) as [Hqq|Hqq].
    + left. destruct (Hspan (U !!! q)) as (cs & Hcs & Hsup & Hlin); [done| |].
      { intros col Hcol. destruct (decide (col = q)) as [->|]; [done|].
        apply Hrow. lia. }
      exists (<[q := -1]> cs). split; [by rewrite length_insert, Hlen|]. split.
      * exists q. rewrite length_insert. split; [lia|].
        rewrite list_lookup_total_insert_eq by lia. done.
      * intros col. rewrite lin_insert_coeff by lia.
        rewrite Hlin, (Hsup q) by lia. ring.
    + right. split.
      { intros k Hk. destruct (decide (k = q)) as [->|]; [done|]. apply Hnz. lia. }
      intros v Hv Hz.
      set (a := v !!! q * (1 / entry U q q)).
      destruct (Hspan (combine a (U !!! q) v)) as (cs & Hcs & Hsup & Hlin).
      { rewrite length_combine; [done|]. by rewrite Hrowlen. }
      { intros col Hcol. rewrite lookup_total_combine by (by rewrite Hrowlen).
        destruct (decide (col = q)) as [->|Hne].
        - unfold a. fold (entry U q q). by field.
        - rewrite Hz, Hrow by lia. ring. }
      exists (<[q := a]> cs). split; [by rewrite length_insert|]. split.
      * intros j Hj. rewrite list_lookup_total_insert_ne by lia. apply Hsup. lia.
      * intros col. rewrite lin_insert_coeff by lia.
        rewrite Hlin, (Hsup q) by lia.
        rewrite lookup_total_combine by (by rewrite Hrowlen). ring.
Qed.

Lemma triangular_zero_dependent : diag_product U = 0 → dependent U.
Proof using HU Hlow.
  intros Hprod. destruct (span_or_dependent n 0) as [|[Hnz _]]; [lia|done|].
  exfalso. revert Hprod. unfold diag_product.
  apply foldl_product_all_nonzero; [done|].
  intros k Hk%elem_of_range. rewrite (proj1 HU) in Hk. apply Hnz. lia.
Qed.
End zero_on_diagonal.

(** ** The elimination of [det] ends in an upper triangular matrix *)

Lemma det_step_fun_lower_zero n A neg m :
  shape n n A → (m < n)%nat → lower_zero_upto n m A →
  lower_zero_upto n (S m) (det_step_fun (A, neg) m).1.
Proof.
  intros HA Hm Hlow. pose proof (proj1 HA) as Hn.
  destruct (first_nonzero A m (range m (length A))) as [k|] eqn:Hf.
  - destruct (det_step_fun_rows n A neg m k HA Hm Hf)
      as (Hk & Hpv & HA1 & Hsame & Hcomb).
    set (A1 := if decide (k ≠ m) then swap_rows m k A else A) in *.
    set (U := (det_step_fun (A, neg) m).1) in *.
    assert (∀ j, (j < n)%nat → length (A1 !!! j) = n) as Hlen
      by (intros j Hj; by apply (shape_lookup_total n)).
    assert (lower_zero_upto n m A1) as Hlow1.
    { unfold A1. case_decide as Hkm; [|done]. intros i j Hi Hj. unfold entry.
      destruct (decide (j = m)) as [->|Hjm];
        [rewrite lookup_total_swap_rows_l by lia; apply Hlow; lia|].
      destruct (decide (j = k)) as [->|Hjk];
        [rewrite lookup_total_swap_rows_r by lia; apply Hlow; lia|].
      rewrite lookup_total_swap_rows_ne by done. by apply Hlow. }
    intros i j Hi Hj. unfold entry.
    destruct (decide (j ≤ m)%nat) as [Hjm|Hjm];
      [rewrite Hsame by done; apply Hlow1; lia|].
    rewrite Hcomb by lia.
    rewrite lookup_total_combine by (rewrite !Hlen; [done|lia..]).
    destruct (decide (i = m)) as [->|Him].
    + unfold entry. field. done.
    + fold (entry A1 j i). fold (entry A1 m i).
      rewrite (Hlow1 i j), (Hlow1 i m) by lia. ring.
  - unfold det_step_fun. simpl. rewrite Hf. simpl.
    intros i j Hi Hj. destruct (decide (i = m)) as [->|Him];
      [|apply Hlow; lia].
    apply (first_nonzero_None _ _ _ _ Hf), elem_of_range. lia.
Qed.

Lemma det_elim_triangular n A :
  shape n n A →
  shape n n (det_elim A).1 ∧ lower_zero_upto n n (det_elim A).1 ∧
  (det_elim A).2 ≠ 0%Z.
Proof.
  intros HA. unfold det_elim. rewrite (proj1 HA).
  assert (∀ m, (m ≤ n)%nat →
    shape n n (foldl det_step_fun (A, 1%Z) (range 0 m)).1 ∧
    lower_zero_upto n m (foldl det_step_fun (A, 1%Z) (range 0 m)).1 ∧
    (foldl det_step_fun (A, 1%Z) (range 0 m)).2 ≠ 0%Z) as H; [|by apply H].
  induction m as [|m IH]; intros Hm.
  - split; [done|]. split; [|done]. intros i j Hi. lia.
  - destruct IH as (Hs & Hl & Hnz); [lia|].
    rewrite range_snoc, foldl_app by lia. simpl.
    destruct (foldl det_step_fun (A, 1%Z) (range 0 m)) as [B neg]. simpl in *.
    split; [apply shape_det_step_fun; [done|lia]|].
    split; [apply det_step_fun_lower_zero; [done|lia|done]|].
    unfold det_step_fun. simpl. destruct (first_nonzero _ _ _); simpl; [|done].
    case_decide; lia.
Qed.

Lemma num_nonzero (z : Z) : z ≠ 0%Z → num z ≠ 0.
Proof.
  intros Hz H. unfold num in H. apply Q2Qc_eq_iff in H.
  unfold Qeq in H. simpl in H. lia.
Qed.

Lemma det_fun_zero_iff_dependent n A :
  shape n n A → det_fun A = 0 ↔ dependent A.
Proof.
  intros HA. split; [|by apply (det_fun_dependent n)].
  intros Hdet. destruct (det_elim_triangular n A HA) as (Hs & Hl & Hsign).
  unfold det_fun in Hdet. apply Qcmult_integral in Hdet as [Hz|Hprod];
    [by apply num_nonzero in Hz|].
  apply (invariant_det_elim dependent dependent_swap_rows_iff dependent_combine_iff
           n n A HA).
  by apply (triangular_zero_dependent n).
Qed.

(** X28.  On a square matrix [det] returns zero exactly when the rows are
    linearly dependent (some combination of the rows with coefficients not
    all zero is the zero row); so a non-zero result means independent
    rows. *)
Theorem det_zero_iff_dependent w self A n verbose :
  contents w self = Some A → shape n n A → (0 < n)%nat →
  ∃ d, (det self verbose w).1 = Ok d ∧ (d = 0 ↔ dependent A).
Proof.
  intros Hm HA Hn. exists (det_fun A). split.
  - rewrite (det_outcome _ _ _ _ _ _ Hm HA Hn).
    rewrite decide_False by lia. by rewrite decide_False by lia.
  - by apply (det_fun_zero_iff_dependent n).
Qed.

Lemma det_zero_iff_dependent_witness :
  ∃ d, (det 0 0 (store_of D22)).1 = Ok d ∧ (d = 0 ↔ dependent D22).
Proof.
  apply (det_zero_iff_dependent (store_of D22) 0 D22 2 0).
  - reflexivity.
  - split; [reflexivity|]. repeat constructor.
  - lia.
Defined.

(** ** A reduced matrix of full rank is the identity *)

Section full_rank.
Context (n : nat) (R : list (list Qc)).
Hypothesis HR : shape n n R.
Hypothesis Hech : echelon_upto n n R.
Hypothesis Hfull : ∀ i, (i < n)%nat → pivot (R !!! i) ≠ (-1)%Z.

Lemma pivot_lower_bound i (p : nat) :
  (i < n)%nat → pivot (R !!! i) = Z.of_nat p → (i ≤ p)%nat.
Proof using Hech Hfull.
  revert p. induction i as [|i IH]; intros p Hi Hp; [lia|].
  destruct (pivot_cases (R !!! i)) as [Hz|[q Hq]]; [by destruct (Hfull i); [lia|]|].
  pose proof (IH q ltac:(lia) Hq).
  pose proof (echelon_pivots_increase n R i (S i) q p Hech ltac:(lia) Hq Hp). lia.
Qed.

Lemma pivot_upper_bound d i (p : nat) :
  (i + d + 1 = n)%nat → pivot (R !!! i) = Z.of_nat p → (p ≤ i)%nat.
Proof using HR Hech Hfull.
  revert i p. induction d as [|d IH]; intros i p Hi Hp.
  - apply pivot_some in Hp as (Hlt & _).
    rewrite (shape_lookup_total n n) in Hlt by (done || lia). lia.
  - destruct (pivot_cases (R !!! S i)) as [Hz|[q Hq]];
      [by destruct (Hfull (S i)); [lia|]|].
    pose proof (IH (S i) q ltac:(lia) Hq).
    pose proof (echelon_pivots_increase n R i (S i) p q Hech ltac:(lia) Hp Hq). lia.
Qed.

Lemma pivot_on_diagonal i : (i < n)%nat → pivot (R !!! i) = Z.of_nat i.
Proof using HR Hech Hfull.
  intros Hi. destruct (pivot_cases (R !!! i)) as [Hz|[p Hp]];
    [by destruct (Hfull i)|].
  pose proof (pivot_lower_bound i p Hi Hp).
  pose proof (pivot_upper_bound (n - i - 1) i p ltac:(lia) Hp).
  rewrite Hp. f_equal. lia.
Qed.

Lemma full_rank_identity :
  cleared_upto n n R →
  ∀ i j, (i < n)%nat → (j < n)%nat →
    entry R i j = if decide (i = j) then 1 else 0.
Proof using HR Hech Hfull.
  intros Hcl i j Hi Hj. case_decide as Hij.
  - subst j. destruct (Hech i Hi Hi) as [H1 _].
    by destruct (H1 i (pivot_on_diagonal i Hi)).
  - destruct (decide (j < i)%nat) as [Hlt|Hge].
    + pose proof (pivot_on_diagonal i Hi) as Hp.
      apply pivot_some in Hp as (_ & _ & Hz). by apply Hz.
    + apply (Hcl j Hj Hj j (pivot_on_diagonal j Hj) i). lia.
Qed.
End full_rank.

Lemma identity_independent n R :
  shape n n R →
  (∀ i j, (i < n)%nat → (j < n)%nat →
     entry R i j = if decide (i = j) then 1 else 0) →
  ¬ dependent R.
Proof.
  intros HR Hid (cs & Hlen & (k & Hk & Hnz) & Hlin).
  pose proof (proj1 HR) as HlenR.
  specialize (Hlin k). rewrite (lin_single cs R k k) in Hlin; [|lia..|].
  - fold (entry R k k) in Hlin. rewrite Hid, decide_True in Hlin by (done || lia).
    apply Hnz. rewrite <-Hlin. ring.
  - intros j Hj HjR Hne. fold (entry R j k).
    rewrite Hid, decide_False by (done || lia). ring.
Qed.

(** X29.  [det] and [rref] agree on which square matrices are invertible:
    [det] returns a non-zero number exactly when [rref] returns the
    identity matrix. *)
Theorem det_nonzero_iff_rref_identity w self A n verbose :
  contents w self = Some A → shape n n A → (0 < n)%nat →
  ∃ d new R,
    (det self verbose w).1 = Ok d ∧
    (rref self verbose w).1 = Ok new ∧
    contents (rref self verbose w).2 new = Some R ∧
    (d ≠ 0 ↔ ∀ i j, (i < n)%nat → (j < n)%nat →
                entry R i j = if decide (i = j) then 1 else 0).
Proof.
  intros Hm HA Hn.
  pose proof (rref_outcome _ _ _ _ _ verbose Hm HA Hn) as Hrref.
  rewrite decide_False in Hrref by lia. destruct Hrref as (new & E & Hc).
  exists (det_fun A), new, (rref_fun A). split; [|split; [done|split; [done|]]].
  { rewrite (det_outcome _ _ _ _ _ _ Hm HA Hn).
    rewrite decide_False by lia. by rewrite decide_False by lia. }
  pose proof (shape_rref_fun n n A HA) as HR.
  destruct (reduced_rref_fun n n A HA Hn) as [Hech Hcl].
  pose proof (invariant_rref_fun dependent dependent_swap_rows_iff
                dependent_scale_iff dependent_combine_iff n n A HA) as Hinv.
  rewrite (det_fun_zero_iff_dependent n A HA). split.
  - intros Hindep. apply (full_rank_identity n); [done..| |done].
    intros i Hi Hz. apply Hindep, Hinv. by apply (dependent_zero_row n _ i).
  - intros Hid Hdep. apply (identity_independent n (rref_fun A)); [done..|].
    by apply Hinv.
Qed.

Lemma det_nonzero_iff_rref_identity_witness :
  ∃ d new R,
    (det 0 0 (store_of A22)).1 = Ok d ∧
    (rref 0 0 (store_of A22)).1 = Ok new ∧
    contents (rref 0 0 (store_of A22)).2 new = Some R ∧
    (d ≠ 0 ↔ ∀ i j, (i < 2)%nat → (j < 2)%nat →
                entry R i j = if decide (i = j) then 1 else 0).
Proof.
  apply (det_nonzero_iff_rref_identity (store_of A22) 0 A22 2 0).
  - reflexivity.
  - split; [reflexivity|]. repeat constructor.
  - lia.
Defined.

(** ** det computes the determinant *)

(** *** Sums *)

Lemma sum_over_ext ks f g :
  (∀ k, k ∈ ks → f k = g k) → sum_over ks f = sum_over ks g.
Proof.
  induction ks as [|k ks IH]; intros H; simpl; [done|].
  rewrite (H k) by left. rewrite IH; [done|]. intros j Hj. apply H. by right.
Qed.

Lemma sum_over_plus ks f g t :
  sum_over ks (λ k, f k + t * g k) = sum_over ks f + t * sum_over ks g.
Proof. induction ks as [|k ks IH]; simpl; [ring|]. rewrite IH. ring. Qed.

Lemma sum_over_zero ks f : (∀ k, k ∈ ks → f k = 0) → sum_over ks f = 0.
Proof.
  induction ks as [|k ks IH]; intros H; simpl; [done|].
  rewrite (H k) by left. rewrite IH; [ring|]. intros j Hj. apply H. by right.
Qed.

Lemma sum_over_app ks ks' f :
  sum_over (ks ++ ks') f = sum_over ks f + sum_over ks' f.
Proof. induction ks as [|k ks IH]; simpl; [ring|]. rewrite IH. ring. Qed.

Lemma sum_over_single n j f :
  (j < n)%nat → (∀ k, (k < n)%nat → k ≠ j → f k = 0) →
  sum_over (seq 0 n) f = f j.
Proof.
  intros Hj H. replace n with (j + (1 + (n - j - 1)))%nat at 1 by lia.
  rewrite !seq_app, !sum_over_app. simpl.
  rewrite !sum_over_zero; [ring|..];
    intros k Hk%elem_of_seq; apply H; lia.
Qed.

Lemma sum_over_pair n j f :
  (S j < n)%nat → (∀ k, (k < n)%nat → k ≠ j → k ≠ S j → f k = 0) →
  sum_over (seq 0 n) f = f j + f (S j).
Proof.
  intros Hj H. replace n with (j + (2 + (n - j - 2)))%nat at 1 by lia.
  rewrite !seq_app, !sum_over_app. simpl.
  rewrite !sum_over_zero; [ring|..];
    intros k Hk%elem_of_seq; apply H; lia.
Qed.

(** *** Minors *)

Lemma lookup_minor r A i :
  minor r A !! i = tail <$> A !! (if decide (i < r)%nat then i else S i).
Proof.
  unfold minor. rewrite list_lookup_fmap. case_decide.
  - by rewrite list_lookup_delete_lt.
  - by rewrite list_lookup_delete_ge by lia.
Qed.

Lemma length_minor r A : (r < length A)%nat → length (minor r A) = (length A - 1)%nat.
Proof.
  intros Hr. unfold minor. rewrite length_fmap, length_delete; [done|].
  by apply lookup_lt_is_Some_2.
Qed.

Lemma lookup_total_minor r A i :
  minor r A !!! i = tail (A !!! (if decide (i < r)%nat then i else S i)).
Proof. rewrite !list_lookup_total_alt, lookup_minor. by destruct (A !! _). Qed.

Lemma lookup_total_tail (xs : list Qc) j : tail xs !!! j = xs !!! S j.
Proof. by rewrite !list_lookup_total_alt, lookup_tail. Qed.

Lemma entry_minor r A i j :
  entry (minor r A) i j = entry A (if decide (i < r)%nat then i else S i) (S j).
Proof. unfold entry. by rewrite lookup_total_minor, lookup_total_tail. Qed.

Lemma minor_insert_eq r A v : minor r (<[r := v]> A) = minor r A.
Proof.
  apply list_eq. intros i. rewrite !lookup_minor.
  rewrite list_lookup_insert_ne; [done|]. case_decide; lia.
Qed.

Lemma minor_insert_ne r j A v :
  (r < length A)%nat → (j < length A)%nat → j ≠ r →
  minor r (<[j := v]> A) =
  <[(if decide (j < r)%nat then j else (j - 1)%nat) := tail v]> (minor r A).
Proof.
  intros Hr Hj Hne. apply list_eq. intros i.
  set (j' := if decide (j < r)%nat then j else (j - 1)%nat).
  assert (j' < length (minor r A))%nat as Hj'.
  { rewrite length_minor by done. unfold j'. case_decide; lia. }
  destruct (decide (i = j')) as [->|Hi].
  - rewrite list_lookup_insert_eq by done. rewrite lookup_minor.
    replace (if decide (j' < r)%nat then j' else S j') with j
      by (unfold j'; repeat case_decide; lia).
    by rewrite list_lookup_insert_eq.
  - rewrite list_lookup_insert_ne by done. rewrite !lookup_minor.
    rewrite list_lookup_insert_ne; [done|].
    unfold j' in Hi. repeat case_decide; lia.
Qed.

Lemma minor_adjacent_equal j A :
  A !! j = A !! S j → minor j A = minor (S j) A.
Proof.
  intros Heq. apply list_eq. intros i. rewrite !lookup_minor.
  destruct (decide (i = j)) as [->|Hne].
  - rewrite decide_False by lia. rewrite decide_True by lia. by rewrite Heq.
  - repeat case_decide; try lia; done.
Qed.

(** *** The expansion is linear in every row *)

Lemma laplace_S m A :
  laplace (S m) A =
  sum_over (seq 0 (S m)) (λ r, sign r * entry A r 0 * laplace m (minor r A)).
Proof. done. Qed.

Lemma tail_row_add x y : tail (row_add x y) = row_add (tail x) (tail y).
Proof. destruct x as [|a x], y as [|b y]; simpl; try done. by destruct x. Qed.

Lemma tail_row_mul y t : tail (row_mul y t) = row_mul (tail y) t.
Proof. by destruct y. Qed.

Lemma laplace_row_linear n A j x y t :
  length A = n → (j < n)%nat → length x = length y →
  laplace n (<[j := row_add x (row_mul y t)]> A) =
  laplace n (<[j := x]> A) + t * laplace n (<[j := y]> A).
Proof.
  revert A j x y. induction n as [|m IH]; intros A j x y HA Hj Hlen; [lia|].
  rewrite !laplace_S, <-sum_over_plus. apply sum_over_ext.
  intros r Hr%elem_of_seq. destruct (decide (r = j)) as [->|Hne].
  - rewrite !minor_insert_eq. unfold entry.
    rewrite !list_lookup_total_insert_eq by lia.
    rewrite lookup_total_row_add by (by rewrite length_row_mul).
    rewrite lookup_total_row_mul. ring.
  - rewrite !minor_insert_ne by lia. unfold entry.
    rewrite !list_lookup_total_insert_ne by done.
    rewrite tail_row_add, tail_row_mul. rewrite IH.
    + ring.
    + rewrite length_minor by lia. lia.
    + case_decide; lia.
    + destruct x, y; simpl in *; lia.
Qed.

Lemma row_add_mul_zero y t : row_add (row_mul y 0) (row_mul y t) = row_mul y t.
Proof.
  apply list_eq_same_length with (length y);
    [by rewrite length_row_mul
    |by rewrite length_row_add, length_row_mul by (by rewrite !length_row_mul)|].
  intros i a b Hi Ha Hb. apply list_lookup_total_correct in Ha, Hb.
  rewrite lookup_total_row_add, !lookup_total_row_mul in Ha
    by (by rewrite !length_row_mul).
  rewrite lookup_total_row_mul in Hb. subst. ring.
Qed.

Lemma laplace_zero_row n A j y :
  length A = n → (j < n)%nat → laplace n (<[j := row_mul y 0]> A) = 0.
Proof.
  intros HA Hj.
  pose proof (laplace_row_linear n A j (row_mul y 0) (row_mul y 0) 1 HA Hj eq_refl)
    as H.
  rewrite row_mul_mul in H. replace (0 * 1) with 0 in H by ring.
  rewrite row_add_mul_zero in H.
  set (Z := laplace n (<[j := row_mul y 0]> A)) in *.
  transitivity ((Z + 1 * Z) - Z); [ring|]. rewrite <-H. ring.
Qed.

Lemma laplace_row_scale n A j y t :
  length A = n → (j < n)%nat →
  laplace n (<[j := row_mul y t]> A) = t * laplace n (<[j := y]> A).
Proof.
  intros HA Hj.
  pose proof (laplace_row_linear n A j (row_mul y 0) y t HA Hj) as H.
  rewrite row_add_mul_zero in H. rewrite H by (by rewrite length_row_mul).
  rewrite laplace_zero_row by done. ring.
Qed.

Lemma row_mul_1 y : row_mul y 1 = y.
Proof.
  unfold row_mul. rewrite <-(list_fmap_id y) at 2. apply list_fmap_ext.
  intros _ x _. simpl. ring.
Qed.

Lemma laplace_row_add n A j x y :
  length A = n → (j < n)%nat → length x = length y →
  laplace n (<[j := row_add x y]> A) =
  laplace n (<[j := x]> A) + laplace n (<[j := y]> A).
Proof.
  intros HA Hj Hlen.
  pose proof (laplace_row_linear n A j x y 1 HA Hj Hlen) as H.
  rewrite row_mul_1 in H. rewrite H. ring.
Qed.

(** *** Two equal rows *)

Lemma sign_S j : sign (S j) = - sign j.
Proof.
  unfold sign. rewrite Nat.even_succ, <-Nat.negb_even.
  destruct (Nat.even j); simpl; ring.
Qed.

Lemma laplace_adjacent_equal n A j :
  length A = n → (S j < n)%nat → A !!! j = A !!! S j → laplace n A = 0.
Proof.
  revert A j. induction n as [|m IH]; intros A j HA Hj Heq; [lia|].
  rewrite laplace_S. rewrite (sum_over_pair (S m) j); [|done|].
  - assert (A !! j = A !! S j) as Heq'.
    { rewrite !(list_lookup_lookup_total_lt A) by lia. by rewrite Heq. }
    rewrite <-(minor_adjacent_equal j A Heq'), sign_S. unfold entry.
    rewrite Heq. ring.
  - intros k Hk Hkj HkSj.
    rewrite (IH (minor k A) (if decide (j < k)%nat then j else (j - 1)%nat));
      [ring| | |].
    + rewrite length_minor by lia. lia.
    + case_decide; lia.
    + rewrite !lookup_total_minor.
      destruct (decide (j < k)%nat).
      * rewrite !decide_True by lia. by rewrite Heq.
      * rewrite !decide_False by lia.
        replace (S (j - 1)) with j by lia. by rewrite Heq.
Qed.

(** From "equal rows give zero" to "exchanging the rows changes the sign". *)
Lemma laplace_swap_of_alt n c i k :
  (i < n)%nat → (k < n)%nat → i ≠ k →
  (∀ B, shape n c B → B !!! i = B !!! k → laplace n B = 0) →
  ∀ A, shape n c A → laplace n (swap_rows i k A) = - laplace n A.
Proof.
  intros Hi Hk Hne Halt A HA. pose proof (proj1 HA) as Hlen.
  set (a := A !!! i). set (b := A !!! k).
  assert (length a = c) as Ha by (by apply (shape_lookup_total n)).
  assert (length b = c) as Hb by (by apply (shape_lookup_total n)).
  assert (∀ x y, length x = c → length y = c →
            shape n c (<[k := y]> (<[i := x]> A))) as Hshape.
  { intros x y Hx Hy. apply shape_insert; [by apply shape_insert|done]. }
  assert (∀ x, length x = c → laplace n (<[k := x]> (<[i := x]> A)) = 0) as Hsame.
  { intros x Hx. apply Halt; [by apply Hshape|].
    rewrite list_lookup_total_insert_ne by done.
    rewrite !list_lookup_total_insert_eq; rewrite ?length_insert; [done|lia..]. }
  pose proof (Hsame (row_add a b)) as H0.
  rewrite laplace_row_add in H0;
    [|by rewrite length_insert|done|by rewrite Ha, Hb].
  rewrite !(list_insert_insert_ne _ k i) in H0 by done.
  rewrite !laplace_row_add in H0;
    [|by rewrite length_insert|done|by rewrite Ha, Hb
     |by rewrite length_insert|done|by rewrite Ha, Hb].
  rewrite !(list_insert_insert_ne _ i k) in H0 by done.
  rewrite (Hsame a Ha), (Hsame b Hb) in H0.
  assert (<[k := b]> (<[i := a]> A) = A) as EA.
  { rewrite !list_insert_id; [done|..];
      rewrite ?list_lookup_insert_ne by done;
      by apply list_lookup_lookup_total_lt; lia. }
  rewrite EA in H0. unfold swap_rows. fold a b.
  transitivity ((0 + laplace n (<[k:=a]> (<[i:=b]> A)) + (laplace n A + 0))
                - laplace n A); [ring|].
  rewrite H0 by (by rewrite length_row_add; lia). ring.
Qed.

Lemma laplace_swap_adjacent n c j A :
  shape n c A → (S j < n)%nat →
  laplace n (swap_rows j (S j) A) = - laplace n A.
Proof.
  intros HA Hj. apply (laplace_swap_of_alt n c); [lia..| |done].
  intros B HB Heq. apply (laplace_adjacent_equal n B j); [apply HB|done..].
Qed.

Lemma laplace_equal_rows_below n c d i A :
  shape n c A → (i + S d < n)%nat → A !!! i = A !!! (i + S d)%nat →
  laplace n A = 0.
Proof.
  revert i A. induction d as [|d IH]; intros i A HA Hi Heq.
  - replace (i + 1)%nat with (S i) in Heq by lia.
    apply (laplace_adjacent_equal n A i); [apply HA|lia|done].
  - pose proof (proj1 HA) as Hlen.
    pose proof (laplace_swap_adjacent n c (i + S d) A HA) as Hswap.
    rewrite (IH i (swap_rows (i + S d) (S (i + S d)) A)) in Hswap.
    + transitivity (- - laplace n A); [ring|]. rewrite <-Hswap by lia. ring.
    + apply shape_swap_rows; [done|lia..].
    + lia.
    + rewrite lookup_total_swap_rows_ne by lia.
      rewrite lookup_total_swap_rows_l by lia.
      rewrite Heq. f_equal. lia.
Qed.

Lemma laplace_equal_rows n c i k A :
  shape n c A → (i < n)%nat → (k < n)%nat → i ≠ k → A !!! i = A !!! k →
  laplace n A = 0.
Proof.
  intros HA Hi Hk Hne Heq. destruct (decide (i < k)%nat) as [Hlt|Hge].
  - apply (laplace_equal_rows_below n c (k - i - 1) i A HA); [lia|].
    rewrite Heq. f_equal. lia.
  - apply (laplace_equal_rows_below n c (i - k - 1) k A HA); [lia|].
    rewrite <-Heq. f_equal. lia.
Qed.

Lemma laplace_swap_rows n c i k A :
  shape n c A → (i < n)%nat → (k < n)%nat → i ≠ k →
  laplace n (swap_rows i k A) = - laplace n A.
Proof.
  intros HA Hi Hk Hne. apply (laplace_swap_of_alt n c); [done..| |done].
  intros B HB Heq. by apply (laplace_equal_rows n c i k).
Qed.

Lemma row_neg_mul xs : row_neg xs = row_mul xs (-1).
Proof.
  unfold row_neg, row_mul. apply list_fmap_ext. intros _ x _. simpl. ring.
Qed.

Lemma laplace_combine n c A i j t :
  shape n c A → (i < n)%nat → (j < n)%nat → i ≠ j →
  laplace n (<[j := combine t (A !!! i) (A !!! j)]> A) = laplace n A.
Proof.
  intros HA Hi Hj Hne. pose proof (proj1 HA) as Hlen. unfold combine.
  rewrite laplace_row_linear;
    [|done..|by rewrite length_row_neg, !(shape_lookup_total n c A)].
  rewrite list_insert_id by (apply list_lookup_lookup_total_lt; lia).
  rewrite row_neg_mul, laplace_row_scale by done.
  rewrite (laplace_equal_rows n c i j (<[j := A !!! i]> A)); [ring| |done..|].
  - apply shape_insert; [done|]. by apply (shape_lookup_total n).
  - rewrite list_lookup_total_insert_ne by done.
    by rewrite list_lookup_total_insert_eq by lia.
Qed.

(** *** Triangular matrices *)

Lemma shape_minor m c r A :
  shape (S m) (S c) A → (r ≤ m)%nat → shape m c (minor r A).
Proof.
  intros [Hlen HA] Hr. split; [rewrite length_minor; lia|].
  apply Forall_lookup. intros i x Hx. rewrite lookup_minor in Hx.
  destruct (A !! _) as [y|] eqn:Hy; [|done]. injection Hx as <-.
  eapply Forall_lookup_1 in HA; [|exact Hy]. destruct y; simpl in *; lia.
Qed.

Lemma foldl_mul_shift {X} (g : X → Qc) a l :
  foldl (λ a c, a * g c) a l = a * foldl (λ a c, a * g c) 1 l.
Proof.
  revert a. induction l as [|x l IH]; intros a; simpl; [ring|].
  rewrite IH, (IH (1 * g x)). ring.
Qed.

Lemma laplace_triangular n U :
  shape n n U → lower_zero_upto n n U → laplace n U = diag_product U.
Proof.
  revert U. induction n as [|m IH]; intros U HU Hlow.
  - unfold diag_product. by rewrite (proj1 HU).
  - rewrite laplace_S. rewrite (sum_over_single (S m) 0); [|lia|].
    + rewrite (IH (minor 0 U)); [|by apply shape_minor; [|lia]|].
      * unfold diag_product, range.
        rewrite length_minor, (proj1 HU) by (rewrite (proj1 HU); lia).
        replace (S m - 1 - 0)%nat with m by lia.
        replace (S m - 0)%nat with (S m) by lia.
        rewrite <-cons_seq. cbn [foldl].
        rewrite (foldl_mul_shift (λ c, entry U c c) (1 * entry U 0 0)).
        rewrite <-fmap_S_seq, foldl_fmap.
        assert (foldl (λ a c, a * entry (minor 0 U) c c) 1 (seq 0 m) =
                foldl (λ a c, a * entry U (S c) (S c)) 1 (seq 0 m)) as ->.
        { generalize (1 : Qc). induction (seq 0 m) as [|c l IHl]; intros a;
            simpl; [done|]. by rewrite entry_minor, IHl. }
        unfold sign. simpl Nat.even. cbv iota. ring.
      * intros i j Hi Hj. rewrite entry_minor. simpl. apply Hlow; lia.
    + intros k Hk Hne. rewrite (Hlow 0%nat k) by lia. ring.
Qed.

(** *** The elimination of [det] keeps the determinant *)

Lemma num_opp s : num (s * -1) = - num s.
Proof.
  apply Qc_is_canon. unfold num. simpl. rewrite !Qred_correct.
  unfold Qeq. simpl. lia.
Qed.

Lemma laplace_det_step n A s i :
  shape n n A → (i < n)%nat →
  shape n n (det_step_fun (A, s) i).1 ∧
  num (det_step_fun (A, s) i).2 * laplace n (det_step_fun (A, s) i).1
    = num s * laplace n A.
Proof.
  intros HA Hi. pose proof (proj1 HA) as Hlen.
  split; [by apply shape_det_step_fun|].
  unfold det_step_fun. simpl.
  destruct (first_nonzero A i (range i (length A))) as [k|] eqn:E; [|done].
  apply first_nonzero_Some in E as [Hk _]. apply elem_of_range in Hk. simpl.
  set (A1 := if decide (k ≠ i) then swap_rows i k A else A).
  set (s1 := if decide (k ≠ i) then (s * -1)%Z else s).
  assert (shape n n A1 ∧ num s1 * laplace n A1 = num s * laplace n A) as [H1 <-].
  { unfold A1, s1. case_decide; [|done]. split.
    - apply shape_swap_rows; [done|lia..].
    - rewrite (laplace_swap_rows n n), num_opp by (done || lia). ring. }
  f_equal.
  enough (shape n n (foldl (eliminate_div i i (entry A1 i i)) A1
                       (range (i + 1) (length A1))) ∧
          laplace n (foldl (eliminate_div i i (entry A1 i i)) A1
                       (range (i + 1) (length A1))) = laplace n A1) as [_ ?];
    [done|].
  apply (foldl_preserves (λ B, shape n n B ∧ laplace n B = laplace n A1)); [|done].
  intros B j Hj%elem_of_range [HB HL]. rewrite (proj1 H1) in Hj.
  split; [apply shape_eliminate_div; [done|lia..]|].
  rewrite eliminate_div_combine, <-HL.
  apply (laplace_combine n n); [done|lia..].
Qed.

Lemma laplace_det_elim n A :
  shape n n A → num (det_elim A).2 * laplace n (det_elim A).1 = laplace n A.
Proof.
  intros HA. unfold det_elim. rewrite (proj1 HA).
  enough (shape n n (foldl det_step_fun (A, 1%Z) (range 0 n)).1 ∧
          num (foldl det_step_fun (A, 1%Z) (range 0 n)).2
          * laplace n (foldl det_step_fun (A, 1%Z) (range 0 n)).1 = laplace n A)
    as [_ ?]; [done|].
  apply (foldl_preserves
           (λ st : list (list Qc) * Z,
              shape n n st.1 ∧ num st.2 * laplace n st.1 = laplace n A)).
  - intros [B s] i Hi%elem_of_range [HB HL]. simpl in *.
    destruct (laplace_det_step n B s i HB) as [HB' HL']; [lia|].
    split; [done|]. by rewrite HL'.
  - split; [done|]. simpl. rewrite num_1. ring.
Qed.

Lemma det_fun_laplace n A : shape n n A → det_fun A = laplace n A.
Proof.
  intros HA. destruct (det_elim_triangular n A HA) as (HU & Hlow & _).
  unfold det_fun. rewrite <-(laplace_triangular n (det_elim A).1) by done.
  by apply laplace_det_elim.
Qed.

(** X30.  On every square matrix of fractions [det] returns the
    determinant: the value of the cofactor expansion along the first
    column, [Σ_r (-1)^r · A[r][0] · det(A without row r and column 0)]. *)
Theorem det_is_determinant w self A n verbose :
  contents w self = Some A → shape n n A → (0 < n)%nat →
  (det self verbose w).1 = Ok (laplace n A).
Proof.
  intros Hm HA Hn.
  rewrite (det_outcome _ _ _ _ _ _ Hm HA Hn).
  rewrite decide_False by lia. rewrite decide_False by lia.
  by rewrite (det_fun_laplace n).
Qed.

Lemma det_is_determinant_witness :
  (det 0 0 (store_of A22)).1 = Ok (laplace 2 A22).
Proof.
  apply (det_is_determinant (store_of A22) 0 A22 2 0).
  - reflexivity.
  - split; [reflexivity|]. repeat constructor.
  - lia.
Defined.

